(** * swizzle: reordering address and data bits of a ROM image

    A shallow embedding of [swizzle.c] (parseBits, swizzleWord and the
    driver swizzle) and the properties of its specification.

    C data model.  The program computes on [int], [long] and
    [unsigned long].  The embedding fixes the LP64 model of the 64-bit
    Unix targets that provide [<getopt.h>]: [int] has 32 bits, [long] and
    [unsigned long] have 64.  Every machine integer is a [Z] and every
    conversion the C typing rules insert is written out ([to_int],
    [to_long], [to_ulong], [to_uchar]).  A left shift of an [int] that
    reaches the sign bit wraps, as gcc and clang define it. *)

From Stdlib Require Import ZArith Lia Bool Ascii String.
From stdpp Require Import base numbers list.

Local Open Scope Z_scope.

(** ** Machine integers *)

Module C.

Definition to_int (x : Z) : Z := (x + 2 ^ 31) mod 2 ^ 32 - 2 ^ 31.
Definition to_long (x : Z) : Z := (x + 2 ^ 63) mod 2 ^ 64 - 2 ^ 63.
Definition to_ulong (x : Z) : Z := x mod 2 ^ 64.
Definition to_uchar (x : Z) : Z := x mod 2 ^ 8.

Definition LONG_MAX : Z := 2 ^ 63 - 1.
Definition LONG_MIN : Z := - 2 ^ 63.
Definition INT_MIN : Z := - 2 ^ 31.

(** [a << n] on [int] operands; C defines it for [0 <= n < 32]. *)
Definition int_shl (a n : Z) : Z := to_int (Z.shiftl a n).

(** [a << n] and [a >> n] on [unsigned long] operands, [0 <= n < 64]. *)
Definition ulong_shl (a n : Z) : Z := to_ulong (Z.shiftl a n).
Definition ulong_shr (a n : Z) : Z := Z.shiftr a n.

End C.

(** ** Runs: diagnostics, fatal exits and undefined accesses *)

(** The messages of [error], which prints and calls [exit(1)]. *)
Inductive fatal : Type :=
  | InvalidIndex (type : string) (index hi : Z)
      (* "invalid %s bit index %d (must be between 0 and %d)" *)
  | CountMismatch (count : Z) (type : string) (found : Z)
      (* "expected %d %s bits, but %d were specified" *)
  | SizeError
      (* "error getting size of %s" *)
  | AddrWidth.
      (* "address bus width must be between 1 and 32 bits" *)

(** What a run leaves behind besides its result: the warnings printed on
    stderr and the stores of parseBits into the caller's table. *)
Inductive event : Type :=
  | WarnDuplicate (type : string) (index : Z)
      (* "warning: %s bit index %d specified multiple times" *)
  | WarnNonPowerOfTwo (size : Z)
      (* "warning: non-power-of-two input size (%ld bytes)" *)
  | WarnUnaligned (bytes : Z)
      (* "warning: input size is not a multiple of %d bytes" *)
  | Store (slot value : Z).
      (* dest[slot] = value *)

Inductive outcome (A : Type) : Type :=
  | Ret (a : A)
  | Exit (e : fatal)
  | Fault.   (* an access outside an array: undefined in C *)

Arguments Ret {A} a.
Arguments Exit {A} e.
Arguments Fault {A}.

Definition run (A : Type) : Type := (list event * outcome A)%type.

Definition trace {A} (r : run A) : list event := r.1.
Definition result {A} (r : run A) : outcome A := r.2.

Definition ret {A} (a : A) : run A := ([], Ret a).
Definition error {A} (e : fatal) : run A := ([], Exit e).
Definition fault {A} : run A := ([], Fault).
Definition emit (e : event) : run unit := ([e], Ret tt).

Definition bind {A B} (m : run A) (f : A -> run B) : run B :=
  match m with
  | (t, Ret a) => let r := f a in (t ++ r.1, r.2)
  | (t, Exit e) => (t, Exit e)
  | (t, Fault) => (t, Fault)
  end.

Notation "'let!' x := m 'in' k" := (bind m (fun x => k))
  (at level 10, x name, m at level 200, k at level 200,
   format "'[v' 'let!'  x  :=  m  'in' '/' k ']'").

(** [when c m]: an [if] without [else]. *)
Definition when (c : bool) (m : run unit) : run unit :=
  if c then m else ret tt.

(** A [for] loop whose index runs through [l], threading the state. *)
Fixpoint for_each {S} (l : list Z) (body : Z -> S -> run S) (s : S) : run S :=
  match l with
  | [] => ret s
  | i :: l' => let! s' := body i s in for_each l' body s'
  end.

(** ** Arrays *)

(** [a[i]] read and written; outside the array the run faults. *)
Definition load (a : list Z) (i : Z) : run Z :=
  if (0 <=? i) && (i <? Z.of_nat (length a))
  then ret (a !!! Z.to_nat i) else fault.

Definition store (a : list Z) (i v : Z) : run (list Z) :=
  if (0 <=? i) && (i <? Z.of_nat (length a))
  then ret (<[Z.to_nat i := v]> a) else fault.

(** ** The C library: strtok and atoi *)

Definition comma : ascii := ","%char.

(** The tokens that successive [strtok(.., ",")] calls return: the maximal
    runs of characters other than the delimiter; empty runs are skipped. *)
Fixpoint strtok_from (delim : ascii) (s : string) (cur : string) : list string :=
  match s with
  | EmptyString =>
      match cur with EmptyString => [] | _ => [cur] end
  | String c s' =>
      if Ascii.eqb c delim
      then match cur with
           | EmptyString => strtok_from delim s' EmptyString
           | _ => cur :: strtok_from delim s' EmptyString
           end
      else strtok_from delim s' (cur ++ String c EmptyString)%string
  end.

Definition strtok (s : string) (delim : ascii) : list string :=
  strtok_from delim s EmptyString.

Definition isspace (c : ascii) : bool :=
  let n := Z.of_nat (nat_of_ascii c) in
  (n =? 32) || ((9 <=? n) && (n <=? 13)).

Definition digit (c : ascii) : option Z :=
  let n := Z.of_nat (nat_of_ascii c) in
  if (48 <=? n) && (n <=? 57) then Some (n - 48) else None.

Fixpoint skip_spaces (s : string) : string :=
  match s with
  | String c s' => if isspace c then skip_spaces s' else s
  | EmptyString => s
  end.

Fixpoint digits (acc : Z) (s : string) : Z :=
  match s with
  | String c s' =>
      match digit c with
      | Some d => digits (10 * acc + d) s'
      | None => acc
      end
  | EmptyString => acc
  end.

(** [strtol(s, NULL, 10)]: blanks, an optional sign, decimal digits; the
    value saturates at the bounds of [long]. *)
Definition strtol (s : string) : Z :=
  let clamp v := Z.max C.LONG_MIN (Z.min C.LONG_MAX v) in
  match skip_spaces s with
  | String "-"%char s' => clamp (- digits 0 s')
  | String "+"%char s' => clamp (digits 0 s')
  | s' => clamp (digits 0 s')
  end.

(** [atoi(s)] is [(int) strtol(s, NULL, 10)]. *)
Definition atoi (s : string) : Z := C.to_int (strtol s).

(** ** parseBits *)

(** The body of [while (bit)], once per token; [pos] and [bitsFound] are
    the locals of parseBits.  [pos] starts at [count] and drops by one per
    token, so it stays an [int] for any command line. *)
Fixpoint parseBits_loop (toks : list string) (dest : list Z) (count : Z)
    (type : string) (pos bitsFound : Z) : run (list Z * Z) :=
  match toks with
  | [] => ret (dest, pos)
  | bit :: toks' =>
      let index := atoi bit in
      let! dest' := (if 0 <? pos
                     then let! _ := emit (Store (pos - 1) index) in
                          store dest (pos - 1) index
                     else ret dest) in
      let! _ := when ((index <? 0) || (count <=? index))
                  (error (InvalidIndex type index (count - 1))) in
      let! _ := when (negb (Z.land bitsFound (C.to_ulong (C.int_shl 1 index)) =? 0))
                  (emit (WarnDuplicate type index)) in
      let bitsFound' := Z.lor bitsFound (C.to_ulong (C.int_shl 1 index)) in
      parseBits_loop toks' dest' count type (pos - 1) bitsFound'
  end.

Definition parseBits (bits : string) (dest : list Z) (count : Z)
    (type : string) : run (list Z) :=
  let! r := parseBits_loop (strtok bits comma) dest count type count 0 in
  let! _ := when (negb (r.2 =? 0))
              (error (CountMismatch count type (count - r.2))) in
  ret r.1.


(** ** swizzleWord *)

(** [out] is a [long] that is only ever or-ed with [unsigned long]
    operands and converted back on return.  [1 << bits[i]] is an [int]; it
    is converted to [unsigned long] for the [&].  The tables of the
    program are [int[32]] and [count <= 32], so [bits[i]] is inside. *)
Definition swizzleWord (word : Z) (bits : list Z) (count : Z) : Z :=
  let step (out i : Z) : Z :=
    let b := bits !!! Z.to_nat i in
    let sel := Z.land word (C.to_ulong (C.int_shl 1 b)) in
    if i <=? b
    then C.to_long (Z.lor (C.to_ulong out) (C.ulong_shr sel (b - i)))
    else C.to_long (Z.lor (C.to_ulong out) (C.ulong_shl sel (i - b)))
  in
  C.to_ulong (foldl step 0 (seqZ 0 count)).

(** ** The driver *)

(** [inPath] and [outPath] are left out: a run takes the content of the
    input file and returns the content written to the output file.  The
    files open, [calloc] returns its two buffers and [fread] and [fwrite]
    transfer all their bytes: the exits of the driver on a failure of the
    system are not part of the model.  [main] only lets 1 to 4 through as
    [bytesPerWord]. *)
Record swizzle_t : Type := {
  addrBits : option string;
  dataBits : option string;
  bytesPerWord : Z;
  bigEndian : bool
}.

Definition byte_val (b : Byte.byte) : Z := Z.of_N (Byte.to_N b).

(** [fseek(inFile, 0, SEEK_END); ftell(inFile)]: the size, or -1 when it
    does not fit a [long]. *)
Definition ftell (file : list Byte.byte) : Z :=
  let n := Z.of_nat (length file) in
  if n <=? C.LONG_MAX then n else -1.

(** The five [inSize |= inSize >> k] and the [inSize++]. *)
Definition next_pow2 (inSize : Z) : Z :=
  let s := Z.lor inSize (Z.shiftr inSize 1) in
  let s := Z.lor s (Z.shiftr s 2) in
  let s := Z.lor s (Z.shiftr s 4) in
  let s := Z.lor s (Z.shiftr s 8) in
  let s := Z.lor s (Z.shiftr s 16) in
  C.to_long (s + 1).

(** The working size: the file size after the two paddings. *)
Definition pow2_size (opts : swizzle_t) (fileSize : Z) : run Z :=
  if bool_decide (is_Some (addrBits opts))
     && negb (Z.land fileSize (fileSize - 1) =? 0)
  then let! _ := emit (WarnNonPowerOfTwo fileSize) in
       ret (next_pow2 fileSize)
  else ret fileSize.

Definition aligned_size (opts : swizzle_t) (inSize : Z) : run Z :=
  let bpw := bytesPerWord opts in
  if negb (Z.rem inSize bpw =? 0)
  then let! _ := emit (WarnUnaligned bpw) in
       ret (Z.land (C.to_long (inSize + (bpw - 1))) (Z.lnot (bpw - 1)))
  else ret inSize.

Definition working_size (opts : swizzle_t) (fileSize : Z) : run Z :=
  let! inSize := pow2_size opts fileSize in
  aligned_size opts inSize.

(** [(int)log2(x)] for the [long] [x = inSize / bytesPerWord].  The C
    code goes through [double].  Below 2^33 the conversion of [x] is
    exact and its logarithm lies further from the next integer than any
    rounding error, so the truncation is [Z.log2 x]; from 2^33 on the
    result is 33 or more, like [Z.log2 x], and the driver rejects it.
    For [x <= 0] the logarithm is -inf or NaN and the conversion yields
    [INT_MIN], rejected as well. *)
Definition log2_int (x : Z) : Z :=
  if 0 <? x then Z.log2 x else C.INT_MIN.

Definition calloc (n : Z) : list Z := replicate (Z.to_nat n) 0.

(** [fread(buf, 1, fileSize, inFile)] from the start of the file. *)
Definition fread (buf : list Z) (file : list Byte.byte) : run (list Z) :=
  if (length file <=? length buf)%nat
  then ret ((byte_val <$> file) ++ drop (length file) buf)
  else fault.

(** The two byte loops around the data permutation.  A byte is promoted
    to [int] before it is shifted, and the [int] is converted to
    [unsigned long] for the [|=]. *)
Definition read_word (opts : swizzle_t) (inData : list Z) (pos : Z) : run Z :=
  let bpw := bytesPerWord opts in
  if bigEndian opts
  then for_each (seqZ 0 bpw) (fun i data =>
         let! c := load inData (pos + i) in
         ret (Z.lor data (C.to_ulong (C.int_shl c (8 * (bpw - i - 1)))))) 0
  else for_each (seqZ 0 bpw) (fun i data =>
         let! c := load inData (pos + i) in
         ret (Z.lor data (C.to_ulong (C.int_shl c (8 * i))))) 0.

Definition write_word (opts : swizzle_t) (outData : list Z)
    (outAddr data : Z) : run (list Z) :=
  let bpw := bytesPerWord opts in
  if bigEndian opts
  then for_each (seqZ 0 bpw) (fun i out =>
         store out (outAddr + i)
           (C.to_uchar (C.ulong_shr data (8 * (bpw - i - 1))))) outData
  else for_each (seqZ 0 bpw) (fun i out =>
         store out (outAddr + i)
           (C.to_uchar (C.ulong_shr data (8 * i)))) outData.

(** The values of [pos] in [for (pos = 0; pos < inSize; pos += bpw)]. *)
Definition positions (inSize bpw : Z) : list Z :=
  (fun k => k * bpw) <$> seqZ 0 ((inSize + bpw - 1) `quot` bpw).

(** One turn of the main loop. *)
Definition move_word (opts : swizzle_t) (addrTab dataTab : list Z)
    (numAddrBits numDataBits : Z) (inData : list Z)
    (pos : Z) (outData : list Z) : run (list Z) :=
  let bpw := bytesPerWord opts in
  let outAddr :=
    if bool_decide (is_Some (addrBits opts))
    then C.to_long (C.to_ulong
           (bpw * swizzleWord (pos `quot` bpw) addrTab numAddrBits))
    else pos in
  let! data := read_word opts inData pos in
  let data :=
    if bool_decide (is_Some (dataBits opts))
    then swizzleWord data dataTab numDataBits
    else data in
  write_word opts outData outAddr data.

Definition swizzle (opts : swizzle_t) (file : list Byte.byte) : run (list Z) :=
  let bpw := bytesPerWord opts in
  let fileSize := ftell file in
  let! _ := when (fileSize <? 0) (error SizeError) in
  let! inSize := working_size opts fileSize in
  let numAddrBits := log2_int (inSize `quot` bpw) in
  let numDataBits := 8 * bpw in
  let! _ := when ((numAddrBits <? 1) || (32 <? numAddrBits))
              (error AddrWidth) in
  let! addrTab :=
    match addrBits opts with
    | Some bits => parseBits bits (replicate 32 0) numAddrBits "address"
    | None => ret (replicate 32 0)
    end in
  let! dataTab :=
    match dataBits opts with
    | Some bits => parseBits bits (replicate 32 0) numDataBits "data"
    | None => ret (replicate 32 0)
    end in
  let! inData := fread (calloc inSize) file in
  for_each (positions inSize bpw)
    (move_word opts addrTab dataTab numAddrBits numDataBits inData)
    (calloc inSize).

(** The run from the check of the address width on, for a working size
    [inSize] and an input buffer [inData]. *)
Definition swizzle_body (opts : swizzle_t) (inSize : Z) (inData : list Z)
    : run (list Z) :=
  let bpw := bytesPerWord opts in
  let numAddrBits := log2_int (inSize `quot` bpw) in
  let numDataBits := 8 * bpw in
  let! _ := when ((numAddrBits <? 1) || (32 <? numAddrBits))
              (error AddrWidth) in
  let! addrTab :=
    match addrBits opts with
    | Some bits => parseBits bits (replicate 32 0) numAddrBits "address"
    | None => ret (replicate 32 0)
    end in
  let! dataTab :=
    match dataBits opts with
    | Some bits => parseBits bits (replicate 32 0) numDataBits "data"
    | None => ret (replicate 32 0)
    end in
  for_each (positions inSize bpw)
    (move_word opts addrTab dataTab numAddrBits numDataBits inData)
    (calloc inSize).

(** The settings of [main] before any option is read. *)
Definition default_opts : swizzle_t :=
  {| addrBits := None; dataBits := None; bytesPerWord := 1; bigEndian := false |}.

(** ** main *)

(** How main ends: with the usage text and [exit(1)], with the message on
    the word size and [exit(-1)], or with the call of [swizzle] on the
    options read and the two paths. *)
Inductive main_end : Type :=
  | Usage
  | WordSizeError
  | Call (opts : swizzle_t) (inPath outPath : string).

(** The loop on [getopt_long].  Its calls are given by what they return,
    in order, up to the -1 that ends the loop: the option character and
    [optarg].  With the option string ":ha:d:w:b" and the table [options]
    that is 'h', 'a', 'd', 'w' or 'b' for an option of the program in its
    short or long form, ':' for an option that lacks its argument and '?'
    for an unknown option, which no [case] takes.  The result is the end
    of main inside the loop, if any, or the options after it. *)
Fixpoint read_options (calls : list (ascii * string)) (opts : swizzle_t)
    : main_end + swizzle_t :=
  match calls with
  | [] => inr opts
  | (opt, optarg) :: calls' =>
      if Ascii.eqb opt ":" || Ascii.eqb opt "h" then inl Usage
      else if Ascii.eqb opt "a" then
        read_options calls'
          {| addrBits := Some optarg; dataBits := dataBits opts;
             bytesPerWord := bytesPerWord opts; bigEndian := bigEndian opts |}
      else if Ascii.eqb opt "d" then
        read_options calls'
          {| addrBits := addrBits opts; dataBits := Some optarg;
             bytesPerWord := bytesPerWord opts; bigEndian := bigEndian opts |}
      else if Ascii.eqb opt "w" then
        let w := atoi optarg in
        if (w <? 1) || (4 <? w) then inl WordSizeError
        else read_options calls'
               {| addrBits := addrBits opts; dataBits := dataBits opts;
                  bytesPerWord := w; bigEndian := bigEndian opts |}
      else if Ascii.eqb opt "b" then
        read_options calls'
          {| addrBits := addrBits opts; dataBits := dataBits opts;
             bytesPerWord := bytesPerWord opts; bigEndian := true |}
      else read_options calls' opts
  end.

(** The end of main.  [paths] are the arguments from [argv[optind]] on;
    fewer than two of them give the usage text, and those after the
    second are not looked at. *)
Definition main (calls : list (ascii * string)) (paths : list string) : main_end :=
  match read_options calls default_opts with
  | inl e => e
  | inr opts =>
      match paths with
      | inPath :: outPath :: _ => Call opts inPath outPath
      | _ => Usage
      end
  end.

(** ** Closed forms of the loops

    What the loops of the program compute, as expressions of their
    inputs.  None of them is part of the model: the properties below
    relate each one to the loop it stands for. *)

(** The token parses to an index inside the table. *)
Definition in_range (count : Z) (bit : string) : Prop := 0 <= atoi bit < count.

(** The mask [1 << index], as [unsigned long]. *)
Definition mask (index : Z) : Z := C.to_ulong (C.int_shl 1 index).

(** [bitsFound] tracks the set of indexes seen so far. *)
Definition tracks (seen : list Z) (bitsFound : Z) : Prop :=
  forall k, 0 <= k < 32 ->
    negb (Z.land bitsFound (mask k) =? 0) = bool_decide (k ∈ seen).

(** The table the token loop leaves: the position starts at [pos], each
    index is written into [dest[pos - 1]] while the position is positive,
    and the position drops by one. *)
Fixpoint fill (idxs : list Z) (dest : list Z) (pos : Z) : list Z :=
  match idxs with
  | [] => dest
  | x :: idxs' =>
      fill idxs' (if 0 <? pos then <[Z.to_nat (pos - 1) := x]> dest else dest)
           (pos - 1)
  end.

(** The events of the token loop on tokens in range, given the indexes
    seen before: a store while the position is positive, a warning for an
    index seen before. *)
Fixpoint loop_trace (type : string) (idxs : list Z) (pos : Z) (seen : list Z)
    : list event :=
  match idxs with
  | [] => []
  | x :: idxs' =>
      (if 0 <? pos then [Store (pos - 1) x] else []) ++
      (if bool_decide (x ∈ seen) then [WarnDuplicate type x] else []) ++
      loop_trace type idxs' (pos - 1) (x :: seen)
  end.

(** The slots a trace stores to, in order. *)
Definition stored_slots (t : list event) : list Z :=
  omap (fun e => match e with Store slot _ => Some slot | _ => None end) t.

(** What one turn of the loop of swizzleWord ors into [out]. *)
Definition contribution (word : Z) (bits : list Z) (i : Z) : Z :=
  let b := bits !!! Z.to_nat i in
  let sel := Z.land word (mask b) in
  if i <=? b then Z.shiftr sel (b - i) else C.to_ulong (Z.shiftl sel (i - b)).

(** The first [count] entries of a table are bit indexes below [count]. *)
Definition entries_in_range (table : list Z) (count : Z) : Prop :=
  forall i, 0 <= i < count -> 0 <= table !!! Z.to_nat i < count.

(** The values of an [unsigned char]. *)
Definition is_byte (c : Z) : Prop := 0 <= c < 2 ^ 8.

(** The value [read_word] assembles at [pos] and the byte [write_word]
    stores at offset [j] of its word, as expressions of the buffer. *)
Definition byte_shift (opts : swizzle_t) (i : Z) : Z :=
  if bigEndian opts then 8 * (bytesPerWord opts - i - 1) else 8 * i.

Definition word_at (opts : swizzle_t) (inData : list Z) (pos : Z) : Z :=
  foldl (fun data i =>
           Z.lor data (C.to_ulong (C.int_shl (inData !!! Z.to_nat (pos + i))
                                             (byte_shift opts i))))
        0 (seqZ 0 (bytesPerWord opts)).

Definition byte_out (opts : swizzle_t) (data : Z) (j : Z) : Z :=
  C.to_uchar (C.ulong_shr data (byte_shift opts j)).

(** The bytes of the word at [pos] of a buffer. *)
Definition word_bytes (opts : swizzle_t) (buf : list Z) (pos : Z) : list Z :=
  (fun i => buf !!! Z.to_nat (pos + i)) <$> seqZ 0 (bytesPerWord opts).

(** Where one turn of the main loop writes its word. *)
Definition out_addr (opts : swizzle_t) (addrTab : list Z) (numAddrBits : Z)
    (pos : Z) : Z :=
  if bool_decide (is_Some (addrBits opts))
  then C.to_long (C.to_ulong
         (bytesPerWord opts
          * swizzleWord (pos `quot` bytesPerWord opts) addrTab numAddrBits))
  else pos.

(** The data permutation of one run, applied to a word value. *)
Definition permute_data (opts : swizzle_t) (dataTab : list Z) (numDataBits : Z)
    (data : Z) : Z :=
  if bool_decide (is_Some (dataBits opts))
  then swizzleWord data dataTab numDataBits
  else data.

(** The input buffer of a run: the bytes of the file, then zeros up to
    the working size. *)
Definition input_buffer (file : list Byte.byte) (inSize : Z) : list Z :=
  (byte_val <$> file) ++ replicate (Z.to_nat inSize - length file) 0.

(** ** Notions of the specification

    Written from the words of the specification, on unbounded integers;
    the properties compare the program with them. *)

(** The bit gather of section 4.2: for destination bit [i] the source bit
    is [table[i]]; the bit is extracted from the input and shifted right
    by [table[i] - i] when [table[i] >= i], left by [i - table[i]]
    otherwise, and the contributions are or-ed. *)
Definition gather (word : Z) (table : list Z) (count : Z) : Z :=
  foldl (fun out i =>
           let b := table !!! Z.to_nat i in
           Z.lor out (if i <=? b
                      then Z.shiftr (Z.land word (2 ^ b)) (b - i)
                      else Z.shiftl (Z.land word (2 ^ b)) (i - b)))
        0 (seqZ 0 count).

(** A table that maps [0 .. count-1] onto itself, and a table that sends
    every [table[i]] back to [i]. *)
Definition is_permutation (table : list Z) (count : Z) : bool :=
  forallb (fun i => (0 <=? table !!! Z.to_nat i) && (table !!! Z.to_nat i <? count))
          (seqZ 0 count)
  && forallb (fun j => existsb (fun i => table !!! Z.to_nat i =? j) (seqZ 0 count))
             (seqZ 0 count).

Definition is_inverse (table inv : list Z) (count : Z) : bool :=
  forallb (fun i => inv !!! Z.to_nat (table !!! Z.to_nat i) =? i) (seqZ 0 count).

(** The value of a word (section 4.3, step 9b) and its bytes (step 9d);
    big-endian order puts the most significant byte first. *)
Definition assemble (big : bool) (bytes : list Z) : Z :=
  little_endian_to_Z 8 (if big then reverse bytes else bytes).

Definition disassemble (big : bool) (bpw : Z) (v : Z) : list Z :=
  if big
  then reverse (Z_to_little_endian bpw 8 v)
  else Z_to_little_endian bpw 8 v.

(** The next multiple of [bpw] from [n] on. *)
Definition padded (n bpw : Z) : Z := bpw * ((n + bpw - 1) / bpw).

(** [n] is a power of two: positive and equal to 2 to its binary
    logarithm. *)
Definition is_pow2 (n : Z) : bool := (0 <? n) && (n =? 2 ^ Z.log2 n).

(** The byte with the bits of [c] in reverse order: bit [i] of the result
    is bit [7 - i] of [c]. *)
Definition reverse_bits8 (c : Z) : Z :=
  foldl (fun acc i => if Z.testbit c (7 - i) then Z.setbit acc i else acc)
        0 (seqZ 0 8).

(** The data spec of the usage text and the table it stands for. *)
Definition reversal_spec : string := "0,1,2,3,4,5,6,7".
Definition reversal_table : list Z := [7; 6; 5; 4; 3; 2; 1; 0] ++ replicate 24 0.

(** ** Closed forms of a run *)

(** The table of one axis: parsed from its spec when there is one, the
    zeroed [int[32]] otherwise. *)
Definition parse_table (spec : option string) (count : Z) (type : string)
    : run (list Z) :=
  match spec with
  | Some bits => parseBits bits (replicate 32 0) count type
  | None => ret (replicate 32 0)
  end.

(** The size after the padding to a power of two, and the working size
    of a run with words of 1, 2 or 4 bytes, as expressions of the file
    size. *)
Definition pow2_ceil (n : Z) : Z :=
  if (0 <? n) && negb (is_pow2 n) then 2 ^ (Z.log2 n + 1) else n.

Definition size_of_run (opts : swizzle_t) (n : Z) : Z :=
  padded (if bool_decide (is_Some (addrBits opts)) then pow2_ceil n else n)
         (bytesPerWord opts).

(** The index of the output word that receives input word [k]. *)
Definition dest_word (opts : swizzle_t) (addrTab : list Z) (numAddrBits : Z)
    (k : Z) : Z :=
  if bool_decide (is_Some (addrBits opts)) then gather k addrTab numAddrBits else k.

(** The word sizes for which [~(bytesPerWord - 1)] is an alignment mask. *)
Definition word_size_pow2 (opts : swizzle_t) : Prop :=
  bytesPerWord opts = 1 \/ bytesPerWord opts = 2 \/ bytesPerWord opts = 4.

(** The file that [fwrite] leaves, as a later run reads it. *)
Definition output_file (out : list Z) : list Byte.byte :=
  (fun c => default Byte.x00 (Byte.of_N (Z.to_N c))) <$> out.

(** The argument of the last call of [getopt_long] that returned [opt]. *)
Definition last_arg (opt : ascii) (calls : list (ascii * string)) : option string :=
  last (snd <$> filter (fun c => Ascii.eqb c.1 opt = true) calls).

(** The options that accepted calls leave, from the options [opts0]
    before them and from the settings of main: for -a, -d and -w the last
    occurrence counts, -b counts wherever it stands. *)
Definition options_from (opts0 : swizzle_t) (calls : list (ascii * string))
    : swizzle_t :=
  {| addrBits := from_option Some (addrBits opts0) (last_arg "a" calls);
     dataBits := from_option Some (dataBits opts0) (last_arg "d" calls);
     bytesPerWord := from_option atoi (bytesPerWord opts0) (last_arg "w" calls);
     bigEndian := bigEndian opts0 || existsb (fun c => Ascii.eqb c.1 "b") calls |}.

Definition options_of (calls : list (ascii * string)) : swizzle_t :=
  {| addrBits := last_arg "a" calls;
     dataBits := last_arg "d" calls;
     bytesPerWord := from_option atoi 1 (last_arg "w" calls);
     bigEndian := existsb (fun c => Ascii.eqb c.1 "b") calls |}.

(** The calls that end main: -h or an option without its argument, and a
    -w outside 1..4.  Every other call is accepted. *)
Definition asks_usage (c : ascii * string) : Prop :=
  c.1 = ":"%char \/ c.1 = "h"%char.

Definition bad_word_size (c : ascii * string) : Prop :=
  c.1 = "w"%char /\ ~ 1 <= atoi c.2 <= 4.

Definition accepted (c : ascii * string) : Prop :=
  ~ asks_usage c /\ ~ bad_word_size c.

(** ** Operations on tables *)

(** The table that stands for swizzling with [first] and then with
    [second], and the table that leaves every bit in its place. *)
Definition compose_tables (first second : list Z) (count : Z) : list Z :=
  (fun i => first !!! Z.to_nat (second !!! Z.to_nat i)) <$> seqZ 0 count.

Definition identity_table (count : Z) : list Z := seqZ 0 count.

(** * Properties *)

(** ** Runs *)

Lemma bind_ret {A B} (a : A) (f : A -> run B) : bind (ret a) f = f a.
Proof. unfold bind, ret. simpl. by destruct (f a). Qed.

Lemma bind_emit {B} (e : event) (f : unit -> run B) :
  bind (emit e) f = (e :: trace (f tt), result (f tt)).
Proof. reflexivity. Qed.

Lemma bind_assoc {A B D} (m : run A) (f : A -> run B) (g : B -> run D) :
  bind (bind m f) g = bind m (fun a => bind (f a) g).
Proof.
  destruct m as [t [a| |]]; simpl; try reflexivity.
  destruct (f a) as [t' [b| |]]; simpl; try reflexivity.
  by rewrite app_assoc.
Qed.

Lemma store_inside (a : list Z) (i v : Z) :
  0 <= i < Z.of_nat (length a) -> store a i v = ret (<[Z.to_nat i := v]> a).
Proof.
  intros H. unfold store.
  destruct (Z.leb_spec 0 i), (Z.ltb_spec i (Z.of_nat (length a))); simpl; (reflexivity || lia).
Qed.

Lemma load_inside (a : list Z) (i : Z) :
  0 <= i < Z.of_nat (length a) -> load a i = ret (a !!! Z.to_nat i).
Proof.
  intros H. unfold load.
  destruct (Z.leb_spec 0 i), (Z.ltb_spec i (Z.of_nat (length a))); simpl; (reflexivity || lia).
Qed.

Lemma result_bind {A B} (m : run A) (f : A -> run B) :
  result (bind m f) =
  match result m with
  | Ret a => result (f a)
  | Exit e => Exit e
  | Fault => Fault
  end.
Proof. by destruct m as [t [a| |]]. Qed.

Lemma trace_bind {A B} (m : run A) (f : A -> run B) :
  trace (bind m f) =
  trace m ++ match result m with Ret a => trace (f a) | _ => [] end.
Proof. destruct m as [t [a| |]]; simpl; by rewrite ?app_nil_r. Qed.

Lemma result_when (c : bool) (m : run unit) :
  result (when c m) = if c then result m else Ret tt.
Proof. by destruct c. Qed.

Lemma trace_when (c : bool) (m : run unit) :
  trace (when c m) = if c then trace m else [].
Proof. by destruct c. Qed.

Ltac run_simpl :=
  repeat (rewrite ?trace_bind, ?result_bind, ?result_when, ?trace_when;
          cbn [emit ret error fault when result trace fst snd app]).

(** ** parseBits *)


Lemma in_range_test count bit :
  in_range count bit <-> (atoi bit <? 0) || (count <=? atoi bit) = false.
Proof. unfold in_range. rewrite orb_false_iff, Z.ltb_ge, Z.leb_gt. lia. Qed.

Section ParseBitsLoop.
Variable count : Z.
Variable type : string.

(** One turn of the loop on a token in range, as equations on the
    result and the trace. *)
Lemma loop_step_result bit toks dest pos bf :
  in_range count bit ->
  pos <= Z.of_nat (length dest) ->
  result (parseBits_loop (bit :: toks) dest count type pos bf) =
  result (parseBits_loop toks
            (if 0 <? pos then <[Z.to_nat (pos - 1) := atoi bit]> dest else dest)
            count type (pos - 1)
            (Z.lor bf (C.to_ulong (C.int_shl 1 (atoi bit))))).
Proof.
  intros Hr Hp. apply in_range_test in Hr.
  cbn [parseBits_loop]. rewrite Hr.
  destruct (Z.ltb_spec 0 pos); [rewrite bind_assoc, store_inside by lia|];
    destruct (negb _); run_simpl; reflexivity.
Qed.

Lemma loop_step_trace bit toks dest pos bf :
  in_range count bit ->
  pos <= Z.of_nat (length dest) ->
  trace (parseBits_loop (bit :: toks) dest count type pos bf) =
  (if 0 <? pos then [Store (pos - 1) (atoi bit)] else []) ++
  (if negb (Z.land bf (C.to_ulong (C.int_shl 1 (atoi bit))) =? 0)
   then [WarnDuplicate type (atoi bit)] else []) ++
  trace (parseBits_loop toks
            (if 0 <? pos then <[Z.to_nat (pos - 1) := atoi bit]> dest else dest)
            count type (pos - 1)
            (Z.lor bf (C.to_ulong (C.int_shl 1 (atoi bit))))).
Proof.
  intros Hr Hp. apply in_range_test in Hr.
  cbn [parseBits_loop]. rewrite Hr.
  destruct (Z.ltb_spec 0 pos); [rewrite bind_assoc, store_inside by lia|];
    destruct (negb _); run_simpl; reflexivity.
Qed.

(** A token out of range ends the run, after its store. *)
Lemma loop_step_invalid bit toks dest pos bf :
  ~ in_range count bit ->
  pos <= Z.of_nat (length dest) ->
  parseBits_loop (bit :: toks) dest count type pos bf =
  ((if 0 <? pos then [Store (pos - 1) (atoi bit)] else []),
   Exit (InvalidIndex type (atoi bit) (count - 1))).
Proof.
  intros Hr Hp. rewrite in_range_test in Hr. apply not_false_is_true in Hr.
  cbn [parseBits_loop]. rewrite Hr.
  destruct (Z.ltb_spec 0 pos).
  - rewrite bind_assoc, bind_emit. rewrite store_inside by lia.
    rewrite bind_ret. reflexivity.
  - rewrite bind_ret. reflexivity.
Qed.

Lemma loop_all_in_range toks : forall dest pos bf,
  Forall (in_range count) toks ->
  pos <= Z.of_nat (length dest) ->
  result (parseBits_loop toks dest count type pos bf) =
  Ret (fill (atoi <$> toks) dest pos, pos - Z.of_nat (length toks)).
Proof.
  induction toks as [|bit toks IH]; intros dest pos bf Hall Hp.
  - cbn. do 2 f_equal. lia.
  - inversion_clear Hall as [|? ? Hbit Htoks].
    rewrite loop_step_result by done.
    rewrite IH; [| done | destruct (0 <? pos); rewrite ?length_insert; lia].
    cbn [fmap list_fmap fill length]. do 2 f_equal. lia.
Qed.

Lemma loop_first_invalid pre bad post : forall dest pos bf,
  Forall (in_range count) pre ->
  ~ in_range count bad ->
  pos <= Z.of_nat (length dest) ->
  result (parseBits_loop (pre ++ bad :: post) dest count type pos bf) =
  Exit (InvalidIndex type (atoi bad) (count - 1)).
Proof.
  induction pre as [|bit pre IH]; intros dest pos bf Hall Hbad Hp.
  - cbn [app]. by rewrite loop_step_invalid.
  - inversion_clear Hall as [|? ? Hbit Hpre].
    cbn [app]. rewrite loop_step_result by done.
    apply IH; [done | done |].
    destruct (0 <? pos); rewrite ?length_insert; lia.
Qed.

(** Every store of the loop, whatever its end, is made below [pos] and
    not below [pos - length toks], and never at a negative slot. *)
Lemma loop_stores_bounded toks : forall dest pos bf slot v,
  Store slot v ∈ trace (parseBits_loop toks dest count type pos bf) ->
  Z.max 0 (pos - Z.of_nat (length toks)) <= slot <= pos - 1.
Proof.
  induction toks as [|bit toks IH]; intros dest pos bf slot v Hin.
  - cbn in Hin. by apply elem_of_nil in Hin.
  - cbn [parseBits_loop] in Hin. revert Hin. unfold store.
    destruct (Z.ltb_spec 0 pos);
      destruct ((0 <=? pos - 1) && (pos - 1 <? Z.of_nat (length dest)));
      destruct ((atoi bit <? 0) || (count <=? atoi bit));
      destruct (negb _); run_simpl;
      rewrite ?elem_of_cons, ?elem_of_nil; intros Hin;
      repeat match goal with
             | H : _ \/ _ |- _ => destruct H
             | H : Store _ _ = Store _ _ |- _ => injection H as -> ->
             | H : Store _ _ = WarnDuplicate _ _ |- _ => discriminate H
             | H : False |- _ => destruct H
             | H : Store _ _ ∈ trace _ |- _ => apply IH in H
             end; cbn [length]; lia.
Qed.

End ParseBitsLoop.

(** ** The masks [1 << index] *)


Lemma range32_forall (p : Z -> bool) :
  forallb p (seqZ 0 32) = true -> forall k, 0 <= k < 32 -> p k = true.
Proof.
  intros H k Hk. rewrite forallb_forall in H.
  apply H, list_elem_of_In, elem_of_seqZ. lia.
Qed.

(** Below 31 the mask is the single bit; at 31 the [int] is [INT_MIN] and
    its conversion to [unsigned long] sets bits 31 to 63. *)
Lemma mask_value k :
  0 <= k < 32 -> mask k = if k =? 31 then 2 ^ 64 - 2 ^ 31 else 2 ^ k.
Proof.
  intros Hk.
  apply Z.eqb_eq.
  apply (range32_forall (fun k => mask k =? (if k =? 31 then 2 ^ 64 - 2 ^ 31 else 2 ^ k)));
    [vm_compute; reflexivity | done].
Qed.

Lemma mask_land_mask i k :
  0 <= i < 32 -> 0 <= k < 32 ->
  (Z.land (mask i) (mask k) =? 0) = negb (i =? k).
Proof.
  intros Hi Hk.
  pose proof (range32_forall (fun i => forallb (fun k =>
    Bool.eqb (Z.land (mask i) (mask k) =? 0) (negb (i =? k))) (seqZ 0 32))) as H.
  cbv beta in H. specialize (H ltac:(vm_compute; reflexivity) i Hi).
  rewrite forallb_forall in H.
  apply Bool.eqb_prop, H, list_elem_of_In, elem_of_seqZ. lia.
Qed.


Lemma tracks_nil : tracks [] 0.
Proof. intros k Hk. rewrite Z.land_0_l. reflexivity. Qed.

Lemma tracks_cons seen bf x :
  0 <= x < 32 -> tracks seen bf -> tracks (x :: seen) (Z.lor bf (mask x)).
Proof.
  intros Hx Htr k Hk. specialize (Htr k Hk).
  rewrite Z.land_lor_distr_l.
  pose proof (mask_land_mask x k Hx Hk) as Hm.
  destruct (Z.eqb_spec x k) as [->|Hne]; cbn [negb] in Hm.
  - apply Z.eqb_neq in Hm.
    rewrite bool_decide_eq_true_2 by apply list_elem_of_here.
    apply negb_true_iff, Z.eqb_neq. rewrite Z.lor_eq_0_iff. tauto.
  - apply Z.eqb_eq in Hm. rewrite Hm, Z.lor_0_r, Htr.
    apply bool_decide_ext. rewrite elem_of_cons. intuition congruence.
Qed.

(** ** The loop on tokens in range, in closed form *)

Lemma loop_trace_eq count type toks : forall dest pos bf seen,
  Forall (in_range count) toks ->
  count <= 32 ->
  pos <= Z.of_nat (length dest) ->
  tracks seen bf ->
  trace (parseBits_loop toks dest count type pos bf) =
  loop_trace type (atoi <$> toks) pos seen.
Proof.
  induction toks as [|bit toks IH]; intros dest pos bf seen Hall Hc Hp Htr.
  - reflexivity.
  - inversion_clear Hall as [|? ? Hbit Htoks].
    rewrite loop_step_trace by done.
    cbn [fmap list_fmap loop_trace].
    assert (0 <= atoi bit < 32) as Hb by (unfold in_range in Hbit; lia).
    fold (mask (atoi bit)). rewrite (Htr _ Hb).
    f_equal. f_equal.
    apply IH; [done | done | | by apply tracks_cons].
    destruct (0 <? pos); rewrite ?length_insert; lia.
Qed.

(** The table left by the loop: token [k] is in slot [pos - 1 - k], the
    other slots keep what they held. *)
Lemma fill_length idxs : forall dest pos, length (fill idxs dest pos) = length dest.
Proof.
  induction idxs as [|x idxs IH]; intros dest pos; cbn [fill]; [done|].
  rewrite IH. destruct (0 <? pos); by rewrite ?length_insert.
Qed.

Lemma fill_lookup_other idxs : forall (dest : list Z) pos (i : nat),
  (Z.of_nat i < pos - Z.of_nat (length idxs) \/ pos <= Z.of_nat i) ->
  fill idxs dest pos !! i = dest !! i.
Proof.
  induction idxs as [|x idxs IH]; intros dest pos i Hi; cbn [fill]; [done|].
  cbn [length] in Hi. rewrite IH by lia.
  destruct (Z.ltb_spec 0 pos); [|done].
  apply list_lookup_insert_ne. lia.
Qed.

Lemma fill_lookup idxs : forall (dest : list Z) pos (k : nat) x,
  pos <= Z.of_nat (length dest) ->
  idxs !! k = Some x ->
  Z.of_nat k < pos ->
  fill idxs dest pos !! Z.to_nat (pos - 1 - Z.of_nat k) = Some x.
Proof.
  induction idxs as [|y idxs IH]; intros dest pos k x Hp Hk Hlt; [done|].
  cbn [fill]. destruct (Z.ltb_spec 0 pos); [|lia].
  destruct k as [|k]; cbn in Hk.
  - injection Hk as ->.
    rewrite fill_lookup_other by lia.
    replace (pos - 1 - Z.of_nat 0) with (pos - 1) by lia.
    apply list_lookup_insert_eq. lia.
  - replace (pos - 1 - Z.of_nat (S k)) with (pos - 1 - 1 - Z.of_nat k) by lia.
    apply IH; [rewrite length_insert; lia | done | lia].
Qed.

Lemma loop_trace_warns type idxs : forall pos seen (j : nat) x,
  idxs !! j = Some x ->
  x ∈ seen ∨ (exists i : nat, (i < j)%nat /\ idxs !! i = Some x) ->
  WarnDuplicate type x ∈ loop_trace type idxs pos seen.
Proof.
  induction idxs as [|y idxs IH]; intros pos seen j x Hj Hseen; [done|].
  cbn [loop_trace]. rewrite !elem_of_app.
  destruct j as [|j]; cbn in Hj.
  - injection Hj as ->. destruct Hseen as [Hs | (i & Hi & _)]; [|lia].
    right; left. rewrite bool_decide_eq_true_2 by done. apply list_elem_of_here.
  - right; right. apply (IH _ _ j); [done|].
    destruct Hseen as [Hs | (i & Hi & Hx)].
    + left. by apply list_elem_of_further.
    + destruct i as [|i]; cbn in Hx.
      * injection Hx as ->. left. apply list_elem_of_here.
      * right. exists i. split; [lia | done].
Qed.

(** ** parseBits as a whole *)

Lemma parseBits_result_in_range bits dest count type :
  count <= Z.of_nat (length dest) ->
  Forall (in_range count) (strtok bits comma) ->
  result (parseBits bits dest count type) =
  if Z.of_nat (length (strtok bits comma)) =? count
  then Ret (fill (atoi <$> strtok bits comma) dest count)
  else Exit (CountMismatch count type (Z.of_nat (length (strtok bits comma)))).
Proof.
  intros Hd Hall. unfold parseBits.
  rewrite result_bind, loop_all_in_range by done.
  run_simpl.
  destruct (Z.eqb_spec (Z.of_nat (length (strtok bits comma))) count) as [Heq|Hne].
  - rewrite (proj2 (Z.eqb_eq _ 0)) by lia. reflexivity.
  - rewrite (proj2 (Z.eqb_neq _ 0)) by lia. cbn. do 2 f_equal. lia.
Qed.

Lemma parseBits_trace bits dest count type :
  trace (parseBits bits dest count type) =
  trace (parseBits_loop (strtok bits comma) dest count type count 0).
Proof.
  unfold parseBits. rewrite trace_bind.
  destruct (result _) as [r| |]; rewrite ?app_nil_r; [|done..].
  run_simpl. destruct (negb _); cbn; by rewrite app_nil_r.
Qed.

Lemma parseBits_result_invalid bits dest count type pre bad post :
  count <= Z.of_nat (length dest) ->
  strtok bits comma = pre ++ bad :: post ->
  Forall (in_range count) pre ->
  ~ in_range count bad ->
  result (parseBits bits dest count type) =
  Exit (InvalidIndex type (atoi bad) (count - 1)).
Proof.
  intros Hd Htoks Hpre Hbad. unfold parseBits.
  by rewrite result_bind, Htoks, loop_first_invalid.
Qed.

Lemma first_invalid_split count (toks : list string) :
  Forall (in_range count) toks \/
  exists pre bad post,
    toks = pre ++ bad :: post /\ Forall (in_range count) pre /\ ~ in_range count bad.
Proof.
  induction toks as [|bit toks [IH | (pre & bad & post & -> & Hpre & Hbad)]].
  - left. constructor.
  - destruct (Z_le_dec 0 (atoi bit)) as [H0|H0];
      [destruct (Z_lt_dec (atoi bit) count) as [H1|H1]|].
    + left. constructor; [split|]; done.
    + right. exists [], bit, toks. unfold in_range. split_and!; [done | constructor | lia].
    + right. exists [], bit, toks. unfold in_range. split_and!; [done | constructor | lia].
  - destruct (Z_le_dec 0 (atoi bit)) as [H0|H0];
      [destruct (Z_lt_dec (atoi bit) count) as [H1|H1]|].
    + right. exists (bit :: pre), bad, post.
      split_and!; [done | constructor; [split|]; done | done].
    + right. exists [], bit, (pre ++ bad :: post).
      unfold in_range. split_and!; [done | constructor | lia].
    + right. exists [], bit, (pre ++ bad :: post).
      unfold in_range. split_and!; [done | constructor | lia].
Qed.

(** A table returned by parseBits has its first [count] entries in
    range: it can be handed to swizzleWord. *)
Lemma parseBits_table_in_range bits dest count type table :
  count <= Z.of_nat (length dest) ->
  result (parseBits bits dest count type) = Ret table ->
  entries_in_range table count.
Proof.
  intros Hd Hres.
  destruct (first_invalid_split count (strtok bits comma))
    as [Hall | (pre & bad & post & Htoks & Hpre & Hbad)].
  - rewrite parseBits_result_in_range in Hres by done.
    destruct (Z.eqb_spec (Z.of_nat (length (strtok bits comma))) count) as [Hlen|];
      [|done].
    injection Hres as <-. intros i Hi.
    destruct (lookup_lt_is_Some_2 (strtok bits comma) (Z.to_nat (count - 1 - i)))
      as [bit Hbit]; [lia|].
    pose proof (fill_lookup (atoi <$> strtok bits comma) dest count
                  (Z.to_nat (count - 1 - i)) (atoi bit) Hd) as Hfill.
    rewrite list_lookup_fmap, Hbit in Hfill.
    specialize (Hfill eq_refl ltac:(lia)).
    replace (count - 1 - Z.of_nat (Z.to_nat (count - 1 - i))) with i in Hfill by lia.
    rewrite (list_lookup_total_correct _ _ _ Hfill).
    rewrite Forall_forall in Hall. apply Hall.
    by apply list_elem_of_lookup_2 in Hbit.
  - by rewrite (parseBits_result_invalid _ _ _ _ pre bad post) in Hres.
Qed.

(** C5, as the code has it.  The range check sits inside the token loop
    and the count check after it: the spec "8,0,1,2,3,4,5,6,7" for eight
    address bits is rejected at its first token, index 8 against the
    range 0..7, before the tokens are counted.  Nine tokens that are all
    in range, such as "7,0,1,2,3,4,5,6,7", are rejected by the count check
    with the expected count 8 and the 9 tokens found. *)
Theorem parseBits_nine_tokens :
  result (parseBits "8,0,1,2,3,4,5,6,7" (replicate 32 0) 8 "address")
    = Exit (InvalidIndex "address" 8 7) /\
  result (parseBits "7,0,1,2,3,4,5,6,7" (replicate 32 0) 8 "address")
    = Exit (CountMismatch 8 "address" 9).
Proof. split; vm_compute; reflexivity. Qed.

(** C5 as stated fails: on "8,0,1,2,3,4,5,6,7" with eight expected bits the
    run does not end in the token-count error, whatever count it would
    report. *)
Lemma parseBits_nine_tokens_not_count_mismatch :
  ~ exists count found : Z,
      result (parseBits "8,0,1,2,3,4,5,6,7" (replicate 32 0) 8 "address")
      = Exit (CountMismatch count "address" found).
Proof. intros (count & found & H). vm_compute in H. discriminate H. Qed.

(** Tokens in range whose number is not the expected one: the count error,
    with the expected count and the number of tokens found. *)
Lemma parseBits_count_mismatch bits dest count type :
  count <= Z.of_nat (length dest) ->
  Forall (in_range count) (strtok bits comma) ->
  Z.of_nat (length (strtok bits comma)) <> count ->
  result (parseBits bits dest count type) =
  Exit (CountMismatch count type (Z.of_nat (length (strtok bits comma)))).
Proof.
  intros Hd Hall Hne. rewrite parseBits_result_in_range by done.
  by rewrite (proj2 (Z.eqb_neq _ _) Hne).
Qed.

(** C6.  For a table of at least [count] slots, parseBits ends in the
    invalid-index error exactly when some token parses to an index below 0
    or not below [count].  The error then carries the axis label, the
    index of the first such token and [count - 1] as the upper end of the
    valid range; tokens in range never raise it. *)
Theorem parseBits_invalid_index (bits : string) (dest : list Z) (count : Z)
    (type : string) :
  count <= Z.of_nat (length dest) ->
  ((exists ty idx hi,
      result (parseBits bits dest count type) = Exit (InvalidIndex ty idx hi))
   <-> Exists (fun bit => atoi bit < 0 \/ count <= atoi bit) (strtok bits comma))
  /\
  (forall ty idx hi,
      result (parseBits bits dest count type) = Exit (InvalidIndex ty idx hi) ->
      ty = type /\ hi = count - 1 /\ (idx < 0 \/ count <= idx) /\
      exists pre bit post,
        strtok bits comma = pre ++ bit :: post /\ atoi bit = idx /\
        Forall (fun b => 0 <= atoi b < count) pre).
Proof.
  intros Hd.
  destruct (first_invalid_split count (strtok bits comma))
    as [Hall | (pre & bad & post & Htoks & Hpre & Hbad)].
  - rewrite parseBits_result_in_range by done.
    split.
    + split.
      * intros (ty & idx & hi & H). by destruct (_ =? _).
      * intros Hex. apply Exists_exists in Hex as (bit & Hin & Hbit).
        rewrite Forall_forall in Hall. specialize (Hall bit Hin).
        unfold in_range in Hall. lia.
    + intros ty idx hi H. by destruct (_ =? _).
  - rewrite (parseBits_result_invalid _ _ _ _ pre bad post) by done.
    split.
    + split; [|by eauto].
      intros _. rewrite Htoks. apply Exists_app. right. apply Exists_cons_hd.
      unfold in_range in Hbad. lia.
    + intros ty idx hi [= <- <- <-].
      split_and!; [done | done | unfold in_range in Hbad; lia |].
      by exists pre, bad, post.
Qed.

(** Obligations on the tokens of a given spec string. *)
Ltac compute_tokens :=
  repeat match goal with
         | |- context [strtok ?s ?c] =>
             let t := eval vm_compute in (strtok s c) in
             change (strtok s c) with t
         end.

Ltac tokens_in_range :=
  compute_tokens;
  repeat (constructor; [vm_compute; split; [discriminate | reflexivity]|]);
  constructor.

Lemma parseBits_invalid_index_witness :
  32 <= Z.of_nat (length (replicate 32 0)) /\
  result (parseBits "0,1,2,32" (replicate 32 0) 32 "address")
  = Exit (InvalidIndex "address" 32 31).
Proof.
  split; [vm_compute; discriminate|].
  pose proof (parseBits_invalid_index "0,1,2,32" (replicate 32 0) 32 "address"
                ltac:(vm_compute; discriminate)) as [[_ Hex] Hrep].
  destruct Hex as (ty & idx & hi & Hr).
  { compute_tokens. do 3 apply Exists_cons_tl. apply Exists_cons_hd. right.
    vm_compute. discriminate. }
  destruct (Hrep ty idx hi Hr) as (-> & -> & _ & _).
  rewrite Hr. vm_compute in Hr. injection Hr as <-. reflexivity.
Defined.

Lemma loop_trace_warns_inv type idxs : forall pos seen ty x,
  WarnDuplicate ty x ∈ loop_trace type idxs pos seen ->
  ty = type /\
  exists j : nat, idxs !! j = Some x /\
    (x ∈ seen \/ exists i : nat, (i < j)%nat /\ idxs !! i = Some x).
Proof.
  induction idxs as [|y idxs IH]; intros pos seen ty x Hin.
  - by apply elem_of_nil in Hin.
  - cbn [loop_trace] in Hin. rewrite !elem_of_app in Hin.
    destruct Hin as [Hin | [Hin | Hin]].
    + destruct (0 <? pos); [apply list_elem_of_singleton in Hin|apply elem_of_nil in Hin]; done.
    + destruct (bool_decide_reflect (y ∈ seen)) as [Hy|Hy];
        [apply list_elem_of_singleton in Hin | by apply elem_of_nil in Hin].
      injection Hin as -> ->. split; [done|]. exists 0%nat. split; [done | by left].
    + apply IH in Hin as (-> & j & Hj & Hseen). split; [done|].
      exists (S j). split; [done|].
      destruct Hseen as [Hs | (i & Hi & Hx)].
      * apply elem_of_cons in Hs as [-> | Hs]; [|by left].
        right. exists 0%nat. split; [lia | done].
      * right. exists (S i). split; [lia | done].
Qed.

(** C7.  In a spec of exactly [count] tokens (at most 32, the width of
    the tables) whose indexes are all in range, an index that occurs in
    two tokens draws the duplicate warning, and the run still returns the
    whole table: token [k] sits in slot [count - 1 - k], the table keeps
    its length and its slots from [count] on.  The warning is printed for
    an index exactly when an earlier token carried it, which is what the
    bitmask [bitsFound] records. *)
Theorem parseBits_duplicate_warning (bits : string) (dest : list Z)
    (count : Z) (type : string) (i j : nat) (idx : Z) :
  count <= 32 ->
  count <= Z.of_nat (length dest) ->
  Z.of_nat (length (strtok bits comma)) = count ->
  Forall (fun bit => 0 <= atoi bit < count) (strtok bits comma) ->
  (i < j)%nat ->
  atoi <$> (strtok bits comma !! i) = Some idx ->
  atoi <$> (strtok bits comma !! j) = Some idx ->
  WarnDuplicate type idx ∈ trace (parseBits bits dest count type) /\
  (forall ty x, WarnDuplicate ty x ∈ trace (parseBits bits dest count type) ->
     ty = type /\
     exists i' j' : nat, (i' < j')%nat /\
       atoi <$> (strtok bits comma !! i') = Some x /\
       atoi <$> (strtok bits comma !! j') = Some x) /\
  exists table,
    result (parseBits bits dest count type) = Ret table /\
    length table = length dest /\
    (forall (k : nat) bit,
       strtok bits comma !! k = Some bit ->
       table !! Z.to_nat (count - 1 - Z.of_nat k) = Some (atoi bit)) /\
    (forall n : nat, count <= Z.of_nat n -> table !! n = dest !! n).
Proof.
  intros Hc Hd Hlen Hall Hij Hi Hj.
  rewrite parseBits_trace, (loop_trace_eq _ _ _ _ _ _ []),
    parseBits_result_in_range by (done || apply tracks_nil).
  rewrite <- !list_lookup_fmap in *.
  split_and!.
  - apply (loop_trace_warns _ _ _ _ j); [done|]. right. by exists i.
  - intros ty x Hin.
    apply loop_trace_warns_inv in Hin as (-> & j' & Hj' & [Hs | (i' & Hi' & Hx)]);
      [by apply elem_of_nil in Hs|].
    split; [done|]. exists i', j'. rewrite <- !list_lookup_fmap. done.
  - rewrite (proj2 (Z.eqb_eq _ _) Hlen). eexists. split_and!; [done | ..].
    + apply fill_length.
    + intros k bit Hk. apply fill_lookup; [done | by rewrite list_lookup_fmap, Hk |].
      apply lookup_lt_Some in Hk. lia.
    + intros n Hn. apply fill_lookup_other. lia.
Qed.

Lemma parseBits_duplicate_warning_witness :
  WarnDuplicate "data" 5 ∈
    trace (parseBits "7,5,5,4,3,2,1,0" (replicate 32 0) 8 "data") /\
  result (parseBits "7,5,5,4,3,2,1,0" (replicate 32 0) 8 "data") =
    Ret ([0; 1; 2; 3; 4; 5; 5; 7] ++ replicate 24 0).
Proof.
  destruct (parseBits_duplicate_warning "7,5,5,4,3,2,1,0" (replicate 32 0) 8
              "data" 1 2 5
              ltac:(lia) ltac:(vm_compute; discriminate) ltac:(reflexivity)
              ltac:(tokens_in_range) ltac:(lia)
              ltac:(reflexivity) ltac:(reflexivity)) as (Hw & _ & _).
  split; [exact Hw | vm_compute; reflexivity].
Defined.

Lemma stored_slots_step (pos x : Z) (w rest : list event) (n : nat) :
  stored_slots w = [] ->
  stored_slots rest = (fun k => pos - 1 - 1 - k) <$> seqZ 0 (Z.min (pos - 1) (Z.of_nat n)) ->
  stored_slots ((if 0 <? pos then [Store (pos - 1) x] else []) ++ w ++ rest) =
  (fun k => pos - 1 - k) <$> seqZ 0 (Z.min pos (Z.of_nat (S n))).
Proof.
  unfold stored_slots. intros Hw Hrest. rewrite !omap_app, Hw, Hrest. cbn [app].
  destruct (Z.ltb_spec 0 pos).
  - rewrite (seqZ_cons 0 (Z.min pos _)) by lia.
    cbn [omap list_omap fmap list_fmap app]. f_equal; [lia|].
    replace (Z.pred (Z.min pos (Z.of_nat (S n))))
      with (Z.min (pos - 1) (Z.of_nat n)) by lia.
    rewrite <- (fmap_add_seqZ 1 0), <- list_fmap_compose.
    apply list_fmap_ext. intros _ k _. cbn. lia.
  - rewrite !seqZ_nil by lia. reflexivity.
Qed.

Lemma stored_slots_loop count type toks : forall dest pos bf,
  Forall (in_range count) toks ->
  pos <= Z.of_nat (length dest) ->
  stored_slots (trace (parseBits_loop toks dest count type pos bf)) =
  (fun k => pos - 1 - k) <$> seqZ 0 (Z.min pos (Z.of_nat (length toks))).
Proof.
  induction toks as [|bit toks IH]; intros dest pos bf Hall Hp.
  - cbn [parseBits_loop length]. rewrite seqZ_nil by lia. reflexivity.
  - inversion_clear Hall as [|? ? Hbit Htoks].
    rewrite loop_step_trace by done. cbn [length].
    apply stored_slots_step; [by destruct (negb _)|].
    apply IH; [done|]. destruct (0 <? pos); rewrite ?length_insert; lia.
Qed.

(** C10.  Whatever the spec string, the table and the expected count,
    every store of parseBits goes to a slot between
    [max 0 (count - number of tokens)] and [count - 1], hence inside
    [dest[0 .. count-1]]: the stores of the tokens beyond the [count]-th
    are skipped.  When the tokens are all in range the slots stored to
    are, in this order, [count - 1] down to that lower end, one per
    token. *)
Theorem parseBits_stores_inside (bits : string) (dest : list Z) (count : Z)
    (type : string) :
  (forall slot v,
     Store slot v ∈ trace (parseBits bits dest count type) ->
     Z.max 0 (count - Z.of_nat (length (strtok bits comma))) <= slot <= count - 1)
  /\
  (count <= Z.of_nat (length dest) ->
   Forall (fun bit => 0 <= atoi bit < count) (strtok bits comma) ->
   stored_slots (trace (parseBits bits dest count type)) =
   (fun k => count - 1 - k) <$>
     seqZ 0 (Z.min count (Z.of_nat (length (strtok bits comma))))).
Proof.
  split.
  - intros slot v. rewrite parseBits_trace. apply loop_stores_bounded.
  - intros Hd Hall. rewrite parseBits_trace. by apply stored_slots_loop.
Qed.

Lemma parseBits_stores_inside_witness :
  stored_slots (trace (parseBits "3,2,1,0,3,2" (replicate 32 0) 4 "data"))
  = [3; 2; 1; 0].
Proof.
  destruct (parseBits_stores_inside "3,2,1,0,3,2" (replicate 32 0) 4 "data")
    as [_ H].
  rewrite H; [reflexivity | vm_compute; discriminate | tokens_in_range].
Defined.

(** ** Machine integers *)

Lemma to_ulong_range x : 0 <= C.to_ulong x < 2 ^ 64.
Proof. unfold C.to_ulong. apply Z.mod_pos_bound. lia. Qed.

Lemma to_ulong_small x : 0 <= x < 2 ^ 64 -> C.to_ulong x = x.
Proof. apply Z.mod_small. Qed.

Lemma to_ulong_to_long x : C.to_ulong (C.to_long x) = C.to_ulong x.
Proof.
  unfold C.to_ulong, C.to_long.
  rewrite Zminus_mod_idemp_l. f_equal. lia.
Qed.

Lemma to_long_small x : - 2 ^ 63 <= x < 2 ^ 63 -> C.to_long x = x.
Proof. intros H. unfold C.to_long. rewrite Z.mod_small; lia. Qed.

Lemma lor_range n a b :
  0 <= n -> 0 <= a < 2 ^ n -> 0 <= b < 2 ^ n -> 0 <= Z.lor a b < 2 ^ n.
Proof.
  intros Hn Ha Hb.
  assert (Z.lor a b mod 2 ^ n = Z.lor a b) as <-; [|apply Z.mod_pos_bound; lia].
  rewrite <- !Z.land_ones, Z.land_lor_distr_l, !Z.land_ones by done.
  by rewrite !Z.mod_small.
Qed.

Lemma land_range n a b :
  0 <= n -> 0 <= b < 2 ^ n -> 0 <= Z.land a b < 2 ^ n.
Proof.
  intros Hn Hb.
  assert (Z.land a b mod 2 ^ n = Z.land a b) as <-; [|apply Z.mod_pos_bound; lia].
  rewrite <- Z.land_ones, <- Z.land_assoc, Z.land_ones by done.
  by rewrite (Z.mod_small b).
Qed.

Lemma shiftr_range n a k :
  0 <= k -> 0 <= a < 2 ^ n -> 0 <= Z.shiftr a k < 2 ^ n.
Proof.
  intros Hk Ha. rewrite Z.shiftr_div_pow2 by done.
  assert (0 < 2 ^ k) by (apply Z.pow_pos_nonneg; lia).
  split; [apply Z.div_pos; lia|].
  apply Z.div_lt_upper_bound; [done|]. nia.
Qed.

(** ** swizzleWord *)


Lemma contribution_range word bits i : 0 <= contribution word bits i < 2 ^ 64.
Proof.
  unfold contribution. cbv zeta.
  destruct (Z.leb_spec i (bits !!! Z.to_nat i)); [|apply to_ulong_range].
  apply shiftr_range; [lia|]. apply land_range; [lia|]. apply to_ulong_range.
Qed.

(** The [long] accumulator carries the [unsigned long] or of the
    contributions. *)
Lemma swizzleWord_unsigned word bits count :
  swizzleWord word bits count =
  foldl (fun u i => Z.lor u (contribution word bits i)) 0 (seqZ 0 count).
Proof.
  unfold swizzleWord.
  assert (forall l a u, C.to_ulong a = u ->
    C.to_ulong (foldl (fun out i =>
        let b := bits !!! Z.to_nat i in
        let sel := Z.land word (C.to_ulong (C.int_shl 1 b)) in
        if i <=? b
        then C.to_long (Z.lor (C.to_ulong out) (C.ulong_shr sel (b - i)))
        else C.to_long (Z.lor (C.to_ulong out) (C.ulong_shl sel (i - b)))) a l)
    = foldl (fun u i => Z.lor u (contribution word bits i)) u l) as H.
  { induction l as [|i l IH]; intros a u Hu; [done|].
    cbn [foldl]. apply IH.
    pose proof (contribution_range word bits i) as Hc.
    pose proof (to_ulong_range a) as Ha.
    unfold contribution, mask, C.ulong_shr, C.ulong_shl in *. cbv zeta in *.
    destruct (i <=? bits !!! Z.to_nat i);
      rewrite to_ulong_to_long, to_ulong_small, Hu; (done || (apply lor_range; [lia | done | done])). }
  by apply H.
Qed.

Lemma testbit_high n a k : 0 <= a < 2 ^ n -> n <= k -> Z.testbit a k = false.
Proof.
  intros Ha Hk. destruct (Z.ltb_spec n 0).
  - rewrite Z.pow_neg_r in Ha; lia.
  - rewrite <- (Z.mod_small a (2 ^ n)) by done. apply Z.mod_pow2_bits_high. lia.
Qed.

Lemma below_pow2_of_bits n a :
  0 <= n -> 0 <= a ->
  (forall k, n <= k -> Z.testbit a k = false) -> a < 2 ^ n.
Proof.
  intros Hn Ha Hbits.
  assert (a mod 2 ^ n = a) as <-; [|apply Z.mod_pos_bound; lia].
  apply Z.bits_inj'. intros k Hk. rewrite Z.testbit_mod_pow2 by done.
  destruct (Z.ltb_spec k n); [done|]. by rewrite Hbits.
Qed.

(** On a word of at most 32 bits, or for an index below 31, the mask
    selects the single bit [b]. *)
Lemma sel_single_bit word b :
  0 <= word < 2 ^ 64 -> 0 <= b < 32 -> word < 2 ^ 32 \/ b < 31 ->
  Z.land word (mask b) = Z.land word (2 ^ b).
Proof.
  intros Hw Hb Hor. rewrite mask_value by done.
  destruct (Z.eqb_spec b 31) as [->|Hne]; [|done].
  destruct Hor as [Hw32|]; [|lia].
  change (2 ^ 64 - 2 ^ 31) with (Z.shiftl (Z.ones 33) 31).
  apply Z.bits_inj'. intros k Hk.
  rewrite !Z.land_spec, Z.shiftl_spec, Z.pow2_bits_eqb by lia.
  destruct (Z.ltb_spec k 31); [|destruct (Z.eqb_spec 31 k) as [<-|]].
  - rewrite (Z.testbit_neg_r (Z.ones 33)) by lia.
    by rewrite (proj2 (Z.eqb_neq 31 k)) by lia.
  - reflexivity.
  - rewrite (testbit_high 32 word k) by lia. reflexivity.
Qed.

Lemma gather_step_bits word b i k :
  0 <= i -> 0 <= k ->
  Z.testbit (if i <=? b
             then Z.shiftr (Z.land word (2 ^ b)) (b - i)
             else Z.shiftl (Z.land word (2 ^ b)) (i - b)) k
  = Z.testbit word b && (k =? i).
Proof.
  intros Hi Hk. destruct (Z.leb_spec i b).
  - rewrite Z.shiftr_spec, Z.land_spec, Z.pow2_bits_eqb by lia.
    destruct (Z.eqb_spec k i) as [->|Hne].
    + replace (i + (b - i)) with b by lia. by rewrite Z.eqb_refl.
    + rewrite (proj2 (Z.eqb_neq b _)) by lia. by rewrite !andb_false_r.
  - rewrite Z.shiftl_spec, Z.land_spec by lia.
    destruct (Z.ltb_spec b 0).
    + rewrite (Z.pow_neg_r 2 b), Z.bits_0, (Z.testbit_neg_r word b) by lia.
      by rewrite andb_false_r.
    + rewrite Z.pow2_bits_eqb by lia.
      destruct (Z.eqb_spec k i) as [->|Hne].
      * replace (i - (i - b)) with b by lia. by rewrite Z.eqb_refl.
      * rewrite (proj2 (Z.eqb_neq b _)) by lia. by rewrite !andb_false_r.
Qed.

(** Bit [k] of the gather is bit [table[k]] of the input below [count],
    and clear from [count] on. *)
Lemma gather_bits word table count k :
  0 <= k ->
  Z.testbit (gather word table count) k
  = (k <? count) && Z.testbit word (table !!! Z.to_nat k).
Proof.
  intros Hk. unfold gather.
  assert (seqZ 0 count = seqZ 0 (Z.of_nat (Z.to_nat count))) as ->
    by (unfold seqZ; by rewrite Nat2Z.id).
  assert ((k <? count) = (k <? Z.of_nat (Z.to_nat count))) as ->.
  { destruct (Z.ltb_spec k count), (Z.ltb_spec k (Z.of_nat (Z.to_nat count))); (done || lia). }
  induction (Z.to_nat count) as [|n IH].
  - rewrite seqZ_nil by lia. cbn [foldl]. rewrite Z.bits_0.
    by rewrite (proj2 (Z.ltb_ge _ _)) by lia.
  - rewrite seqZ_S, foldl_app. cbn [foldl].
    rewrite Z.lor_spec, IH, gather_step_bits by lia.
    rewrite Z.add_0_l, Nat2Z.id.
    destruct (Z.eqb_spec k (Z.of_nat n)) as [->|Hne].
    + rewrite Nat2Z.id, Z.ltb_irrefl, (proj2 (Z.ltb_lt _ _)) by lia.
      by rewrite andb_true_r.
    + rewrite andb_false_r, orb_false_r. f_equal.
      destruct (Z.ltb_spec k (Z.of_nat n)), (Z.ltb_spec k (Z.of_nat (S n))); (done || lia).
Qed.

Lemma foldl_ext_in {A B} (f g : A -> B -> A) (l : list B) (a : A) :
  (forall x y, y ∈ l -> f x y = g x y) -> foldl f a l = foldl g a l.
Proof.
  revert a. induction l as [|y l IH]; intros a H; [done|].
  cbn [foldl]. rewrite H by apply list_elem_of_here.
  apply IH. intros x z Hz. apply H. by apply list_elem_of_further.
Qed.


Lemma swizzleWord_gather word table count :
  count <= 32 ->
  entries_in_range table count ->
  0 <= word < 2 ^ 64 ->
  word < 2 ^ 32 \/ count < 32 ->
  swizzleWord word table count = gather word table count.
Proof.
  intros Hc Htab Hw Hor. rewrite swizzleWord_unsigned. unfold gather.
  apply foldl_ext_in. intros u i Hi. apply elem_of_seqZ in Hi.
  f_equal. unfold contribution. cbv zeta.
  specialize (Htab i ltac:(lia)).
  rewrite sel_single_bit by (done || lia).
  destruct (Z.leb_spec i (table !!! Z.to_nat i)); [done|].
  apply to_ulong_small.
  set (b := table !!! Z.to_nat i) in *.
  assert (2 ^ b < 2 ^ (b + 1)) by (apply Z.pow_lt_mono_r; lia).
  assert (0 < 2 ^ b) by (apply Z.pow_pos_nonneg; lia).
  assert (0 <= Z.land word (2 ^ b) < 2 ^ (b + 1)) as Hl by (apply land_range; lia).
  rewrite Z.shiftl_mul_pow2 by lia.
  assert (2 ^ (b + 1) * 2 ^ (i - b) = 2 ^ (i + 1)) as Hp
    by (rewrite <- Z.pow_add_r by lia; f_equal; lia).
  assert (2 ^ (i + 1) <= 2 ^ 64) by (apply Z.pow_le_mono_r; lia).
  assert (0 < 2 ^ (i - b)) by (apply Z.pow_pos_nonneg; lia).
  nia.
Qed.

Lemma swizzleWord_bits word table count k :
  count <= 32 ->
  entries_in_range table count ->
  0 <= word < 2 ^ 64 ->
  word < 2 ^ 32 \/ count < 32 ->
  0 <= k ->
  Z.testbit (swizzleWord word table count) k
  = (k <? count) && Z.testbit word (table !!! Z.to_nat k).
Proof. intros. rewrite swizzleWord_gather by done. by apply gather_bits. Qed.

Lemma swizzleWord_range word table count :
  0 <= count <= 32 ->
  entries_in_range table count ->
  0 <= word < 2 ^ 64 ->
  word < 2 ^ 32 \/ count < 32 ->
  0 <= swizzleWord word table count < 2 ^ count.
Proof.
  intros Hc Htab Hw Hor.
  assert (0 <= swizzleWord word table count)
    by (unfold swizzleWord; apply to_ulong_range).
  split; [done|]. apply below_pow2_of_bits; [lia | done |].
  intros k Hk. rewrite swizzleWord_bits by (done || lia).
  by rewrite (proj2 (Z.ltb_ge _ _)) by lia.
Qed.

Lemma is_permutation_spec table count :
  is_permutation table count = true ->
  entries_in_range table count /\
  forall j, 0 <= j < count ->
    exists i, 0 <= i < count /\ table !!! Z.to_nat i = j.
Proof.
  unfold is_permutation. rewrite andb_true_iff, !forallb_forall.
  intros [Hr Hs]. split.
  - intros i Hi. specialize (Hr i). rewrite <- list_elem_of_In, elem_of_seqZ in Hr.
    specialize (Hr ltac:(lia)). lia.
  - intros j Hj. specialize (Hs j). rewrite <- list_elem_of_In, elem_of_seqZ in Hs.
    specialize (Hs ltac:(lia)). apply existsb_exists in Hs as (i & Hi & Heq).
    rewrite <- list_elem_of_In, elem_of_seqZ in Hi.
    exists i. split; [lia | by apply Z.eqb_eq].
Qed.

Lemma is_inverse_spec table inv count :
  is_inverse table inv count = true ->
  forall i, 0 <= i < count -> inv !!! Z.to_nat (table !!! Z.to_nat i) = i.
Proof.
  unfold is_inverse. rewrite forallb_forall. intros H i Hi.
  apply Z.eqb_eq, H, list_elem_of_In, elem_of_seqZ. lia.
Qed.




(** C4.  For a table that permutes [0 .. count-1] and a table that sends
    every [T[i]] back to [i], swizzling a value whose set bits lie below
    [count] with the first and then with the second gives the value
    back. *)
Theorem swizzleWord_inverse (v : Z) (T T' : list Z) (count : Z) :
  0 <= count <= 32 ->
  count <= Z.of_nat (length T) ->
  count <= Z.of_nat (length T') ->
  is_permutation T count = true ->
  is_inverse T T' count = true ->
  0 <= v < 2 ^ count ->
  swizzleWord (swizzleWord v T count) T' count = v.
Proof.
  intros Hc _ _ HT HT' Hv.
  apply is_permutation_spec in HT as [HTr HTs].
  pose proof (is_inverse_spec _ _ _ HT') as Hinv.
  assert (2 ^ count <= 2 ^ 32) by (apply Z.pow_le_mono_r; lia).
  assert (entries_in_range T' count) as HTr'.
  { intros j Hj. destruct (HTs j Hj) as (i & Hi & <-). by rewrite Hinv. }
  pose proof (swizzleWord_range v T count Hc HTr ltac:(lia) ltac:(lia)) as Hin.
  apply Z.bits_inj'. intros k Hk.
  rewrite swizzleWord_bits by (done || lia).
  destruct (Z.ltb_spec k count) as [Hlt|Hge]; cbn [andb].
  - destruct (HTs k ltac:(lia)) as (i & Hi & <-).
    rewrite Hinv by done.
    rewrite swizzleWord_bits by (done || lia).
    by rewrite (proj2 (Z.ltb_lt _ _)) by lia.
  - symmetry. by apply (testbit_high count).
Qed.

Lemma swizzleWord_inverse_witness :
  swizzleWord (swizzleWord 11 [2; 0; 3; 1] 4) [1; 3; 0; 2] 4 = 11.
Proof.
  apply swizzleWord_inverse;
    [lia | vm_compute; discriminate | vm_compute; discriminate
    | reflexivity | reflexivity | lia].
Defined.

(** ** Loops *)

Lemma for_each_fmap {S} (f : Z -> Z) (l : list Z) (body : Z -> S -> run S) (s : S) :
  for_each (f <$> l) body s = for_each l (fun i => body (f i)) s.
Proof.
  revert s. induction l as [|i l IH]; intros s; [done|].
  cbn [fmap list_fmap for_each]. destruct (body (f i) s) as [t [s'| |]]; [|done..].
  cbn [bind]. by rewrite <- IH.
Qed.

Lemma for_each_pure {S} (l : list Z) (g : S -> Z -> S) (body : Z -> S -> run S) (s : S) :
  (forall i s, i ∈ l -> body i s = ret (g s i)) ->
  for_each l body s = ret (foldl g s l).
Proof.
  revert s. induction l as [|i l IH]; intros s H; [done|].
  cbn [for_each foldl]. rewrite H by apply list_elem_of_here.
  rewrite bind_ret. apply IH. intros k s' Hk. apply H. by apply list_elem_of_further.
Qed.

(** A loop over [m, m + n) that keeps an invariant and never leaves. *)
Lemma for_each_invariant {St} (I : Z -> St -> Prop) (body : Z -> St -> run St)
    (n : nat) : forall (m : Z) (s : St),
  I m s ->
  (forall k s, m <= k < m + Z.of_nat n -> I k s ->
     exists s', body k s = ret s' /\ I (k + 1) s') ->
  exists s', for_each (seqZ m (Z.of_nat n)) body s = ret s' /\ I (m + Z.of_nat n) s'.
Proof.
  induction n as [|n IH]; intros m s Hs Hstep.
  - exists s. split; [done|]. by rewrite Z.add_0_r.
  - rewrite seqZ_cons by lia. cbn [for_each].
    destruct (Hstep m s ltac:(lia) Hs) as (s1 & -> & Hs1).
    rewrite bind_ret.
    replace (Z.pred (Z.of_nat (S n))) with (Z.of_nat n) by lia.
    destruct (IH (Z.succ m) s1) as (s2 & Hrun & Hs2).
    + by replace (Z.succ m) with (m + 1) by lia.
    + intros k s' Hk. apply Hstep. lia.
    + exists s2. split; [done|]. by replace (m + Z.of_nat (S n)) with (Z.succ m + Z.of_nat n) by lia.
Qed.

(** ** Reading and writing a word *)

Lemma read_word_inside opts inData pos :
  0 <= pos ->
  pos + bytesPerWord opts <= Z.of_nat (length inData) ->
  read_word opts inData pos = ret (word_at opts inData pos).
Proof.
  intros Hpos Hend. unfold read_word, word_at, byte_shift.
  destruct (bigEndian opts); apply for_each_pure; intros i data Hi;
    apply elem_of_seqZ in Hi; rewrite load_inside by lia; by rewrite bind_ret.
Qed.

Lemma write_word_inside opts (out : list Z) outAddr data :
  0 <= outAddr ->
  outAddr + bytesPerWord opts <= Z.of_nat (length out) ->
  exists out',
    write_word opts out outAddr data = ret out' /\
    length out' = length out /\
    (forall j, 0 <= j < bytesPerWord opts ->
       out' !!! Z.to_nat (outAddr + j) = byte_out opts data j) /\
    (forall p : nat,
       Z.of_nat p < outAddr \/ outAddr + bytesPerWord opts <= Z.of_nat p ->
       out' !!! p = out !!! p).
Proof.
  intros Haddr Hend.
  assert (forall v : Z -> Z, exists out',
    for_each (seqZ 0 (bytesPerWord opts))
      (fun i o => store o (outAddr + i) (v i)) out = ret out' /\
    length out' = length out /\
    (forall j, 0 <= j < bytesPerWord opts -> out' !!! Z.to_nat (outAddr + j) = v j) /\
    (forall p : nat,
       Z.of_nat p < outAddr \/ outAddr + bytesPerWord opts <= Z.of_nat p ->
       out' !!! p = out !!! p)) as Hloop.
  { intros v.
    destruct (Z.le_gt_cases (bytesPerWord opts) 0) as [Hneg|Hposw].
    { exists out. rewrite seqZ_nil by done. split_and!; [done | done | intros; lia | done]. }
    destruct (for_each_invariant
      (fun i o => length o = length out /\
         (forall j, 0 <= j < i -> o !!! Z.to_nat (outAddr + j) = v j) /\
         (forall p : nat, Z.of_nat p < outAddr \/ outAddr + i <= Z.of_nat p ->
            o !!! p = out !!! p))
      (fun i o => store o (outAddr + i) (v i))
      (Z.to_nat (bytesPerWord opts)) 0 out) as (out' & Hrun & Hlen & Hin & Hout).
    - split_and!; [done | intros; lia | done].
    - intros k o Hk (Hlen & Hin & Hout). rewrite Z2Nat.id in Hk by lia.
      rewrite store_inside by lia. eexists. split; [done|]. split_and!.
      + by rewrite length_insert.
      + intros j Hj. destruct (Z.eq_dec j k) as [->|Hne].
        * apply list_lookup_total_insert_eq. lia.
        * rewrite list_lookup_total_insert_ne by lia. apply Hin. lia.
      + intros p Hp. rewrite list_lookup_total_insert_ne by lia. apply Hout. lia.
    - rewrite Z2Nat.id in * by lia. by exists out'. }
  unfold write_word, byte_out, byte_shift. destruct (bigEndian opts); apply Hloop.
Qed.

(** ** Bytes of a word *)

Lemma to_ulong_to_int_low x : C.to_ulong (C.to_int x) mod 2 ^ 32 = x mod 2 ^ 32.
Proof.
  unfold C.to_ulong, C.to_int.
  rewrite Z.mod_mod_divide by (by exists (2 ^ 32)).
  rewrite Zminus_mod_idemp_l. f_equal. lia.
Qed.

(** Below bit 32 a promoted and shifted byte shows its own bits; what the
    conversion of a negative [int] sets lies from bit 32 on. *)
Lemma shifted_byte_bits c s k :
  0 <= s -> 0 <= k < 32 ->
  Z.testbit (C.to_ulong (C.int_shl c s)) k = Z.testbit c (k - s).
Proof.
  intros Hs Hk. unfold C.int_shl.
  rewrite <- (Z.mod_pow2_bits_low _ 32) by lia.
  rewrite to_ulong_to_int_low, Z.mod_pow2_bits_low by lia.
  apply Z.shiftl_spec. lia.
Qed.

Lemma shifted_byte_term c s s' k :
  0 <= c < 2 ^ 8 -> 0 <= k < 8 ->
  s ∈ [0; 8; 16; 24] -> s' ∈ [0; 8; 16; 24] ->
  Z.testbit (C.to_ulong (C.int_shl c s)) (k + s') = (s =? s') && Z.testbit c k.
Proof.
  intros Hc Hk Hs Hs'.
  assert (0 <= s <= 24 /\ 0 <= s' <= 24 /\ (s = s' \/ s + 8 <= s' \/ s' + 8 <= s))
    as (Hs1 & Hs2 & Hcmp).
  { repeat (apply elem_of_cons in Hs as [->|Hs]); try (by apply elem_of_nil in Hs);
    repeat (apply elem_of_cons in Hs' as [->|Hs']); try (by apply elem_of_nil in Hs'); lia. }
  rewrite shifted_byte_bits by lia.
  destruct Hcmp as [-> | [Hlt | Hgt]].
  - rewrite Z.eqb_refl. cbn [andb]. f_equal. lia.
  - rewrite (proj2 (Z.eqb_neq s s')) by lia. cbn [andb].
    apply (testbit_high 8); [done | lia].
  - rewrite (proj2 (Z.eqb_neq s s')) by lia. cbn [andb].
    apply Z.testbit_neg_r. lia.
Qed.

Lemma byte_out_bits opts data j k :
  0 <= k -> 0 <= byte_shift opts j ->
  Z.testbit (byte_out opts data j) k
  = (k <? 8) && Z.testbit data (k + byte_shift opts j).
Proof.
  intros Hk Hs. unfold byte_out, C.to_uchar, C.ulong_shr.
  rewrite Z.testbit_mod_pow2 by lia. by rewrite Z.shiftr_spec.
Qed.


Lemma is_byte_bits c k : is_byte c -> 0 <= k -> Z.testbit c k = (k <? 8) && Z.testbit c k.
Proof.
  intros Hc Hk. destruct (Z.ltb_spec k 8); [done|]. by apply (testbit_high 8).
Qed.

(** The byte loops of a given word size, unrolled, with their shift
    amounts computed. *)
Ltac unroll_bytes :=
  repeat match goal with
         | |- context [seqZ 0 ?n] =>
             let l := eval vm_compute in (seqZ 0 n) in
             change (seqZ 0 n) with l
         end;
  cbn [foldl fmap list_fmap];
  repeat match goal with
         | |- context [8 * ?e] =>
             let v := eval vm_compute in (8 * e) in
             progress change (8 * e) with v
         end.

(** Without a data permutation the bytes written are the bytes read, in
    either byte order and for every word size from 1 to 4. *)
Lemma byte_out_word_at opts inData pos j :
  1 <= bytesPerWord opts <= 4 ->
  0 <= j < bytesPerWord opts ->
  (forall i, 0 <= i < bytesPerWord opts -> is_byte (inData !!! Z.to_nat (pos + i))) ->
  byte_out opts (word_at opts inData pos) j = inData !!! Z.to_nat (pos + j).
Proof.
  intros Hw Hj Hbytes.
  apply Z.bits_inj'. intros k Hk.
  rewrite (is_byte_bits (inData !!! _) k) by (done || by apply Hbytes).
  assert (0 <= byte_shift opts j) by (unfold byte_shift; destruct (bigEndian opts); lia).
  rewrite byte_out_bits by done.
  destruct (Z.ltb_spec k 8) as [Hk8|]; [|done]. cbn [andb].
  unfold word_at, byte_shift.
  assert (bytesPerWord opts = 1 \/ bytesPerWord opts = 2 \/
          bytesPerWord opts = 3 \/ bytesPerWord opts = 4) as Hcases by lia.
  destruct (bigEndian opts);
    destruct Hcases as [Hb | [Hb | [Hb | Hb]]]; rewrite Hb in *;
    assert (j = 0 \/ j = 1 \/ j = 2 \/ j = 3) as Hjs by lia;
    destruct Hjs as [-> | [-> | [-> | ->]]]; try lia;
    unroll_bytes;
    rewrite ?Z.lor_spec, Z.bits_0;
    repeat (rewrite shifted_byte_term;
            [ | apply Hbytes; lia | lia | repeat constructor | repeat constructor ]);
    cbn [Z.eqb Pos.eqb andb orb]; rewrite ?orb_false_r; reflexivity.
Qed.

(** ** The word value and its bytes, against the specification *)

Example assemble_big : assemble true [18; 52] = 4660.   (* 0x1234 *)
Proof. reflexivity. Qed.

Example assemble_little : assemble false [18; 52] = 13330.   (* 0x3412 *)
Proof. reflexivity. Qed.

Lemma int_shl_exact c s :
  0 <= Z.shiftl c s < 2 ^ 31 -> C.to_ulong (C.int_shl c s) = Z.shiftl c s.
Proof.
  intros H. unfold C.int_shl, C.to_int, C.to_ulong.
  rewrite (Z.mod_small (_ + _)) by lia. rewrite Z.mod_small; lia.
Qed.

Lemma shifted_byte_exact c s :
  is_byte c -> 0 <= s <= 16 \/ (s = 24 /\ c < 2 ^ 7) ->
  C.to_ulong (C.int_shl c s) = Z.shiftl c s.
Proof.
  intros [Hc0 Hc1] Hs. apply int_shl_exact.
  rewrite Z.shiftl_mul_pow2 by lia.
  destruct Hs as [Hs | [-> Hc7]].
  - assert (2 ^ s <= 2 ^ 16) by (apply Z.pow_le_mono_r; lia).
    assert (0 < 2 ^ s) by (apply Z.pow_pos_nonneg; lia).
    change (2 ^ 8) with 256 in Hc1. change (2 ^ 16) with 65536 in *.
    change (2 ^ 31) with 2147483648. nia.
  - change (2 ^ 7) with 128 in Hc7. lia.
Qed.

Lemma shiftl_spec_total a n m :
  0 <= n -> Z.testbit (Z.shiftl a n) m = Z.testbit a (m - n).
Proof.
  intros Hn. destruct (Z.ltb_spec m 0).
  - by rewrite !Z.testbit_neg_r by lia.
  - by apply Z.shiftl_spec.
Qed.

(** Unless a four-byte word has its top bit set, the value assembled by
    the driver is the value of the bytes in the configured order. *)
Lemma word_at_assembled opts inData pos :
  1 <= bytesPerWord opts <= 4 ->
  (forall i, 0 <= i < bytesPerWord opts -> is_byte (inData !!! Z.to_nat (pos + i))) ->
  (bytesPerWord opts = 4 ->
   inData !!! Z.to_nat (pos + (if bigEndian opts then 0 else 3)) < 2 ^ 7) ->
  word_at opts inData pos = assemble (bigEndian opts) (word_bytes opts inData pos).
Proof.
  intros Hw Hbytes Htop.
  unfold word_at, word_bytes, assemble, byte_shift.
  assert (bytesPerWord opts = 1 \/ bytesPerWord opts = 2 \/
          bytesPerWord opts = 3 \/ bytesPerWord opts = 4) as Hcases by lia.
  destruct (bigEndian opts);
    destruct Hcases as [Hb | [Hb | [Hb | Hb]]]; rewrite Hb in *;
    unroll_bytes; cbn [reverse rev_append little_endian_to_Z];
    repeat (rewrite shifted_byte_exact;
            [ | apply Hbytes; lia | first [left; lia | right; split; [reflexivity | by apply Htop]] ]).
  all: apply Z.bits_inj'; intros k Hk.
  all: repeat (progress rewrite ?Z.lor_spec, ?shiftl_spec_total, ?Z.bits_0 by lia).
  all: rewrite ?Z.sub_0_r.
  all: repeat match goal with
              | |- context [?k' - ?a - ?b] =>
                  replace (k' - a - b) with (k' - (a + b)) by lia;
                  let v := eval vm_compute in (a + b) in change (a + b) with v
              end.
  all: repeat match goal with
              | |- context [Z.testbit ?c ?e] => destruct (Z.testbit c e)
              end; reflexivity.
Qed.

Lemma Z_to_little_endian_bytes (m : nat) : forall v,
  Z_to_little_endian (Z.of_nat m) 8 v
  = (fun i => Z.shiftr v (8 * i) mod 2 ^ 8) <$> seqZ 0 (Z.of_nat m).
Proof.
  induction m as [|m IH]; intros v; [done|].
  rewrite Nat2Z.inj_succ, Z_to_little_endian_succ, IH by lia.
  rewrite (seqZ_cons 0 (Z.succ (Z.of_nat m))) by lia. cbn [fmap list_fmap].
  rewrite Z.land_ones, Z.shiftr_0_r by lia. f_equal.
  replace (Z.pred (Z.succ (Z.of_nat m))) with (Z.of_nat m) by lia.
  rewrite <- (fmap_add_seqZ 1 0), <- list_fmap_compose.
  apply list_fmap_ext. intros n i Hi.
  apply list_elem_of_lookup_2, elem_of_seqZ in Hi. cbn.
  rewrite Z.shiftr_shiftr by lia. do 2 f_equal. lia.
Qed.

(** The bytes stored by [write_word] are the bytes of the value in the
    configured order. *)
Lemma byte_out_disassembled opts v :
  1 <= bytesPerWord opts <= 4 ->
  byte_out opts v <$> seqZ 0 (bytesPerWord opts)
  = disassemble (bigEndian opts) (bytesPerWord opts) v.
Proof.
  intros Hw. unfold disassemble.
  assert (Z_to_little_endian (bytesPerWord opts) 8 v
          = (fun i => Z.shiftr v (8 * i) mod 2 ^ 8) <$> seqZ 0 (bytesPerWord opts))
    as ->.
  { pose proof (Z_to_little_endian_bytes (Z.to_nat (bytesPerWord opts)) v) as H.
    by rewrite Z2Nat.id in H by lia. }
  unfold byte_out, byte_shift, C.to_uchar, C.ulong_shr.
  destruct (bigEndian opts); [|done].
  assert (bytesPerWord opts = 1 \/ bytesPerWord opts = 2 \/
          bytesPerWord opts = 3 \/ bytesPerWord opts = 4) as Hcases by lia.
  destruct Hcases as [Hb | [Hb | [Hb | Hb]]]; rewrite Hb;
    unroll_bytes; reflexivity.
Qed.

(** ** The main loop *)

(** One turn of the loop, when the word read and the word written lie
    inside the buffers: the bytes of the (permuted) word read at [pos] are
    stored from [out_addr] on, and nothing else changes. *)
Lemma move_word_writes opts addrTab dataTab na nd inData pos (out : list Z) :
  0 <= pos ->
  pos + bytesPerWord opts <= Z.of_nat (length inData) ->
  0 <= out_addr opts addrTab na pos ->
  out_addr opts addrTab na pos + bytesPerWord opts <= Z.of_nat (length out) ->
  exists out',
    move_word opts addrTab dataTab na nd inData pos out = ret out' /\
    length out' = length out /\
    (forall j, 0 <= j < bytesPerWord opts ->
       out' !!! Z.to_nat (out_addr opts addrTab na pos + j)
       = byte_out opts (permute_data opts dataTab nd (word_at opts inData pos)) j) /\
    (forall p : nat,
       Z.of_nat p < out_addr opts addrTab na pos
       \/ out_addr opts addrTab na pos + bytesPerWord opts <= Z.of_nat p ->
       out' !!! p = out !!! p).
Proof.
  intros Hpos Hin Haddr Hout. unfold move_word. cbv zeta.
  rewrite read_word_inside, bind_ret by done.
  by apply write_word_inside.
Qed.

(** With an address table whose entries are in range, the word index is
    gathered through the table and the word lands inside the first
    [2 ^ numAddrBits] words of the output. *)
Lemma out_addr_inside opts addrTab na pos :
  is_Some (addrBits opts) ->
  1 <= bytesPerWord opts <= 4 ->
  0 <= na <= 32 ->
  entries_in_range addrTab na ->
  0 <= pos `quot` bytesPerWord opts < 2 ^ 64 ->
  pos `quot` bytesPerWord opts < 2 ^ 32 \/ na < 32 ->
  out_addr opts addrTab na pos
    = bytesPerWord opts * gather (pos `quot` bytesPerWord opts) addrTab na /\
  0 <= out_addr opts addrTab na pos /\
  out_addr opts addrTab na pos + bytesPerWord opts <= bytesPerWord opts * 2 ^ na.
Proof.
  intros Ha Hb Hna Htab Hw Hor. unfold out_addr.
  rewrite bool_decide_eq_true_2 by done.
  pose proof (swizzleWord_range _ _ _ Hna Htab Hw Hor) as Hr.
  rewrite <- swizzleWord_gather by (done || lia).
  assert (2 ^ na <= 2 ^ 32) by (apply Z.pow_le_mono_r; lia).
  rewrite to_ulong_small, to_long_small by nia.
  split; [done|]. nia.
Qed.

Lemma move_word_in_place opts addrTab dataTab na nd inData pos (out : list Z) :
  addrBits opts = None ->
  0 <= pos ->
  pos + bytesPerWord opts <= Z.of_nat (length inData) ->
  pos + bytesPerWord opts <= Z.of_nat (length out) ->
  exists out',
    move_word opts addrTab dataTab na nd inData pos out = ret out' /\
    length out' = length out /\
    (forall j, 0 <= j < bytesPerWord opts ->
       out' !!! Z.to_nat (pos + j)
       = byte_out opts (permute_data opts dataTab nd (word_at opts inData pos)) j) /\
    (forall p : nat,
       Z.of_nat p < pos \/ pos + bytesPerWord opts <= Z.of_nat p ->
       out' !!! p = out !!! p).
Proof.
  intros Ha Hpos Hin Hout.
  assert (out_addr opts addrTab na pos = pos) as Haddr.
  { unfold out_addr. rewrite Ha. by rewrite bool_decide_eq_false_2 by (by intros [? ?]). }
  pose proof (move_word_writes opts addrTab dataTab na nd inData pos out) as H.
  rewrite Haddr in H. by apply H.
Qed.

(** One turn of the loop, as section 4.3 describes it: the bytes stored
    from [out_addr] on are the bytes, in the configured order, of the
    value of the input bytes at [pos] after the data permutation.  This
    holds for words inside the buffers that either are not permuted or
    are free of the sign extension of a four-byte word with its top bit
    set. *)
Lemma move_word_as_specified opts addrTab dataTab na nd inData pos (out : list Z) :
  1 <= bytesPerWord opts <= 4 ->
  0 <= pos ->
  pos + bytesPerWord opts <= Z.of_nat (length inData) ->
  (forall i : nat, is_byte (inData !!! i)) ->
  0 <= out_addr opts addrTab na pos ->
  out_addr opts addrTab na pos + bytesPerWord opts <= Z.of_nat (length out) ->
  dataBits opts = None \/
    (bytesPerWord opts = 4 ->
     inData !!! Z.to_nat (pos + (if bigEndian opts then 0 else 3)) < 2 ^ 7) ->
  exists out',
    move_word opts addrTab dataTab na nd inData pos out = ret out' /\
    length out' = length out /\
    word_bytes opts out' (out_addr opts addrTab na pos)
    = disassemble (bigEndian opts) (bytesPerWord opts)
        (permute_data opts dataTab nd
           (assemble (bigEndian opts) (word_bytes opts inData pos))) /\
    (forall p : nat,
       Z.of_nat p < out_addr opts addrTab na pos
       \/ out_addr opts addrTab na pos + bytesPerWord opts <= Z.of_nat p ->
       out' !!! p = out !!! p).
Proof.
  intros Hw Hpos Hin Hbytes Haddr Hout Hclean.
  destruct (move_word_writes opts addrTab dataTab na nd inData pos out)
    as (out' & Hrun & Hlen & Hnew & Hold); [done..|].
  exists out'. split_and!; [done | done | | done].
  destruct Hclean as [Hd | Htop].
  - unfold permute_data in *. rewrite Hd in *.
    rewrite bool_decide_eq_false_2 in * by (by intros [? ?]).
    transitivity (word_bytes opts inData pos).
    + apply list_fmap_ext. intros n j Hj.
      apply list_elem_of_lookup_2, elem_of_seqZ in Hj.
      rewrite Hnew by lia. apply byte_out_word_at; [done | lia |].
      intros i _. apply Hbytes.
    + unfold disassemble, assemble.
      assert (Forall (fun b => 0 <= b < 2 ^ 8) (word_bytes opts inData pos)) as Hall.
      { apply Forall_fmap, Forall_forall. intros i _. apply Hbytes. }
      assert (Z.of_nat (length (word_bytes opts inData pos)) = bytesPerWord opts) as Hl.
      { unfold word_bytes. rewrite length_fmap, length_seqZ. lia. }
      destruct (bigEndian opts).
      * rewrite Z_to_little_endian_to_Z, reverse_involutive;
          [done | by rewrite length_reverse | lia | by apply Forall_reverse].
      * by rewrite Z_to_little_endian_to_Z.
  - rewrite <- word_at_assembled by (done || intros; apply Hbytes).
    rewrite <- byte_out_disassembled by done.
    apply list_fmap_ext. intros n j Hj.
    apply list_elem_of_lookup_2, elem_of_seqZ in Hj.
    apply Hnew. lia.
Qed.

Lemma positions_exact n bpw :
  0 < bpw -> 0 <= n ->
  positions (n * bpw) bpw = (fun k => k * bpw) <$> seqZ 0 n.
Proof.
  intros Hb Hn. unfold positions. do 2 f_equal.
  rewrite Z.quot_div_nonneg by nia.
  symmetry. apply (Z.div_unique _ _ n (bpw - 1)); lia.
Qed.

(** Every word of the output holds the bytes of the (permuted) word read
    at the same place of the input. *)
Lemma transform_in_place opts addrTab dataTab na nd (inData : list Z) n :
  addrBits opts = None ->
  0 < bytesPerWord opts ->
  0 <= n ->
  Z.of_nat (length inData) = n * bytesPerWord opts ->
  exists out,
    for_each (positions (n * bytesPerWord opts) (bytesPerWord opts))
      (move_word opts addrTab dataTab na nd inData)
      (calloc (n * bytesPerWord opts)) = ret out /\
    length out = length inData /\
    (forall k j, 0 <= k < n -> 0 <= j < bytesPerWord opts ->
       out !!! Z.to_nat (k * bytesPerWord opts + j)
       = byte_out opts (permute_data opts dataTab nd
                          (word_at opts inData (k * bytesPerWord opts))) j).
Proof.
  intros Ha Hb Hn Hlen. set (bpw := bytesPerWord opts) in *.
  rewrite positions_exact, for_each_fmap by done.
  destruct (for_each_invariant
    (fun k out => length out = length inData /\
       forall k' j, 0 <= k' < k -> 0 <= j < bpw ->
         out !!! Z.to_nat (k' * bpw + j)
         = byte_out opts (permute_data opts dataTab nd (word_at opts inData (k' * bpw))) j)
    (fun k => move_word opts addrTab dataTab na nd inData (k * bpw))
    (Z.to_nat n) 0 (calloc (n * bpw))) as (out & Hrun & Hl & Hbytes).
  - split; [|intros; lia].
    unfold calloc. rewrite length_replicate. lia.
  - intros k out Hk (Hl & Hdone). rewrite Z2Nat.id in Hk by lia.
    destruct (move_word_in_place opts addrTab dataTab na nd inData (k * bpw) out)
      as (out' & Hrun & Hl' & Hnew & Hold); [done | nia | fold bpw; nia | fold bpw; nia |].
    exists out'. split; [done|]. split; [congruence|].
    intros k' j Hk' Hj. destruct (Z.eq_dec k' k) as [->|Hne].
    + by apply Hnew.
    + rewrite Hold by (fold bpw; nia). apply Hdone; lia.
  - rewrite Z2Nat.id in * by lia. exists out. split_and!; [done | done |].
    intros k j Hk Hj. apply Hbytes; lia.
Qed.

(** ** The working size *)

Lemma aligned_size_exact opts n :
  0 < bytesPerWord opts -> 0 <= n -> n mod bytesPerWord opts = 0 ->
  aligned_size opts n = ([], Ret n).
Proof.
  intros Hb Hn Hmod. unfold aligned_size.
  rewrite Z.rem_mod_nonneg, Hmod by lia. reflexivity.
Qed.

Lemma padded_exact n bpw : 0 < bpw -> n mod bpw = 0 -> padded n bpw = n.
Proof.
  intros Hb Hmod. unfold padded.
  apply Z.mod_divide in Hmod as [q ->]; [|lia].
  assert ((q * bpw + bpw - 1) / bpw = q) as ->
    by (symmetry; apply (Z.div_unique _ _ q (bpw - 1)); lia).
  lia.
Qed.

Lemma land_lnot_ones y e :
  0 <= e -> Z.land y (Z.lnot (Z.ones e)) = 2 ^ e * (y / 2 ^ e).
Proof.
  intros He.
  rewrite <- Z.ldiff_land, Z.ldiff_ones_r, Z.shiftl_mul_pow2, Z.shiftr_div_pow2 by done.
  lia.
Qed.

(** For the word sizes 1, 2 and 4 the mask [~(bpw - 1)] rounds to the
    next multiple of the word size. *)
Lemma aligned_size_power2 opts n :
  bytesPerWord opts = 1 \/ bytesPerWord opts = 2 \/ bytesPerWord opts = 4 ->
  0 <= n < 2 ^ 62 ->
  aligned_size opts n =
  ((if n mod bytesPerWord opts =? 0 then [] else [WarnUnaligned (bytesPerWord opts)]),
   Ret (padded n (bytesPerWord opts))).
Proof.
  intros Hb Hn.
  destruct (Z.eqb_spec (n mod bytesPerWord opts) 0) as [Hmod|Hmod].
  { rewrite aligned_size_exact, padded_exact by lia. reflexivity. }
  unfold aligned_size. rewrite Z.rem_mod_nonneg by lia.
  rewrite (proj2 (Z.eqb_neq _ _) Hmod). cbn [negb]. rewrite bind_emit.
  cbn [ret trace result fst snd]. do 2 f_equal.
  rewrite to_long_small by lia. unfold padded.
  destruct Hb as [Hb | [Hb | Hb]]; rewrite Hb in *.
  - rewrite Z.mod_1_r in Hmod. done.
  - change (2 - 1) with (Z.ones 1) at 2. rewrite land_lnot_ones by lia.
    change (2 ^ 1) with 2. do 2 f_equal. lia.
  - change (4 - 1) with (Z.ones 2) at 2. rewrite land_lnot_ones by lia.
    change (2 ^ 2) with 4. do 2 f_equal. lia.
Qed.

Lemma padded_bounds n bpw :
  0 < bpw -> 0 <= n -> n <= padded n bpw < n + bpw /\ padded n bpw mod bpw = 0.
Proof.
  intros Hb Hn. unfold padded.
  pose proof (Z.div_mod (n + bpw - 1) bpw ltac:(lia)).
  pose proof (Z.mod_pos_bound (n + bpw - 1) bpw ltac:(lia)).
  split; [lia|]. rewrite Z.mul_comm. apply Z.mod_mul. lia.
Qed.

Lemma fread_calloc (file : list Byte.byte) inSize :
  Z.of_nat (length file) <= inSize ->
  fread (calloc inSize) file = ret (input_buffer file inSize).
Proof.
  intros Hle. unfold fread, calloc, input_buffer.
  rewrite length_replicate.
  rewrite (proj2 (Nat.leb_le _ _)) by lia.
  by rewrite drop_replicate.
Qed.

Lemma length_input_buffer (file : list Byte.byte) inSize :
  Z.of_nat (length file) <= inSize ->
  Z.of_nat (length (input_buffer file inSize)) = inSize.
Proof.
  intros Hle. unfold input_buffer.
  rewrite length_app, length_fmap, length_replicate. lia.
Qed.

Lemma ftell_size (file : list Byte.byte) :
  Z.of_nat (length file) < 2 ^ 63 -> ftell file = Z.of_nat (length file).
Proof.
  intros H. unfold ftell, C.LONG_MAX.
  by rewrite (proj2 (Z.leb_le _ _)) by lia.
Qed.

Lemma log2_int_words q : 2 <= q < 2 ^ 33 -> 1 <= log2_int q <= 32.
Proof.
  intros Hq. unfold log2_int. rewrite (proj2 (Z.ltb_lt 0 q)) by lia.
  split.
  - apply Z.log2_le_pow2; lia.
  - apply Z.lt_succ_r, Z.log2_lt_pow2; lia.
Qed.

(** ** A run without an address permutation *)

Lemma bind_trace_ret {A B} (t : list event) (a : A) (f : A -> run B) :
  bind (t, Ret a) f = (t ++ trace (f a), result (f a)).
Proof. reflexivity. Qed.

Lemma swizzle_in_place opts (file : list Byte.byte) w W q tr dataTab :
  addrBits opts = None ->
  0 < bytesPerWord opts ->
  Z.of_nat (length file) < 2 ^ 63 ->
  aligned_size opts (Z.of_nat (length file)) = (w, Ret W) ->
  W = q * bytesPerWord opts ->
  2 <= q < 2 ^ 33 ->
  Z.of_nat (length file) <= W ->
  match dataBits opts with
  | Some bits => parseBits bits (replicate 32 0) (8 * bytesPerWord opts) "data"
  | None => ret (replicate 32 0)
  end = (tr, Ret dataTab) ->
  exists out,
    swizzle opts file = (w ++ tr, Ret out) /\
    Z.of_nat (length out) = W /\
    (forall k j, 0 <= k < q -> 0 <= j < bytesPerWord opts ->
       out !!! Z.to_nat (k * bytesPerWord opts + j)
       = byte_out opts
           (permute_data opts dataTab (8 * bytesPerWord opts)
              (word_at opts (input_buffer file W) (k * bytesPerWord opts))) j).
Proof.
  intros Ha Hb Hsize Halign HW Hq Hle Hparse.
  destruct (transform_in_place opts (replicate 32 0) dataTab
              (log2_int q) (8 * bytesPerWord opts) (input_buffer file W) q)
    as (out & Hrun & Hlen & Hbytes); [done | done | lia | |].
  { rewrite length_input_buffer by done. done. }
  exists out. split_and!.
  - unfold swizzle. cbv zeta. rewrite ftell_size by done.
    rewrite (proj2 (Z.ltb_ge _ 0)) by lia. cbn [when]. rewrite bind_ret.
    unfold working_size, pow2_size. rewrite Ha.
    rewrite bool_decide_eq_false_2 by (by intros [? ?]). cbn [andb].
    rewrite bind_ret, Halign, bind_trace_ret.
    assert (W `quot` bytesPerWord opts = q) as ->
      by (subst W; apply Z.quot_mul; lia).
    pose proof (log2_int_words q Hq) as Hlog.
    rewrite (proj2 (Z.ltb_ge _ 1)), (proj2 (Z.ltb_ge 32 _)) by lia.
    cbn [orb when]. rewrite !bind_ret, Hparse, bind_trace_ret.
    rewrite fread_calloc, bind_ret by done.
    subst W. rewrite Hrun. cbn [trace result ret fst snd].
    by rewrite app_nil_r.
  - rewrite Hlen. by apply length_input_buffer.
  - done.
Qed.

Lemma byte_val_is_byte b : is_byte (byte_val b).
Proof.
  unfold is_byte, byte_val. pose proof (Byte.to_N_bounded b).
  change (2 ^ 8) with 256. lia.
Qed.

Lemma input_buffer_is_byte file inSize (i : nat) :
  is_byte (input_buffer file inSize !!! i).
Proof.
  rewrite list_lookup_total_alt.
  destruct (input_buffer file inSize !! i) as [c|] eqn:Hc; [|by compute].
  cbn [default]. revert i c Hc. apply Forall_lookup.
  unfold input_buffer. apply Forall_app. split.
  - apply Forall_fmap, Forall_forall. intros b _. apply byte_val_is_byte.
  - apply Forall_replicate. by compute.
Qed.

(** Two buffers of [q] words that agree byte by byte, up to [g]. *)
Lemma words_pointwise (g : Z -> Z) (out inData : list Z) bpw q :
  0 < bpw ->
  Z.of_nat (length out) = q * bpw ->
  Z.of_nat (length inData) = q * bpw ->
  (forall k j, 0 <= k < q -> 0 <= j < bpw ->
     out !!! Z.to_nat (k * bpw + j) = g (inData !!! Z.to_nat (k * bpw + j))) ->
  out = g <$> inData.
Proof.
  intros Hb Hlo Hli Hbytes.
  apply (list_eq_same_length _ _ (length inData)); [by rewrite length_fmap | lia |].
  intros i x y Hi Hx Hy.
  apply list_lookup_total_correct in Hx as <-.
  rewrite list_lookup_fmap in Hy.
  destruct (inData !! i) as [c|] eqn:Hc; [|done]. injection Hy as <-.
  apply list_lookup_total_correct in Hc as <-.
  pose proof (Z.div_mod (Z.of_nat i) bpw ltac:(lia)) as Hdm.
  pose proof (Z.mod_pos_bound (Z.of_nat i) bpw Hb) as Hm.
  specialize (Hbytes (Z.of_nat i / bpw) (Z.of_nat i mod bpw)).
  replace (Z.of_nat i / bpw * bpw + Z.of_nat i mod bpw) with (Z.of_nat i) in Hbytes by lia.
  rewrite Nat2Z.id in Hbytes. apply Hbytes; [|done].
  split; [apply Z.div_pos; lia|]. apply Z.div_lt_upper_bound; lia.
Qed.

(** Fewer than two words: the run stops at the check of the address
    width, before the specs are parsed. *)
Lemma swizzle_too_small opts (file : list Byte.byte) w W q :
  addrBits opts = None ->
  0 < bytesPerWord opts ->
  Z.of_nat (length file) < 2 ^ 63 ->
  aligned_size opts (Z.of_nat (length file)) = (w, Ret W) ->
  W = q * bytesPerWord opts ->
  0 <= q < 2 ->
  swizzle opts file = (w, Exit AddrWidth).
Proof.
  intros Ha Hb Hsize Halign HW Hq.
  unfold swizzle. cbv zeta. rewrite ftell_size by done.
  rewrite (proj2 (Z.ltb_ge _ 0)) by lia. cbn [when]. rewrite bind_ret.
  unfold working_size, pow2_size. rewrite Ha.
  rewrite bool_decide_eq_false_2 by (by intros [? ?]). cbn [andb].
  rewrite bind_ret, Halign, bind_trace_ret.
  assert (W `quot` bytesPerWord opts = q) as ->
    by (subst W; apply Z.quot_mul; lia).
  assert (log2_int q < 1) as Hlog.
  { unfold log2_int. destruct (Z.ltb_spec 0 q); [|by compute].
    assert (q = 1) as -> by lia. by compute. }
  rewrite (proj2 (Z.ltb_lt _ 1) Hlog). cbn [orb when error bind trace result fst snd].
  by rewrite app_nil_r.
Qed.

(** C3, as the code has it.  Without an address and a data spec, for
    word sizes 1, 2 and 4 (and for 3 on a size that is a multiple of 3),
    either byte order and every input of fewer than 2^33 words after
    padding: if the padded input holds at least two words the run ends
    normally and writes the bytes of the input followed by zero bytes up
    to the next multiple of the word size; if it holds fewer, the run
    stops with the error on the address width and writes nothing.  The
    only diagnostic is the warning on an unaligned size. *)
Theorem swizzle_identity (opts : swizzle_t) (file : list Byte.byte) :
  addrBits opts = None ->
  dataBits opts = None ->
  1 <= bytesPerWord opts <= 4 ->
  (bytesPerWord opts = 3 -> Z.of_nat (length file) mod 3 = 0) ->
  padded (Z.of_nat (length file)) (bytesPerWord opts) < 2 ^ 33 * bytesPerWord opts ->
  swizzle opts file =
  ((if Z.of_nat (length file) mod bytesPerWord opts =? 0
    then [] else [WarnUnaligned (bytesPerWord opts)]),
   if 2 * bytesPerWord opts <=? padded (Z.of_nat (length file)) (bytesPerWord opts)
   then Ret ((byte_val <$> file) ++
             replicate (Z.to_nat (padded (Z.of_nat (length file)) (bytesPerWord opts))
                        - length file) 0)
   else Exit AddrWidth).
Proof.
  intros Ha Hd Hb H3 Hmax.
  set (n := Z.of_nat (length file)) in *. set (bpw := bytesPerWord opts) in *.
  pose proof (padded_bounds n bpw ltac:(lia) ltac:(lia)) as [Hpad Hmod].
  assert (aligned_size opts n =
          ((if n mod bpw =? 0 then [] else [WarnUnaligned bpw]), Ret (padded n bpw)))
    as Halign.
  { destruct (Z.eq_dec bpw 3) as [H3'|H3'].
    - assert (n mod bpw = 0) as Hn0 by (rewrite H3'; auto).
      rewrite aligned_size_exact, padded_exact, Hn0 by (done || lia).
      reflexivity.
    - apply aligned_size_power2; fold bpw; lia. }
  set (q := (n + bpw - 1) / bpw).
  assert (padded n bpw = q * bpw) as HW by (unfold padded; fold q; lia).
  destruct (Z.leb_spec (2 * bpw) (padded n bpw)) as [Hmin|Hmin].
  - destruct (swizzle_in_place opts file _ _ q [] (replicate 32 0) Ha
                ltac:(fold bpw; lia) ltac:(fold n; lia) Halign HW
                ltac:(nia) ltac:(fold n; lia))
      as (out & Hrun & Hlen & Hbytes).
    { by rewrite Hd. }
    rewrite Hrun, app_nil_r. do 2 f_equal.
    change (out = input_buffer file (padded n bpw)).
    rewrite <- (list_fmap_id (input_buffer _ _)).
    apply (words_pointwise id _ _ bpw q); [lia | lia | |].
    { rewrite length_input_buffer by (fold n; lia). done. }
    intros k j Hk Hj. rewrite Hbytes by done.
    unfold permute_data. rewrite Hd.
    rewrite bool_decide_eq_false_2 by (by intros [? ?]).
    apply byte_out_word_at; [done | done |].
    intros i Hi. apply input_buffer_is_byte.
  - apply (swizzle_too_small opts file _ (padded n bpw) q Ha);
      [fold bpw; lia | fold n; lia | done | done |].
    split; [|nia]. unfold q. apply Z.div_pos; lia.
Qed.

Lemma swizzle_identity_witness :
  swizzle {| addrBits := None; dataBits := None; bytesPerWord := 4; bigEndian := true |}
          [Byte.x12; Byte.x34; Byte.x56; Byte.x78; Byte.x9a; Byte.xbc; Byte.xde]
  = ([WarnUnaligned 4], Ret [18; 52; 86; 120; 154; 188; 222; 0]).
Proof.
  apply (swizzle_identity
           {| addrBits := None; dataBits := None; bytesPerWord := 4; bigEndian := true |}
           [Byte.x12; Byte.x34; Byte.x56; Byte.x78; Byte.x9a; Byte.xbc; Byte.xde]);
    [reflexivity | reflexivity | cbn; lia | cbn; lia | vm_compute; reflexivity].
Defined.

(** C3 as stated fails on an input of fewer than two words: the run is
    stopped by the check of the address width and writes nothing. *)
Lemma swizzle_identity_one_byte :
  swizzle default_opts [Byte.x2a] = ([], Exit AddrWidth).
Proof. vm_compute. reflexivity. Qed.

(** ** The example of the usage text: reversing the bits of every byte *)


Lemma reversal_parse :
  parseBits reversal_spec (replicate 32 0) 8 "data" =
  ([Store 7 0; Store 6 1; Store 5 2; Store 4 3;
    Store 3 4; Store 2 5; Store 1 6; Store 0 7], Ret reversal_table).
Proof. vm_compute. reflexivity. Qed.

Lemma reversal_byte c :
  is_byte c -> C.to_uchar (swizzleWord c reversal_table 8) = reverse_bits8 c.
Proof.
  intros [Hc0 Hc1]. apply Z.eqb_eq.
  assert (forallb (fun c => C.to_uchar (swizzleWord c reversal_table 8)
                            =? reverse_bits8 c) (seqZ 0 256) = true) as H
    by (vm_compute; reflexivity).
  rewrite forallb_forall in H. apply H, list_elem_of_In, elem_of_seqZ.
  change (2 ^ 8) with 256 in Hc1. lia.
Qed.

(** A run with the reversal spec, one byte per word and no address spec,
    on 2 to 2^33 - 1 bytes. *)
Lemma reversal_run (big : bool) (file : list Byte.byte) :
  2 <= Z.of_nat (length file) < 2 ^ 33 ->
  result (swizzle {| addrBits := None; dataBits := Some reversal_spec;
                     bytesPerWord := 1; bigEndian := big |} file)
    = Ret ((fun b => reverse_bits8 (byte_val b)) <$> file).
Proof.
  intros Hlen.
  set (opts := {| addrBits := None; dataBits := Some reversal_spec;
                  bytesPerWord := 1; bigEndian := big |}).
  set (n := Z.of_nat (length file)) in *.
  destruct (swizzle_in_place opts file [] n n
              (trace (parseBits reversal_spec (replicate 32 0) 8 "data"))
              reversal_table)
    as (out & Hrun & Hout & Hbytes);
    [done | done | fold n; lia | | cbn; lia | done | fold n; lia | | ].
  { rewrite aligned_size_exact; [done | done | lia | apply Z.mod_1_r]. }
  { change (parseBits reversal_spec (replicate 32 0) 8 "data"
            = (trace (parseBits reversal_spec (replicate 32 0) 8 "data"),
               Ret reversal_table)).
    by rewrite reversal_parse. }
  rewrite Hrun. cbn [result snd]. f_equal.
  rewrite (list_fmap_compose byte_val reverse_bits8).
  assert (input_buffer file n = byte_val <$> file) as Hin.
  { unfold input_buffer, n. rewrite Nat2Z.id, Nat.sub_diag. apply app_nil_r. }
  rewrite <- Hin.
  apply (words_pointwise reverse_bits8 _ _ 1 n); [lia | lia | |].
  { rewrite length_input_buffer; fold n; lia. }
  intros k j Hk Hj. assert (j = 0) as -> by lia.
  change (bytesPerWord opts) with 1 in Hbytes.
  rewrite (Hbytes k 0) by lia.
  pose proof (input_buffer_is_byte file n (Z.to_nat (k * 1 + 0))) as Hbyte.
  set (c := input_buffer file n !!! Z.to_nat (k * 1 + 0)) in *.
  assert (word_at opts (input_buffer file n) (k * 1) = c) as ->.
  { unfold word_at, byte_shift. change (bytesPerWord opts) with 1.
    change (seqZ 0 1) with [0]. cbn [foldl]. fold c.
    rewrite Z.lor_0_l.
    assert (C.int_shl c (if bigEndian opts then 8 * (1 - 0 - 1) else 8 * 0) = c) as ->.
    { destruct (bigEndian opts); change (8 * (1 - 0 - 1)) with 0; change (8 * 0) with 0;
        unfold C.int_shl, C.to_int; rewrite Z.shiftl_0_r;
        unfold is_byte in Hbyte; change (2 ^ 8) with 256 in Hbyte;
        rewrite Z.mod_small; lia. }
    apply to_ulong_small. unfold is_byte in Hbyte. change (2 ^ 8) with 256 in Hbyte. lia. }
  unfold permute_data. cbn [dataBits opts].
  rewrite bool_decide_eq_true_2 by (by eexists).
  unfold byte_out, byte_shift, C.ulong_shr.
  assert ((if bigEndian opts then 8 * (bytesPerWord opts - 0 - 1) else 8 * 0) = 0) as ->
    by (by destruct (bigEndian opts)).
  rewrite Z.shiftr_0_r. by apply reversal_byte.
Qed.


(** With one byte per word and no address spec every other size is turned
    down before the transform. *)
Lemma one_byte_words_rejected opts (file : list Byte.byte) :
  addrBits opts = None ->
  bytesPerWord opts = 1 ->
  ~ 2 <= Z.of_nat (length file) < 2 ^ 33 ->
  exists e, result (swizzle opts file) = Exit e.
Proof.
  intros Ha Hb Hn. unfold swizzle. cbv zeta.
  destruct (Z.lt_ge_cases (Z.of_nat (length file)) (2 ^ 63)) as [Hlt|Hge].
  - rewrite ftell_size by done.
    rewrite (proj2 (Z.ltb_ge _ 0)) by lia. cbn [when]. rewrite bind_ret.
    unfold working_size, pow2_size. rewrite Ha.
    rewrite bool_decide_eq_false_2 by (by intros [? ?]). cbn [andb].
    rewrite bind_ret, aligned_size_exact
      by (rewrite ?Hb; (lia || apply Z.mod_1_r)).
    change (@pair (list event) (outcome Z) [] (Ret ?x)) with (ret x).
    rewrite bind_ret, Hb, Z.quot_1_r.
    assert (log2_int (Z.of_nat (length file)) < 1
            \/ 32 < log2_int (Z.of_nat (length file))) as Hlog.
    { unfold log2_int.
      destruct (Z.ltb_spec 0 (Z.of_nat (length file))) as [Hpos|]; [|left; by compute].
      destruct (Z.le_gt_cases (2 ^ 33) (Z.of_nat (length file))) as [Hbig|].
      - right. apply Z.lt_le_trans with 33; [lia|]. by apply Z.log2_le_pow2.
      - left. assert (Z.of_nat (length file) = 1) as -> by lia. by compute. }
    exists AddrWidth. rewrite result_bind.
    destruct Hlog as [Hl|Hl].
    + by rewrite (proj2 (Z.ltb_lt _ 1) Hl).
    + rewrite (proj2 (Z.ltb_lt 32 _) Hl). by rewrite orb_true_r.
  - exists SizeError. unfold ftell, C.LONG_MAX.
    rewrite (proj2 (Z.leb_gt _ _)) by lia. reflexivity.
Qed.

(** C8.  The data spec "0,1,2,3,4,5,6,7" parses, for the eight data bits
    of a one-byte word, to the table [7,6,5,4,3,2,1,0]: the first token
    lands at destination bit 7.  With that spec, one byte per word, no
    address spec and either byte order, whenever a run returns an output,
    every output byte is the input byte at the same place with its bits
    in reverse order; 0x01 becomes 0x80 and 0xF0 becomes 0x0F. *)
Theorem data_bit_reversal (big : bool) (file : list Byte.byte) (out : list Z) :
  result (swizzle {| addrBits := None; dataBits := Some "0,1,2,3,4,5,6,7"%string;
                     bytesPerWord := 1; bigEndian := big |} file) = Ret out ->
  result (parseBits "0,1,2,3,4,5,6,7" (replicate 32 0) 8 "data")
    = Ret ([7; 6; 5; 4; 3; 2; 1; 0] ++ replicate 24 0) /\
  out = (fun b => reverse_bits8 (byte_val b)) <$> file /\
  reverse_bits8 1 = 128 /\ reverse_bits8 240 = 15.
Proof.
  intros Hout. split.
  { change (result (parseBits reversal_spec (replicate 32 0) 8 "data")
            = Ret reversal_table).
    by rewrite reversal_parse. }
  split; [|by vm_compute].
  change "0,1,2,3,4,5,6,7"%string with reversal_spec in Hout.
  destruct (Z_le_dec 2 (Z.of_nat (length file))) as [Hlo|Hlo];
    [destruct (Z_lt_dec (Z.of_nat (length file)) (2 ^ 33)) as [Hhi|Hhi]|].
  - rewrite reversal_run in Hout by lia. by injection Hout as <-.
  - destruct (one_byte_words_rejected
                {| addrBits := None; dataBits := Some reversal_spec;
                   bytesPerWord := 1; bigEndian := big |}
                file eq_refl eq_refl ltac:(lia)) as [e He].
    rewrite He in Hout. discriminate.
  - destruct (one_byte_words_rejected
                {| addrBits := None; dataBits := Some reversal_spec;
                   bytesPerWord := 1; bigEndian := big |}
                file eq_refl eq_refl ltac:(lia)) as [e He].
    rewrite He in Hout. discriminate.
Qed.

Lemma data_bit_reversal_witness :
  result (swizzle {| addrBits := None; dataBits := Some "0,1,2,3,4,5,6,7"%string;
                     bytesPerWord := 1; bigEndian := false |} [Byte.x01; Byte.xf0])
    = Ret [128; 15] /\
  [128; 15] = (fun b => reverse_bits8 (byte_val b)) <$> [Byte.x01; Byte.xf0].
Proof.
  assert (result (swizzle {| addrBits := None; dataBits := Some "0,1,2,3,4,5,6,7"%string;
                             bytesPerWord := 1; bigEndian := false |}
                          [Byte.x01; Byte.xf0]) = Ret [128; 15]) as Hrun
    by (vm_compute; reflexivity).
  split; [exact Hrun|].
  exact (proj1 (proj2 (data_bit_reversal false [Byte.x01; Byte.xf0] [128; 15] Hrun))).
Defined.

(** ** Rounding up to a power of two *)

Lemma is_pow2_spec n : is_pow2 n = true <-> exists k, 0 <= k /\ n = 2 ^ k.
Proof.
  unfold is_pow2. rewrite andb_true_iff, Z.ltb_lt, Z.eqb_eq. split.
  - intros [Hpos Heq]. exists (Z.log2 n). split; [apply Z.log2_nonneg | done].
  - intros (k & Hk & ->). split; [by apply Z.pow_pos_nonneg|].
    by rewrite Z.log2_pow2.
Qed.

(** The test [inSize & (inSize - 1)] of the driver, on a positive size. *)
Lemma land_pred_pow2 x : 0 < x -> (Z.land x (x - 1) =? 0) = is_pow2 x.
Proof.
  intros Hx. unfold is_pow2. rewrite (proj2 (Z.ltb_lt 0 x) Hx). cbn [andb].
  pose proof (Z.log2_spec x Hx) as Hlog. pose proof (Z.log2_nonneg x) as Hnn.
  destruct (Z.eqb_spec x (2 ^ Z.log2 x)) as [Heq|Hne].
  - apply Z.eqb_eq. rewrite Heq at 1. rewrite Heq at 2.
    change (2 ^ Z.log2 x - 1) with (Z.pred (2 ^ Z.log2 x)).
    rewrite <- Z.ones_equiv, Z.land_ones by done. apply Z.mod_same.
    apply Z.pow_nonzero; lia.
  - apply Z.eqb_neq. intros Hland.
    assert (Z.testbit (Z.land x (x - 1)) (Z.log2 x) = true) as Hbit.
    { rewrite Z.land_spec, Z.bit_log2 by done. cbn [andb].
      assert (Z.log2 (x - 1) = Z.log2 x) as <- by (apply Z.log2_unique; lia).
      apply Z.bit_log2. lia. }
    rewrite Hland, Z.bits_0 in Hbit. discriminate.
Qed.

Lemma smear_step x y n :
  0 <= n ->
  (forall k, 0 <= k ->
     Z.testbit y k = true <-> exists j, 0 <= j < n /\ Z.testbit x (k + j) = true) ->
  forall k, 0 <= k ->
    Z.testbit (Z.lor y (Z.shiftr y n)) k = true
    <-> exists j, 0 <= j < 2 * n /\ Z.testbit x (k + j) = true.
Proof.
  intros Hn Hy k Hk.
  rewrite Z.lor_spec, Z.shiftr_spec, orb_true_iff, !Hy by lia. split.
  - intros [(j & Hj & Hb) | (j & Hj & Hb)].
    + exists j. split; [lia | done].
    + exists (n + j). split; [lia|]. by replace (k + (n + j)) with (k + n + j) by lia.
  - intros (j & Hj & Hb). destruct (Z.lt_ge_cases j n).
    + left. exists j. split; [lia | done].
    + right. exists (j - n). split; [lia|].
      by replace (k + n + (j - n)) with (k + j) by lia.
Qed.

(** Below 2^33 the five shifts fill every bit under the highest one. *)
Lemma next_pow2_exact x :
  0 < x < 2 ^ 33 -> is_pow2 x = false -> next_pow2 x = 2 ^ (Z.log2 x + 1).
Proof.
  intros Hx Hnp.
  assert (x <> 2 ^ Z.log2 x) as Hne.
  { intros Heq. unfold is_pow2 in Hnp.
    rewrite (proj2 (Z.ltb_lt 0 x)), (proj2 (Z.eqb_eq _ _) Heq) in Hnp by lia. done. }
  pose proof (Z.log2_spec x ltac:(lia)) as Hlog.
  pose proof (Z.log2_nonneg x) as Hnn.
  assert (Z.log2 x < 33) as Ht by (apply Z.log2_lt_pow2; lia).
  set (t := Z.log2 x) in *.
  unfold next_pow2.
  assert (forall k, 0 <= k ->
            Z.testbit x k = true <-> exists j, 0 <= j < 1 /\ Z.testbit x (k + j) = true) as Q1.
  { intros k Hk. split.
    - intros Hb. exists 0. split; [lia|]. by rewrite Z.add_0_r.
    - intros (j & Hj & Hb). by replace (k + j) with k in Hb by lia. }
  pose proof (smear_step x _ 1 ltac:(lia) Q1) as Q2. change (2 * 1) with 2 in Q2.
  pose proof (smear_step x _ 2 ltac:(lia) Q2) as Q4. change (2 * 2) with 4 in Q4.
  pose proof (smear_step x _ 4 ltac:(lia) Q4) as Q8. change (2 * 4) with 8 in Q8.
  pose proof (smear_step x _ 8 ltac:(lia) Q8) as Q16. change (2 * 8) with 16 in Q16.
  pose proof (smear_step x _ 16 ltac:(lia) Q16) as Q32. change (2 * 16) with 32 in Q32.
  cbv zeta.
  set (s := Z.lor _ (Z.shiftr _ 16)) in *.
  assert (s = Z.ones (t + 1)) as ->.
  { apply Z.bits_inj'. intros k Hk.
    rewrite Z.testbit_ones_nonneg by lia.
    apply eq_true_iff_eq. rewrite Q32, Z.ltb_lt by done. split.
    - intros (j & Hj & Hb). destruct (Z.le_gt_cases (k + j) t); [lia|].
      rewrite Z.bits_above_log2 in Hb by (fold t; lia). discriminate.
    - intros Hkt. destruct (Z.lt_ge_cases (t - k) 32).
      + exists (t - k). split; [lia|].
        replace (k + (t - k)) with t by lia. apply Z.bit_log2. lia.
      + assert (t = 32) as Ht32 by lia. assert (k = 0) as -> by lia.
        rewrite Ht32 in *.
        set (r := x - 2 ^ 32).
        assert (0 < r < 2 ^ 32) as Hr by (unfold r; lia).
        assert (Z.log2 r < 32) by (apply Z.log2_lt_pow2; lia).
        pose proof (Z.log2_nonneg r).
        exists (Z.log2 r). split; [lia|]. rewrite Z.add_0_l.
        rewrite <- (Z.mod_pow2_bits_low x 32) by lia.
        replace (x mod 2 ^ 32) with r.
        * apply Z.bit_log2. lia.
        * apply (Z.mod_unique x (2 ^ 32) 1 r); unfold r; lia. }
  rewrite Z.ones_equiv.
  assert (2 ^ (t + 1) <= 2 ^ 33) by (apply Z.pow_le_mono_r; lia).
  rewrite to_long_small by lia. lia.
Qed.

Lemma pow2_size_positive opts n :
  0 < n < 2 ^ 33 ->
  pow2_size opts n =
  if bool_decide (is_Some (addrBits opts)) && negb (is_pow2 n)
  then ([WarnNonPowerOfTwo n], Ret (2 ^ (Z.log2 n + 1)))
  else ([], Ret n).
Proof.
  intros Hn. unfold pow2_size. rewrite land_pred_pow2 by lia.
  destruct (bool_decide _); cbn [andb]; [|done].
  destruct (is_pow2 n) eqn:Hp; cbn [negb]; [done|].
  rewrite bind_emit, next_pow2_exact by done. reflexivity.
Qed.

Lemma pow2_warning_printed opts (file : list Byte.byte) :
  Z.of_nat (length file) < 2 ^ 33 ->
  is_Some (addrBits opts) ->
  0 < Z.of_nat (length file) ->
  is_pow2 (Z.of_nat (length file)) = false ->
  WarnNonPowerOfTwo (Z.of_nat (length file)) ∈ trace (swizzle opts file).
Proof.
  intros Hlt Ha Hpos Hnp. unfold swizzle. cbv zeta.
  rewrite ftell_size by lia.
  rewrite (proj2 (Z.ltb_ge _ 0)) by lia. cbn [when]. rewrite bind_ret.
  unfold working_size. rewrite pow2_size_positive by lia.
  rewrite bool_decide_eq_true_2, Hnp by done. cbn [andb negb].
  rewrite !trace_bind. cbn [trace fst app]. apply list_elem_of_here.
Qed.

(** Bit 1 of a number taken with the mask 2, and the mask [~2] of the
    alignment for three bytes per word, which clears that bit. *)
Lemma land_two x : Z.land x 2 = 2 * ((x / 2) mod 2).
Proof.
  change (x / 2) with (x / 2 ^ 1). rewrite <- Z.testbit_spec' by lia.
  apply Z.bits_inj'. intros k Hk.
  rewrite Z.land_spec. change 2 with (2 ^ 1) at 1. rewrite Z.pow2_bits_eqb by lia.
  destruct (Z.eqb_spec 1 k) as [<-|Hne].
  - rewrite andb_true_r. by destruct (Z.testbit x 1).
  - rewrite andb_false_r. destruct (Z.testbit x 1); cbn [Z.b2z].
    + change (2 * 1) with (2 ^ 1). rewrite Z.pow2_bits_eqb by lia.
      symmetry. by apply Z.eqb_neq.
    + by rewrite Z.bits_0.
Qed.

Lemma land_lnot_two x : Z.land x (Z.lnot 2) = x - 2 * ((x / 2) mod 2).
Proof.
  rewrite <- land_two.
  assert (Z.land x (Z.lnot 2) + Z.land x 2 = x) as H; [|lia].
  rewrite Z.add_nocarry_lxor.
  - apply Z.bits_inj'. intros k Hk.
    rewrite Z.lxor_spec, !Z.land_spec, Z.lnot_spec by done.
    by destruct (Z.testbit x k), (Z.testbit 2 k).
  - apply Z.bits_inj'. intros k Hk.
    rewrite !Z.land_spec, Z.lnot_spec, Z.bits_0 by done.
    by destruct (Z.testbit x k), (Z.testbit 2 k).
Qed.

Lemma bind_ext {A B} (m : run A) (f g : A -> run B) :
  (forall a, f a = g a) -> bind m f = bind m g.
Proof. intros H. destruct m as [t [a| |]]; cbn; by rewrite ?H. Qed.

(** The alignment never shrinks the size, for any word size that main
    lets through. *)
Lemma aligned_size_returns opts size :
  1 <= bytesPerWord opts <= 4 ->
  0 <= size < 2 ^ 62 ->
  exists t W, aligned_size opts size = (t, Ret W) /\ size <= W.
Proof.
  intros Hb Hs.
  destruct (Z.eq_dec (bytesPerWord opts) 3) as [H3|H3].
  - unfold aligned_size. rewrite H3. cbv zeta.
    destruct (negb (Z.rem size 3 =? 0)).
    + rewrite bind_emit. cbn [ret trace result fst snd app]. do 2 eexists.
      split; [reflexivity|].
      rewrite to_long_small by lia. change (3 - 1) with 2.
      rewrite land_lnot_two.
      pose proof (Z.mod_pos_bound ((size + 2) / 2) 2 ltac:(lia)). lia.
    + do 2 eexists. split; [reflexivity | lia].
  - rewrite aligned_size_power2 by lia. do 2 eexists. split; [reflexivity|].
    pose proof (padded_bounds size (bytesPerWord opts) ltac:(lia) ltac:(lia)). lia.
Qed.

(** C9, as the code has it.  For 1 to 4 bytes per word and a file of
    [n] bytes, [n] below 2^62 and below 2^33 when an address spec is
    given, the run is what follows.  When an address spec is given and
    [n] is positive and not a power of two, the warning is printed and
    the size becomes [2 ^ (log2 n + 1)], the one power of two above [n]
    and below [2 * n]; otherwise (no address spec, a power of two, or the
    empty file) nothing is printed and the size stays [n].  The word
    alignment is applied to that size and gives the working size
    [inSize].  The rest of the run, from the check of the address width
    to the loop, works on [inSize] and on an input buffer of [inSize]
    bytes that holds the bytes of the file followed by zero bytes. *)
Theorem pow2_padding (opts : swizzle_t) (file : list Byte.byte) :
  1 <= bytesPerWord opts <= 4 ->
  Z.of_nat (length file) < 2 ^ 62 ->
  (is_Some (addrBits opts) -> Z.of_nat (length file) < 2 ^ 33) ->
  let n := Z.of_nat (length file) in
  let rounded :=
    bool_decide (is_Some (addrBits opts)) && (0 <? n) && negb (is_pow2 n) in
  let size := if rounded then 2 ^ (Z.log2 n + 1) else n in
  swizzle opts file
  = (let! _ := when rounded (emit (WarnNonPowerOfTwo n)) in
     let! inSize := aligned_size opts size in
     swizzle_body opts inSize
       ((byte_val <$> file) ++ replicate (Z.to_nat (inSize - n)) 0)) /\
  (rounded = true -> is_pow2 size = true /\ n < size < 2 * n).
Proof.
  intros Hb Hfile Hn n rounded size.
  assert (pow2_size opts n
          = (let! _ := when rounded (emit (WarnNonPowerOfTwo n)) in ret size))
    as Hpow.
  { unfold size, rounded.
    destruct (decide (is_Some (addrBits opts))) as [Ha|Ha].
    - specialize (Hn Ha). rewrite (bool_decide_eq_true_2 _ Ha). cbn [andb].
      destruct (Z.ltb_spec 0 n) as [Hpos|Hzero]; cbn [andb].
      + rewrite pow2_size_positive by (fold n; lia).
        rewrite (bool_decide_eq_true_2 _ Ha). cbn [andb].
        by destruct (is_pow2 n).
      + assert (n = 0) as -> by lia. unfold pow2_size. by rewrite andb_false_r.
    - unfold pow2_size. by rewrite !bool_decide_eq_false_2. }
  assert (rounded = true -> is_pow2 size = true /\ n < size < 2 * n)
    as Hround.
  { unfold size, rounded. intros Hr. rewrite Hr.
    apply andb_true_iff in Hr as [Hr Hnp]. apply andb_true_iff in Hr as [_ Hpos].
    apply Z.ltb_lt in Hpos. apply negb_true_iff in Hnp.
    pose proof (Z.log2_spec n Hpos) as Hlog. pose proof (Z.log2_nonneg n) as Hnn.
    split.
    - apply is_pow2_spec. exists (Z.log2 n + 1). split; [lia | done].
    - unfold is_pow2 in Hnp. rewrite (proj2 (Z.ltb_lt 0 _)) in Hnp by lia.
      cbn [andb] in Hnp. apply Z.eqb_neq in Hnp.
      replace (Z.log2 n + 1) with (Z.succ (Z.log2 n)) in * by lia.
      rewrite Z.pow_succ_r in * by done. lia. }
  split; [|done].
  assert (n <= size < 2 ^ 62) as Hsize.
  { destruct rounded eqn:Hr; unfold size.
    - destruct (Hround eq_refl) as [_ Hb2]. unfold size in Hb2.
      assert (n < 2 ^ 33).
      { apply Hn. unfold rounded in Hr.
        apply andb_true_iff in Hr as [Hr _]. apply andb_true_iff in Hr as [Hr _].
        by apply bool_decide_eq_true in Hr. }
      lia.
    - lia. }
  unfold swizzle. cbv zeta. rewrite ftell_size by (fold n; lia). fold n.
  rewrite (proj2 (Z.ltb_ge _ 0)) by lia. cbn [when]. rewrite bind_ret.
  unfold working_size. rewrite Hpow, !bind_assoc.
  apply bind_ext. intros _. rewrite bind_ret.
  destruct (aligned_size_returns opts size Hb ltac:(lia)) as (t & W & -> & HW).
  rewrite !bind_trace_ret. unfold swizzle_body. cbv zeta.
  assert (Z.to_nat (W - n) = (Z.to_nat W - length file)%nat) as -> by (unfold n; lia).
  f_equal; [f_equal|];
    (f_equal; apply bind_ext; intros _; apply bind_ext; intros addrTab;
     apply bind_ext; intros dataTab;
     by rewrite fread_calloc, bind_ret by (fold n; lia)).
Qed.

(** The padding example of the specification: 100 bytes, an address spec,
    one byte per word.  The warning is printed, the working size is 128,
    the input buffer holds the 100 bytes and 28 zero bytes, and the run
    returns 128 bytes. *)
Lemma pow2_padding_witness :
  swizzle {| addrBits := Some "6,5,4,3,2,1,0"%string; dataBits := None;
             bytesPerWord := 1; bigEndian := false |}
          (replicate 100 Byte.xff)
  = (let! _ := emit (WarnNonPowerOfTwo 100) in
     swizzle_body {| addrBits := Some "6,5,4,3,2,1,0"%string; dataBits := None;
                     bytesPerWord := 1; bigEndian := false |}
                  128 (replicate 100 255 ++ replicate 28 0)) /\
  (is_pow2 128 = true /\ 100 < 128 < 2 * 100).
Proof.
  destruct (pow2_padding
              {| addrBits := Some "6,5,4,3,2,1,0"%string; dataBits := None;
                 bytesPerWord := 1; bigEndian := false |}
              (replicate 100 Byte.xff)
              ltac:(cbn; lia) ltac:(cbn; lia) ltac:(cbn; lia))
    as (Hrun & Hpow).
  split.
  - rewrite Hrun. vm_compute. reflexivity.
  - apply (Hpow eq_refl).
Defined.

(** C9 as stated fails on the empty file, whose size 0 is not a power of
    two: with an address spec the size is kept, no warning is printed and
    the run stops at the check of the address width.  It fails as well
    above 2^33, where the five shifts no longer fill every bit: for
    2^33 + 1 the size becomes 2^34 - 2, which is not a power of two. *)
Lemma pow2_padding_empty_file :
  is_pow2 0 = false /\
  pow2_size {| addrBits := Some "0"%string; dataBits := None;
               bytesPerWord := 1; bigEndian := false |} (ftell [])
  = ([], Ret 0) /\
  swizzle {| addrBits := Some "0"%string; dataBits := None;
             bytesPerWord := 1; bigEndian := false |} []
  = ([], Exit AddrWidth) /\
  pow2_size {| addrBits := Some "0"%string; dataBits := None;
               bytesPerWord := 1; bigEndian := false |} (2 ^ 33 + 1)
  = ([WarnNonPowerOfTwo (2 ^ 33 + 1)], Ret (2 ^ 34 - 2)) /\
  is_pow2 (2 ^ 34 - 2) = false.
Proof. split_and!; vm_compute; reflexivity. Qed.

(** ** Words that do not fit the buffers, words that lose their value *)

(** C1 on two inputs.  With three bytes per word a size of 8 bytes is
    left at 8 by the alignment mask, the word at position 6 reaches one
    byte past both buffers and the run is undefined.  With four bytes per
    word the word 00 00 00 80, of value 0x80000000, is sign-extended when
    it is assembled; permuted with the 32-bit reversal table it is
    written as FF FF FF FF, where swizzleWord applied to the value of the
    bytes gives 01 00 00 00. *)
Theorem transform_defects :
  (working_size {| addrBits := None; dataBits := None;
                   bytesPerWord := 3; bigEndian := false |} 8
   = ([WarnUnaligned 3], Ret 8) /\
   positions 8 3 = [0; 3; 6] /\
   read_word {| addrBits := None; dataBits := None;
                bytesPerWord := 3; bigEndian := false |}
             [1; 2; 3; 4; 5; 6; 7; 8] 6 = fault /\
   swizzle {| addrBits := None; dataBits := None;
              bytesPerWord := 3; bigEndian := false |}
           [Byte.x01; Byte.x02; Byte.x03; Byte.x04;
            Byte.x05; Byte.x06; Byte.x07; Byte.x08]
   = ([WarnUnaligned 3], Fault))
  /\
  (assemble false [0; 0; 0; 128] = 2 ^ 31 /\
   word_at {| addrBits := None; dataBits := None;
              bytesPerWord := 4; bigEndian := false |}
           [0; 0; 0; 128; 0; 0; 0; 0] 0 = 2 ^ 64 - 2 ^ 31 /\
   result (swizzle
     {| addrBits := None;
        dataBits := Some "0,1,2,3,4,5,6,7,8,9,10,11,12,13,14,15,16,17,18,19,20,21,22,23,24,25,26,27,28,29,30,31"%string;
        bytesPerWord := 4; bigEndian := false |}
     [Byte.x00; Byte.x00; Byte.x00; Byte.x80;
      Byte.x00; Byte.x00; Byte.x00; Byte.x00])
   = Ret [255; 255; 255; 255; 0; 0; 0; 0] /\
   disassemble false 4
     (swizzleWord (assemble false [0; 0; 0; 128])
                  ((fun k => 31 - k) <$> seqZ 0 32) 32)
   = [1; 0; 0; 0]).
Proof. split; split_and!; vm_compute; reflexivity. Qed.

(** * Further properties *)

(** ** Tables and buffers *)

Lemma is_permutation_intro table count :
  entries_in_range table count ->
  (forall j, 0 <= j < count ->
     exists i, 0 <= i < count /\ table !!! Z.to_nat i = j) ->
  is_permutation table count = true.
Proof.
  intros Hr Hs. unfold is_permutation. rewrite andb_true_iff, !forallb_forall. split.
  - intros i Hi. rewrite <- list_elem_of_In, elem_of_seqZ in Hi.
    specialize (Hr i ltac:(lia)). rewrite andb_true_iff, Z.leb_le, Z.ltb_lt. lia.
  - intros j Hj. rewrite <- list_elem_of_In, elem_of_seqZ in Hj.
    destruct (Hs j ltac:(lia)) as (i & Hi & Heq).
    apply existsb_exists. exists i. split; [|by apply Z.eqb_eq].
    apply list_elem_of_In, elem_of_seqZ. lia.
Qed.


Lemma lookup_total_seqZ_fmap (f : Z -> Z) count i :
  0 <= i < count -> (f <$> seqZ 0 count) !!! Z.to_nat i = f i.
Proof.
  intros Hi. apply list_lookup_total_correct.
  rewrite list_lookup_fmap, lookup_seqZ_lt by lia.
  cbn [fmap option_fmap option_map]. do 2 f_equal. lia.
Qed.

Lemma parseBits_never_faults bits dest count type :
  count <= Z.of_nat (length dest) ->
  result (parseBits bits dest count type) <> Fault.
Proof.
  intros Hd.
  destruct (first_invalid_split count (strtok bits comma))
    as [Hall | (pre & bad & post & Htoks & Hpre & Hbad)].
  - rewrite parseBits_result_in_range by done. by destruct (_ =? _).
  - by rewrite (parseBits_result_invalid _ _ _ _ pre bad post).
Qed.

Lemma parse_table_never_faults spec count type :
  count <= 32 -> result (parse_table spec count type) <> Fault.
Proof.
  intros Hc. destruct spec as [bits|]; [|done].
  apply parseBits_never_faults. by rewrite length_replicate.
Qed.

Lemma parse_table_in_range spec count type table :
  count <= 32 ->
  is_Some spec ->
  result (parse_table spec count type) = Ret table ->
  entries_in_range table count.
Proof.
  intros Hc [bits ->] Hres.
  apply (parseBits_table_in_range bits (replicate 32 0) count type); [|done].
  by rewrite length_replicate.
Qed.

Lemma calloc_lookup n (p : nat) : Z.of_nat p < n -> calloc n !!! p = 0.
Proof. intros Hp. unfold calloc. apply lookup_total_replicate_2. lia. Qed.

Lemma calloc_length n : 0 <= n -> Z.of_nat (length (calloc n)) = n.
Proof. intros Hn. unfold calloc. rewrite length_replicate. lia. Qed.

(** The main loop when every word lands on a whole word of the output:
    an output word holds the last input word sent to it, and zeros when
    none is. *)
Lemma transform_words opts addrTab dataTab na nd (inData : list Z) q (dest : Z -> Z) :
  0 < bytesPerWord opts ->
  0 <= q ->
  Z.of_nat (length inData) = q * bytesPerWord opts ->
  (forall k, 0 <= k < q ->
     out_addr opts addrTab na (k * bytesPerWord opts) = dest k * bytesPerWord opts /\
     0 <= dest k < q) ->
  exists out,
    for_each (positions (q * bytesPerWord opts) (bytesPerWord opts))
      (move_word opts addrTab dataTab na nd inData)
      (calloc (q * bytesPerWord opts)) = ret out /\
    length out = length inData /\
    (forall k j, 0 <= k < q -> 0 <= j < bytesPerWord opts ->
       (forall k', k < k' < q -> dest k' <> dest k) ->
       out !!! Z.to_nat (dest k * bytesPerWord opts + j)
       = byte_out opts (permute_data opts dataTab nd
                          (word_at opts inData (k * bytesPerWord opts))) j) /\
    (forall a j, 0 <= a < q -> 0 <= j < bytesPerWord opts ->
       (forall k, 0 <= k < q -> dest k <> a) ->
       out !!! Z.to_nat (a * bytesPerWord opts + j) = 0).
Proof.
  intros Hb Hq Hlen Hdest. set (bpw := bytesPerWord opts) in *.
  rewrite positions_exact, for_each_fmap by done.
  destruct (for_each_invariant
    (fun m out => length out = length inData /\
       (forall k j, 0 <= k < m -> 0 <= j < bpw ->
          (forall k', k < k' < m -> dest k' <> dest k) ->
          out !!! Z.to_nat (dest k * bpw + j)
          = byte_out opts (permute_data opts dataTab nd (word_at opts inData (k * bpw))) j) /\
       (forall a j, 0 <= a < q -> 0 <= j < bpw ->
          (forall k, 0 <= k < m -> dest k <> a) ->
          out !!! Z.to_nat (a * bpw + j) = 0))
    (fun k => move_word opts addrTab dataTab na nd inData (k * bpw))
    (Z.to_nat q) 0 (calloc (q * bpw))) as (out & Hrun & Hl & Hbytes & Hzero).
  - split_and!.
    + pose proof (calloc_length (q * bpw) ltac:(nia)). lia.
    + intros; lia.
    + intros. apply calloc_lookup. rewrite Z2Nat.id by nia. nia.
  - intros k out Hk (Hl & Hdone & Hzero). rewrite Z2Nat.id in Hk by lia.
    destruct (Hdest k ltac:(lia)) as [Haddr Hdk].
    destruct (move_word_writes opts addrTab dataTab na nd inData (k * bpw) out)
      as (out' & Hrun & Hl' & Hnew & Hold);
      [nia | fold bpw; nia | rewrite Haddr; nia | rewrite Haddr; fold bpw; nia |].
    rewrite Haddr in Hnew, Hold. fold bpw in Hnew, Hold.
    exists out'. split; [done|]. split_and!; [congruence | |].
    + intros k0 j Hk0 Hj Hlast. destruct (Z.eq_dec k0 k) as [->|Hne].
      * by apply Hnew.
      * assert (dest k <> dest k0) as Hd by (apply Hlast; lia).
        destruct (Hdest k0 ltac:(lia)) as [_ Hdk0].
        rewrite Hold by (rewrite Z2Nat.id by nia; nia).
        apply Hdone; [lia | done |]. intros k' Hk'. apply Hlast. lia.
    + intros a j Ha Hj Hnone.
      assert (dest k <> a) as Hd by (apply Hnone; lia).
      rewrite Hold by (rewrite Z2Nat.id by nia; nia).
      apply Hzero; [done | done |]. intros k' Hk'. apply Hnone. lia.
  - rewrite Z2Nat.id in * by lia. exists out. split_and!; [done | done | |].
    + intros k j Hk Hj Hlast. apply Hbytes; [lia | done |].
      intros k' Hk'. apply Hlast. lia.
    + intros a j Ha Hj Hnone. apply Hzero; [done | done |].
      intros k Hk. apply Hnone. lia.
Qed.

(** ** The working size in closed form *)

Lemma pow2_size_exact opts n :
  0 <= n < 2 ^ 33 ->
  result (pow2_size opts n)
  = Ret (if bool_decide (is_Some (addrBits opts)) then pow2_ceil n else n).
Proof.
  intros Hn. unfold pow2_ceil.
  destruct (Z.eq_dec n 0) as [->|Hne].
  { unfold pow2_size. cbn. by destruct (bool_decide _). }
  rewrite pow2_size_positive by lia.
  rewrite (proj2 (Z.ltb_lt 0 n)) by lia.
  destruct (bool_decide _), (is_pow2 n); reflexivity.
Qed.

Lemma pow2_ceil_bounds n :
  0 <= n <= 2 ^ 32 -> n <= pow2_ceil n <= 2 ^ 32.
Proof.
  intros Hn. unfold pow2_ceil.
  destruct (Z.ltb_spec 0 n) as [Hpos|]; cbn [andb]; [|lia].
  destruct (is_pow2 n) eqn:Hp; cbn [negb]; [lia|].
  pose proof (Z.log2_spec n Hpos) as Hlog.
  split; [lia|].
  assert (n <> 2 ^ 32) as Hne.
  { intros ->. by vm_compute in Hp. }
  apply Z.pow_le_mono_r; [lia|].
  assert (Z.log2 n < 32) by (apply Z.log2_lt_pow2; lia). lia.
Qed.

Lemma pow2_ceil_pow2 n : 0 < n -> is_pow2 (pow2_ceil n) = true.
Proof.
  intros Hn. unfold pow2_ceil. rewrite (proj2 (Z.ltb_lt 0 n)) by done. cbn [andb].
  destruct (is_pow2 n) eqn:Hp; cbn [negb]; [done|].
  apply is_pow2_spec. exists (Z.log2 n + 1). split; [|done].
  pose proof (Z.log2_nonneg n). lia.
Qed.

Lemma working_size_exact opts n :
  word_size_pow2 opts ->
  0 <= n <= 2 ^ 32 ->
  result (working_size opts n) = Ret (size_of_run opts n).
Proof.
  intros Hb Hn. unfold working_size, size_of_run.
  rewrite result_bind, pow2_size_exact by lia.
  pose proof (pow2_ceil_bounds n Hn).
  rewrite aligned_size_power2; [done | done |].
  destruct (bool_decide _); lia.
Qed.

Lemma size_of_run_bounds opts n :
  word_size_pow2 opts ->
  0 <= n <= 2 ^ 32 ->
  n <= size_of_run opts n <= 2 ^ 32 /\
  size_of_run opts n mod bytesPerWord opts = 0.
Proof.
  intros Hb Hn. unfold size_of_run.
  pose proof (pow2_ceil_bounds n Hn).
  set (P := if bool_decide _ then _ else _).
  assert (n <= P <= 2 ^ 32) as HP by (unfold P; destruct (bool_decide _); lia).
  pose proof (padded_bounds P (bytesPerWord opts)
                ltac:(destruct Hb as [-> | [-> | ->]]; lia) ltac:(lia)) as [Hp Hm].
  split; [|done]. split; [lia|].
  assert (2 ^ 32 mod bytesPerWord opts = 0) as H32
    by (destruct Hb as [-> | [-> | ->]]; reflexivity).
  clearbody P.
  apply Z.mod_divide in Hm as [k Hk]; [|destruct Hb as [-> | [-> | ->]]; lia].
  destruct Hb as [Hb | [Hb | Hb]]; rewrite Hb in *; change (2 ^ 32) with 4294967296 in *; lia.
Qed.

(** With an address spec, a working size of at least two words is a
    power of two, and so is its number of words. *)
Lemma size_of_run_words_pow2 opts n :
  word_size_pow2 opts ->
  0 <= n <= 2 ^ 32 ->
  is_Some (addrBits opts) ->
  2 * bytesPerWord opts <= size_of_run opts n ->
  size_of_run opts n = pow2_ceil n /\
  size_of_run opts n `quot` bytesPerWord opts
  = 2 ^ Z.log2 (size_of_run opts n `quot` bytesPerWord opts).
Proof.
  intros Hb Hn Ha Hmin. unfold size_of_run in *.
  rewrite bool_decide_eq_true_2 in * by done.
  assert (0 < n) as Hpos.
  { destruct (Z.eq_dec n 0) as [->|]; [|lia]. exfalso.
    change (pow2_ceil 0) with 0 in Hmin. unfold padded in Hmin.
    destruct Hb as [Hb | [Hb | Hb]]; rewrite Hb in Hmin; vm_compute in Hmin; by apply Hmin. }
  pose proof (pow2_ceil_pow2 n Hpos) as Hp.
  apply is_pow2_spec in Hp as (t & Ht & HP). rewrite HP in *.
  assert (exists b, 0 <= b <= 2 /\ bytesPerWord opts = 2 ^ b) as (b & Hb2 & Hbw).
  { destruct Hb as [-> | [-> | ->]]; [exists 0 | exists 1 | exists 2]; by split. }
  rewrite Hbw in *.
  assert (0 < 2 ^ b) by (apply Z.pow_pos_nonneg; lia).
  destruct (Z.le_gt_cases b t) as [Hbt|Hbt].
  - assert (2 ^ t = 2 ^ (t - b) * 2 ^ b) as Hsplit
      by (rewrite <- Z.pow_add_r by lia; f_equal; lia).
    assert (2 ^ t mod 2 ^ b = 0) as Hmod by (rewrite Hsplit; apply Z.mod_mul; lia).
    rewrite padded_exact by done. split; [done|].
    rewrite Hsplit at 1 2. rewrite Z.quot_mul by lia.
    by rewrite Z.log2_pow2 by lia.
  - exfalso.
    assert (2 ^ t < 2 ^ b) by (apply Z.pow_lt_mono_r; lia).
    pose proof (padded_bounds (2 ^ t) (2 ^ b) ltac:(lia) ltac:(lia)) as [Hpb _].
    lia.
Qed.

(** ** A run, stage by stage *)

Lemma swizzle_stages opts (file : list Byte.byte) :
  Z.of_nat (length file) < 2 ^ 63 ->
  swizzle opts file =
  let! inSize := working_size opts (Z.of_nat (length file)) in
  let! _ := when ((log2_int (inSize `quot` bytesPerWord opts) <? 1)
                  || (32 <? log2_int (inSize `quot` bytesPerWord opts)))
              (error AddrWidth) in
  let! addrTab := parse_table (addrBits opts)
                    (log2_int (inSize `quot` bytesPerWord opts)) "address" in
  let! dataTab := parse_table (dataBits opts) (8 * bytesPerWord opts) "data" in
  let! inData := fread (calloc inSize) file in
  for_each (positions inSize (bytesPerWord opts))
    (move_word opts addrTab dataTab
       (log2_int (inSize `quot` bytesPerWord opts)) (8 * bytesPerWord opts) inData)
    (calloc inSize).
Proof.
  intros Hn. unfold swizzle. cbv zeta. rewrite ftell_size by done.
  rewrite (proj2 (Z.ltb_ge _ 0)) by lia. cbn [when]. by rewrite bind_ret.
Qed.

Lemma dest_word_inside opts addrTab q k :
  word_size_pow2 opts ->
  2 <= q <= 2 ^ 32 ->
  (is_Some (addrBits opts) -> entries_in_range addrTab (Z.log2 q)) ->
  0 <= k < q ->
  out_addr opts addrTab (Z.log2 q) (k * bytesPerWord opts)
    = dest_word opts addrTab (Z.log2 q) k * bytesPerWord opts /\
  0 <= dest_word opts addrTab (Z.log2 q) k < q.
Proof.
  intros Hb Hq Htab Hk. unfold dest_word.
  assert (0 < bytesPerWord opts <= 4) as Hb' by (destruct Hb as [-> | [-> | ->]]; lia).
  destruct (bool_decide_reflect (is_Some (addrBits opts))) as [Ha|Ha].
  - pose proof (Z.log2_spec q ltac:(lia)) as Hlog.
    pose proof (Z.log2_nonneg q) as Hnn.
    assert (Z.log2 q <= 32) as H32.
    { destruct (Z.eq_dec q (2 ^ 32)) as [->|]; [by rewrite Z.log2_pow2|].
      apply Z.lt_le_incl, Z.log2_lt_pow2; lia. }
    destruct (out_addr_inside opts addrTab (Z.log2 q) (k * bytesPerWord opts))
      as (Heq & H0 & Hend); [done | lia | lia | by apply Htab | | |].
    + rewrite Z.quot_mul by lia. lia.
    + rewrite Z.quot_mul by lia. left. lia.
    + rewrite Z.quot_mul in Heq by lia. split; [lia|]. nia.
  - unfold out_addr. rewrite bool_decide_eq_false_2 by done. lia.
Qed.

Lemma swizzle_outcome opts (file : list Byte.byte) :
  word_size_pow2 opts ->
  Z.of_nat (length file) <= 2 ^ 32 ->
  let bpw := bytesPerWord opts in
  let W := size_of_run opts (Z.of_nat (length file)) in
  let q := W `quot` bpw in
  if q <? 2 then result (swizzle opts file) = Exit AddrWidth
  else
    match result (parse_table (addrBits opts) (Z.log2 q) "address") with
    | Ret addrTab =>
        match result (parse_table (dataBits opts) (8 * bpw) "data") with
        | Ret dataTab =>
            exists out,
              result (swizzle opts file) = Ret out /\
              Z.of_nat (length out) = W /\
              (forall k j, 0 <= k < q -> 0 <= j < bpw ->
                 (forall k', k < k' < q ->
                    dest_word opts addrTab (Z.log2 q) k'
                    <> dest_word opts addrTab (Z.log2 q) k) ->
                 out !!! Z.to_nat (dest_word opts addrTab (Z.log2 q) k * bpw + j)
                 = byte_out opts
                     (permute_data opts dataTab (8 * bpw)
                        (word_at opts (input_buffer file W) (k * bpw))) j) /\
              (forall a j, 0 <= a < q -> 0 <= j < bpw ->
                 (forall k, 0 <= k < q -> dest_word opts addrTab (Z.log2 q) k <> a) ->
                 out !!! Z.to_nat (a * bpw + j) = 0)
        | Exit e => result (swizzle opts file) = Exit e
        | Fault => False
        end
    | Exit e => result (swizzle opts file) = Exit e
    | Fault => False
    end.
Proof.
  intros Hb Hn bpw W q.
  assert (0 < bpw <= 4) as Hb' by (unfold bpw; destruct Hb as [-> | [-> | ->]]; lia).
  destruct (size_of_run_bounds opts (Z.of_nat (length file)) Hb ltac:(lia))
    as [HW Hmod]. fold W bpw in HW, Hmod.
  assert (W = q * bpw) as HWq.
  { unfold q. rewrite Z.quot_div_nonneg by lia.
    pose proof (Z.div_mod W bpw ltac:(lia)). lia. }
  assert (0 <= q <= 2 ^ 32) as Hq by nia.
  rewrite swizzle_stages by lia.
  rewrite result_bind, working_size_exact by (done || lia).
  fold W bpw q.
  destruct (Z.ltb_spec q 2) as [Hsmall|Hbig].
  { rewrite result_bind, result_when.
    assert (log2_int q < 1) as Hlog.
    { unfold log2_int. destruct (Z.ltb_spec 0 q); [|by compute].
      assert (q = 1) as -> by lia. by compute. }
    by rewrite (proj2 (Z.ltb_lt _ 1) Hlog). }
  pose proof (log2_int_words q ltac:(lia)) as Hlog.
  assert (log2_int q = Z.log2 q) as Hl
    by (unfold log2_int; by rewrite (proj2 (Z.ltb_lt 0 q)) by lia).
  rewrite Hl in *.
  rewrite result_bind, result_when.
  rewrite (proj2 (Z.ltb_ge _ 1)), (proj2 (Z.ltb_ge 32 _)) by lia. cbn [orb].
  rewrite result_bind.
  pose proof (parse_table_never_faults (addrBits opts) (Z.log2 q) "address" ltac:(lia)) as Hfa.
  destruct (result (parse_table (addrBits opts) (Z.log2 q) "address"))
    as [addrTab|e|] eqn:Haddr; [|done|done].
  rewrite result_bind.
  pose proof (parse_table_never_faults (dataBits opts) (8 * bpw) "data" ltac:(lia)) as Hfd.
  destruct (result (parse_table (dataBits opts) (8 * bpw) "data"))
    as [dataTab|e|] eqn:Hdata; [|done|done].
  rewrite fread_calloc, bind_ret by lia.
  destruct (transform_words opts addrTab dataTab (Z.log2 q) (8 * bpw)
              (input_buffer file W) q (dest_word opts addrTab (Z.log2 q)))
    as (out & Hrun & Hlen & Hbytes & Hzero); [lia | lia | | |].
  { rewrite length_input_buffer by lia. done. }
  { intros k Hk. apply dest_word_inside; [done | lia | | done].
    intros Ha. by apply (parse_table_in_range (addrBits opts) _ "address"); [lia | |]. }
  fold bpw in Hrun, Hbytes, Hzero. rewrite <- HWq in Hrun.
  exists out. rewrite Hrun. split_and!; [done | | done | done].
  rewrite Hlen. apply length_input_buffer. lia.
Qed.


(** ** parseBits: when it returns, when it counts *)

Lemma fill_reverse idxs : forall (dest : list Z) pos,
  pos = Z.of_nat (length idxs) ->
  pos <= Z.of_nat (length dest) ->
  fill idxs dest pos = reverse idxs ++ drop (Z.to_nat pos) dest.
Proof.
  induction idxs as [|x idxs IH]; intros dest pos Hpos Hd.
  - cbn in *. subst pos. by rewrite drop_0.
  - cbn [fill length] in *. rewrite (proj2 (Z.ltb_lt 0 pos)) by lia.
    rewrite IH by (rewrite ?length_insert; lia).
    rewrite reverse_cons, <- app_assoc. f_equal.
    replace (Z.to_nat pos) with (S (Z.to_nat (pos - 1))) by lia.
    rewrite insert_take_drop by lia.
    rewrite drop_app_length'; [done|].
    rewrite length_take. lia.
Qed.

(** X1.  For a table of at least [count] slots, parseBits returns exactly
    when the spec holds [count] tokens that all parse to indexes below
    [count].  The table returned holds the indexes in the reverse order
    of the tokens in its first [count] slots, the first token in slot
    [count - 1], and keeps the slots from [count] on. *)
Theorem parseBits_success (bits : string) (dest : list Z) (count : Z)
    (type : string) (table : list Z) :
  0 <= count <= Z.of_nat (length dest) ->
  result (parseBits bits dest count type) = Ret table <->
  Forall (in_range count) (strtok bits comma) /\
  Z.of_nat (length (strtok bits comma)) = count /\
  table = reverse (atoi <$> strtok bits comma) ++ drop (Z.to_nat count) dest.
Proof.
  intros Hc.
  destruct (first_invalid_split count (strtok bits comma))
    as [Hall | (pre & bad & post & Htoks & Hpre & Hbad)].
  - rewrite parseBits_result_in_range by (done || lia).
    destruct (Z.eqb_spec (Z.of_nat (length (strtok bits comma))) count) as [Hlen|Hlen].
    + rewrite fill_reverse by (rewrite ?length_fmap; lia).
      split.
      * intros [= <-]. done.
      * intros (_ & _ & ->). done.
    + split; [done | tauto].
  - rewrite (parseBits_result_invalid _ _ _ _ pre bad post) by (done || lia).
    split; [done|]. intros (Hall & _). exfalso. apply Hbad.
    rewrite Htoks, Forall_app, Forall_cons in Hall. tauto.
Qed.

Lemma parseBits_success_witness :
  result (parseBits "2,0,1" [9; 9; 9; 9] 3 "data") = Ret [1; 0; 2; 9] <->
  Forall (in_range 3) (strtok "2,0,1" comma) /\
  Z.of_nat (length (strtok "2,0,1" comma)) = 3 /\
  [1; 0; 2; 9] = reverse (atoi <$> strtok "2,0,1" comma) ++ drop (Z.to_nat 3) [9; 9; 9; 9].
Proof. apply (parseBits_success "2,0,1" [9; 9; 9; 9] 3 "data" [1; 0; 2; 9]). cbn. lia. Defined.

(** X2.  parseBits ends with the count error exactly when every token is
    in range and the number of tokens is not [count], be it smaller,
    larger or zero; the error carries [count], the axis label and the
    number of tokens. *)
Theorem parseBits_wrong_count (bits : string) (dest : list Z) (count : Z)
    (type : string) (expected : Z) (label : string) (found : Z) :
  count <= Z.of_nat (length dest) ->
  result (parseBits bits dest count type) = Exit (CountMismatch expected label found) <->
  Forall (in_range count) (strtok bits comma) /\
  Z.of_nat (length (strtok bits comma)) <> count /\
  expected = count /\ label = type /\
  found = Z.of_nat (length (strtok bits comma)).
Proof.
  intros Hc.
  destruct (first_invalid_split count (strtok bits comma))
    as [Hall | (pre & bad & post & Htoks & Hpre & Hbad)].
  - rewrite parseBits_result_in_range by (done || lia).
    destruct (Z.eqb_spec (Z.of_nat (length (strtok bits comma))) count) as [Hlen|Hlen].
    + split; [done | tauto].
    + split.
      * intros [= <- <- <-]. done.
      * intros (_ & _ & -> & -> & ->). done.
  - rewrite (parseBits_result_invalid _ _ _ _ pre bad post) by (done || lia).
    split; [done|]. intros (Hall & _). exfalso. apply Hbad.
    rewrite Htoks, Forall_app, Forall_cons in Hall. tauto.
Qed.

Lemma parseBits_wrong_count_witness :
  result (parseBits "" (replicate 32 0) 8 "address")
  = Exit (CountMismatch 8 "address" 0).
Proof.
  apply (parseBits_wrong_count "" (replicate 32 0) 8 "address" 8 "address" 0).
  - vm_compute. discriminate.
  - split_and!; [constructor | cbn; lia | reflexivity | reflexivity | reflexivity].
Defined.

(** The trace of the loop holds no warning exactly when no index comes
    twice. *)
Lemma loop_trace_quiet type idxs pos :
  (forall ty x, WarnDuplicate ty x ∉ loop_trace type idxs pos []) <-> NoDup idxs.
Proof.
  rewrite NoDup_alt. split.
  - intros Hq i j x Hi Hj.
    destruct (Nat.lt_trichotomy i j) as [Hlt | [Heq | Hgt]]; [|done|]; exfalso.
    + apply (Hq type x), (loop_trace_warns _ _ _ _ j); [done|]. right. by exists i.
    + apply (Hq type x), (loop_trace_warns _ _ _ _ i); [done|]. right. by exists j.
  - intros Hnd ty x Hin.
    apply loop_trace_warns_inv in Hin as (_ & j & Hj & [Hs | (i & Hi & Hx)]).
    + by apply elem_of_nil in Hs.
    + specialize (Hnd i j x Hx Hj). lia.
Qed.

(** A list of [count] indexes below [count] has no repetition exactly
    when it holds every index. *)
Lemma indexes_NoDup_onto (idxs : list Z) count :
  Z.of_nat (length idxs) = count ->
  Forall (fun x => 0 <= x < count) idxs ->
  NoDup idxs <-> (forall j, 0 <= j < count -> j ∈ idxs).
Proof.
  intros Hlen Hall. rewrite Forall_forall in Hall. split.
  - intros Hnd j Hj.
    assert (idxs ⊆+ seqZ 0 count) as Hsub.
    { apply NoDup_submseteq; [done|]. intros x Hx. apply elem_of_seqZ.
      specialize (Hall x Hx). lia. }
    apply submseteq_length_Permutation in Hsub; [|rewrite length_seqZ; lia].
    rewrite Hsub. apply elem_of_seqZ. lia.
  - intros Honto.
    assert (seqZ 0 count ⊆+ idxs) as Hsub.
    { apply NoDup_submseteq; [apply NoDup_seqZ|]. intros x Hx.
      apply elem_of_seqZ in Hx. apply Honto. lia. }
    apply submseteq_length_Permutation in Hsub; [|rewrite length_seqZ; lia].
    rewrite <- Hsub. apply NoDup_seqZ.
Qed.

(** X3.  The table of a successful parse of at most 32 indexes is a
    permutation of [0 .. count-1] exactly when the parse printed no
    duplicate warning. *)
Theorem parseBits_permutation (bits : string) (dest : list Z) (count : Z)
    (type : string) (table : list Z) :
  0 <= count <= 32 ->
  count <= Z.of_nat (length dest) ->
  result (parseBits bits dest count type) = Ret table ->
  is_permutation table count = true <->
  forall ty x, WarnDuplicate ty x ∉ trace (parseBits bits dest count type).
Proof.
  intros Hc Hd Hres.
  destruct (first_invalid_split count (strtok bits comma))
    as [Hall | (pre & bad & post & Htoks & Hpre & Hbad)];
    [|by rewrite (parseBits_result_invalid _ _ _ _ pre bad post) in Hres].
  rewrite parseBits_result_in_range in Hres by done.
  destruct (Z.eqb_spec (Z.of_nat (length (strtok bits comma))) count) as [Hlen|];
    [|done].
  injection Hres as <-.
  rewrite parseBits_trace, (loop_trace_eq _ _ _ _ _ _ []) by (done || lia || apply tracks_nil).
  rewrite loop_trace_quiet.
  set (idxs := atoi <$> strtok bits comma).
  assert (Z.of_nat (length idxs) = count) as Hl by (unfold idxs; by rewrite length_fmap).
  assert (Forall (fun x => 0 <= x < count) idxs) as Hr.
  { unfold idxs. apply Forall_fmap. done. }
  rewrite (indexes_NoDup_onto idxs count Hl Hr).
  assert (forall i, 0 <= i < count ->
            idxs !! Z.to_nat (count - 1 - i) = Some (fill idxs dest count !!! Z.to_nat i))
    as Hslot.
  { intros i Hi.
    destruct (lookup_lt_is_Some_2 idxs (Z.to_nat (count - 1 - i))) as [x Hx]; [lia|].
    pose proof (fill_lookup idxs dest count _ x Hd Hx ltac:(lia)) as Hf.
    replace (count - 1 - Z.of_nat (Z.to_nat (count - 1 - i))) with i in Hf by lia.
    by rewrite Hx, (list_lookup_total_correct _ _ _ Hf). }
  split.
  - intros Hp j Hj. apply is_permutation_spec in Hp as [_ Hs].
    destruct (Hs j Hj) as (i & Hi & <-).
    eapply list_elem_of_lookup_2. by apply Hslot.
  - intros Honto. apply is_permutation_intro.
    + intros i Hi. rewrite Forall_forall in Hr. apply Hr.
      eapply list_elem_of_lookup_2. by apply Hslot.
    + intros j Hj. destruct (list_elem_of_lookup_1 _ _ (Honto j Hj)) as [k Hk].
      pose proof (lookup_lt_Some _ _ _ Hk) as Hlt.
      exists (count - 1 - Z.of_nat k). split; [lia|].
      pose proof (Hslot (count - 1 - Z.of_nat k) ltac:(lia)) as Hs.
      replace (count - 1 - (count - 1 - Z.of_nat k)) with (Z.of_nat k) in Hs by lia.
      rewrite Nat2Z.id, Hk in Hs. by injection Hs as <-.
Qed.

Lemma parseBits_permutation_witness :
  is_permutation ([1; 0; 2] ++ replicate 29 0) 3 = true <->
  forall ty x,
    WarnDuplicate ty x ∉ trace (parseBits "2,0,1" (replicate 32 0) 3 "data").
Proof.
  apply (parseBits_permutation "2,0,1" (replicate 32 0) 3 "data");
    [lia | vm_compute; discriminate | vm_compute; reflexivity].
Defined.

(** ** Empty fields *)

Lemma strtok_from_delim delim (a b cur : string) :
  strtok_from delim (a ++ String delim b) cur
  = strtok_from delim a cur ++ strtok_from delim b EmptyString.
Proof.
  revert cur. induction a as [|c a IH]; intros cur; cbn [String.append strtok_from].
  - rewrite Ascii.eqb_refl. by destruct cur.
  - destruct (Ascii.eqb c delim); [|apply IH].
    destruct cur; by rewrite IH.
Qed.

Lemma strtok_delim (a b : string) :
  strtok (a ++ String comma b) comma = strtok a comma ++ strtok b comma.
Proof. apply strtok_from_delim. Qed.

Lemma parseBits_tokens bits bits' dest count type :
  strtok bits comma = strtok bits' comma ->
  parseBits bits dest count type = parseBits bits' dest count type.
Proof. intros H. unfold parseBits. by rewrite H. Qed.

(** X4.  Empty fields of a spec are skipped, as [strtok] does: a doubled
    comma reads as one and a comma at the start or at the end changes
    nothing, neither in the result nor in the diagnostics. *)
Theorem parseBits_empty_fields (a b : string) (dest : list Z) (count : Z)
    (type : string) :
  parseBits (a ++ ",," ++ b) dest count type
    = parseBits (a ++ "," ++ b) dest count type /\
  parseBits ("," ++ a) dest count type = parseBits a dest count type /\
  parseBits (a ++ ",") dest count type = parseBits a dest count type.
Proof.
  split_and!; apply parseBits_tokens.
  - change (a ++ ",," ++ b)%string with (a ++ String comma (String comma b))%string.
    change (a ++ "," ++ b)%string with (a ++ String comma b)%string.
    rewrite (strtok_delim a (String comma b)), (strtok_delim a b).
    f_equal.
  - reflexivity.
  - change (a ++ ",")%string with (a ++ String comma EmptyString)%string.
    rewrite strtok_delim. apply app_nil_r.
Qed.

(** ** swizzleWord: composing tables *)

(** The entries of a table of four indexes, one by one. *)
Ltac small_table :=
  let i := fresh "i" in let Hi := fresh "Hi" in
  intros i Hi;
  assert (i = 0 \/ i = 1 \/ i = 2 \/ i = 3) as [-> | [-> | [-> | ->]]] by lia;
  vm_compute; split; (discriminate || reflexivity).

(** X5.  For [count] from 0 to 32, two tables whose first [count]
    entries lie in [0 .. count-1] and a word below 2^32 (any
    [unsigned long] when [count < 32]), swizzling with the first table
    and then with the second is swizzling once with the composed table,
    which takes bit [i] from the source bit [first[second[i]]].  The
    tables need not be permutations. *)
Theorem swizzleWord_compose (word : Z) (first second : list Z) (count : Z) :
  0 <= count <= 32 ->
  entries_in_range first count ->
  entries_in_range second count ->
  0 <= word < 2 ^ 64 ->
  word < 2 ^ 32 \/ count < 32 ->
  swizzleWord (swizzleWord word first count) second count
  = swizzleWord word (compose_tables first second count) count.
Proof.
  intros Hc H1 H2 Hw Hor.
  assert (2 ^ count <= 2 ^ 32) by (apply Z.pow_le_mono_r; lia).
  pose proof (swizzleWord_range word first count Hc H1 Hw Hor) as Hr.
  assert (entries_in_range (compose_tables first second count) count) as H12.
  { intros i Hi. unfold compose_tables. rewrite lookup_total_seqZ_fmap by done.
    apply H1, H2, Hi. }
  apply Z.bits_inj'. intros k Hk.
  rewrite (swizzleWord_bits _ second), (swizzleWord_bits _ (compose_tables _ _ _))
    by (done || lia).
  destruct (Z.ltb_spec k count) as [Hlt|Hge]; cbn [andb]; [|done].
  pose proof (H2 k ltac:(lia)) as Hk2.
  rewrite swizzleWord_bits by (done || lia).
  unfold compose_tables. rewrite lookup_total_seqZ_fmap by lia.
  by rewrite (proj2 (Z.ltb_lt _ _)) by lia.
Qed.

Lemma swizzleWord_compose_witness :
  swizzleWord (swizzleWord 178 [2; 0; 3; 1] 4) [3; 3; 0; 1] 4
  = swizzleWord 178 (compose_tables [2; 0; 3; 1] [3; 3; 0; 1] 4) 4.
Proof.
  apply swizzleWord_compose; [lia | small_table | small_table | lia | right; lia].
Defined.

(** X6.  For [count] from 0 to 32 and a word below 2^32 (any
    [unsigned long] when [count < 32]), the table [0, 1, .., count-1]
    keeps the [count] low bits of the word and clears the others. *)
Theorem swizzleWord_identity_table (word : Z) (count : Z) :
  0 <= count <= 32 ->
  0 <= word < 2 ^ 64 ->
  word < 2 ^ 32 \/ count < 32 ->
  swizzleWord word (identity_table count) count = word mod 2 ^ count.
Proof.
  intros Hc Hw Hor.
  assert (entries_in_range (identity_table count) count) as Hid.
  { intros i Hi. unfold identity_table.
    rewrite <- (list_fmap_id (seqZ 0 count)), lookup_total_seqZ_fmap by done. done. }
  apply Z.bits_inj'. intros k Hk.
  rewrite swizzleWord_bits by (done || lia).
  rewrite <- Z.land_ones, Z.land_spec, Z.testbit_ones_nonneg by lia.
  destruct (Z.ltb_spec k count) as [Hlt|Hge]; cbn [andb]; [|by rewrite andb_false_r].
  unfold identity_table.
  rewrite <- (list_fmap_id (seqZ 0 count)), lookup_total_seqZ_fmap by lia.
  by rewrite andb_true_r.
Qed.

Lemma swizzleWord_identity_table_witness :
  swizzleWord 2989 (identity_table 8) 8 = 2989 mod 2 ^ 8.
Proof. apply swizzleWord_identity_table; [lia | lia | right; lia]. Defined.

(** X7.  For [count] from 0 to 32, a table whose first [count] entries
    lie in [0 .. count-1] and two words that are both below 2^32 (any two
    [unsigned long] when [count < 32]), swizzleWord commutes with the
    bitwise or, and, and exclusive or of the two words. *)
Theorem swizzleWord_bitwise (a b : Z) (table : list Z) (count : Z) :
  0 <= count <= 32 ->
  entries_in_range table count ->
  0 <= a < 2 ^ 64 -> 0 <= b < 2 ^ 64 ->
  (a < 2 ^ 32 /\ b < 2 ^ 32) \/ count < 32 ->
  swizzleWord (Z.lor a b) table count
    = Z.lor (swizzleWord a table count) (swizzleWord b table count) /\
  swizzleWord (Z.land a b) table count
    = Z.land (swizzleWord a table count) (swizzleWord b table count) /\
  swizzleWord (Z.lxor a b) table count
    = Z.lxor (swizzleWord a table count) (swizzleWord b table count).
Proof.
  intros Hc Htab Ha Hb Hor.
  assert (forall n, 0 <= n -> a < 2 ^ n -> b < 2 ^ n -> 0 <= Z.lxor a b < 2 ^ n) as Hx.
  { intros n Hn Han Hbn. split; [apply Z.lxor_nonneg; lia|].
    apply below_pow2_of_bits; [done | apply Z.lxor_nonneg; lia |].
    intros k Hk. rewrite Z.lxor_spec.
    by rewrite (testbit_high n a), (testbit_high n b) by lia. }
  pose proof (lor_range 64 a b ltac:(lia) Ha Hb).
  pose proof (land_range 64 a b ltac:(lia) Hb).
  pose proof (Hx 64 ltac:(lia) ltac:(lia) ltac:(lia)).
  assert (Z.lor a b < 2 ^ 32 /\ Z.land a b < 2 ^ 32 /\ Z.lxor a b < 2 ^ 32 \/ count < 32)
    as Hor'.
  { destruct Hor as [[Ha' Hb'] | Hlt]; [left|by right].
    pose proof (lor_range 32 a b ltac:(lia) ltac:(lia) ltac:(lia)).
    pose proof (land_range 32 a b ltac:(lia) ltac:(lia)).
    pose proof (Hx 32 ltac:(lia) ltac:(lia) ltac:(lia)). lia. }
  split_and!; apply Z.bits_inj'; intros k Hk;
    rewrite ?Z.lor_spec, ?Z.land_spec, ?Z.lxor_spec;
    rewrite !swizzleWord_bits by (done || lia);
    rewrite ?Z.lor_spec, ?Z.land_spec, ?Z.lxor_spec;
    destruct (k <? count), (Z.testbit a _), (Z.testbit b _); reflexivity.
Qed.

Lemma swizzleWord_bitwise_witness :
  swizzleWord (Z.lor 5 12) [2; 0; 3; 1] 4
  = Z.lor (swizzleWord 5 [2; 0; 3; 1] 4) (swizzleWord 12 [2; 0; 3; 1] 4).
Proof.
  apply (swizzleWord_bitwise 5 12 [2; 0; 3; 1] 4);
    [lia | small_table | lia | lia | right; lia].
Defined.


(** ** The meaning of a spec *)

(** X8.  The meaning of a spec, parseBits and swizzleWord together.
    For [count] from 0 to 32 and a spec that parseBits parses into the
    zeroed table, the token at place [k] from the left, the most
    significant first, names the source bit of destination bit
    [count - 1 - k]: the token is an index below [count], and for a word
    below 2^32 (any [unsigned long] when [count < 32]) bit
    [count - 1 - k] of the word swizzled with the parsed table is the
    bit of the word at that index. *)
Theorem spec_token_names_source_bit (bits : string) (count : Z) (type : string)
    (table : list Z) (word : Z) (k : nat) (token : string) :
  0 <= count <= 32 ->
  result (parseBits bits (replicate 32 0) count type) = Ret table ->
  0 <= word < 2 ^ 64 ->
  word < 2 ^ 32 \/ count < 32 ->
  strtok bits comma !! k = Some token ->
  0 <= atoi token < count /\
  Z.testbit (swizzleWord word table count) (count - 1 - Z.of_nat k)
  = Z.testbit word (atoi token).
Proof.
  intros Hc Hres Hw Hor Hk.
  assert (count <= Z.of_nat (length (replicate 32 0))) as Hd
    by (rewrite length_replicate; lia).
  pose proof (parseBits_table_in_range _ _ _ _ _ Hd Hres) as Htab.
  destruct (first_invalid_split count (strtok bits comma))
    as [Hall | (pre & bad & post & Htoks & Hpre & Hbad)];
    [|by rewrite (parseBits_result_invalid _ _ _ _ pre bad post) in Hres].
  rewrite parseBits_result_in_range in Hres by done.
  destruct (Z.eqb_spec (Z.of_nat (length (strtok bits comma))) count) as [Hlen|];
    [|done].
  injection Hres as <-.
  pose proof (lookup_lt_Some _ _ _ Hk) as Hlt.
  pose proof (fill_lookup (atoi <$> strtok bits comma) (replicate 32 0) count
                k (atoi token) Hd) as Hfill.
  rewrite list_lookup_fmap, Hk in Hfill. specialize (Hfill eq_refl ltac:(lia)).
  apply list_lookup_total_correct in Hfill.
  split.
  - rewrite Forall_forall in Hall. apply Hall. by apply list_elem_of_lookup_2 in Hk.
  - rewrite swizzleWord_bits by (done || lia).
    rewrite (proj2 (Z.ltb_lt (count - 1 - Z.of_nat k) count)) by lia.
    cbn [andb]. exact (f_equal (Z.testbit word) Hfill).
Qed.

Lemma spec_token_names_source_bit_witness :
  0 <= atoi "0" < 8 /\
  Z.testbit (swizzleWord 1 ([7; 6; 5; 4; 3; 2; 1; 0] ++ replicate 24 0) 8)
            (8 - 1 - Z.of_nat 0)
  = Z.testbit 1 (atoi "0").
Proof.
  apply (spec_token_names_source_bit "0,1,2,3,4,5,6,7" 8 "data"
           ([7; 6; 5; 4; 3; 2; 1; 0] ++ replicate 24 0) 1 0 "0");
    [lia | vm_compute; reflexivity | lia | right; lia | reflexivity].
Defined.



(** ** Runs with words of 1, 2 or 4 bytes *)

(** X9.  With words of 1, 2 or 4 bytes and a file of at most 2^32 bytes,
    whatever the specs and the byte order, a run never reads or writes
    outside the table of parseBits or the two buffers of the driver. *)
Theorem swizzle_stays_inside_buffers (opts : swizzle_t) (file : list Byte.byte) :
  bytesPerWord opts = 1 \/ bytesPerWord opts = 2 \/ bytesPerWord opts = 4 ->
  Z.of_nat (length file) <= 2 ^ 32 ->
  result (swizzle opts file) <> Fault.
Proof.
  intros Hb Hn. pose proof (swizzle_outcome opts file Hb Hn) as H. cbv zeta in H.
  destruct (_ <? 2); [by rewrite H|].
  destruct (result (parse_table (addrBits opts) _ _)) as [addrTab|e|];
    [|by rewrite H|done].
  destruct (result (parse_table (dataBits opts) _ _)) as [dataTab|e|];
    [|by rewrite H|done].
  destruct H as (out & -> & _). done.
Qed.

Lemma swizzle_stays_inside_buffers_witness :
  result (swizzle {| addrBits := Some "0,1"%string; dataBits := None;
                     bytesPerWord := 2; bigEndian := false |}
                  [Byte.x01; Byte.x02; Byte.x03; Byte.x04; Byte.x05]) <> Fault.
Proof.
  apply swizzle_stays_inside_buffers; [right; left; reflexivity | cbn; lia].
Defined.

(** X10.  The order of the checks of a run with words of 1, 2 or 4 bytes
    on a file of at most 2^32 bytes, where the address width cannot
    exceed 32: a working size of fewer than two words stops the run with
    the error on the address width before any spec is parsed; then an
    error of the address spec is reported, then one of the data spec;
    otherwise the run returns an output of the working size. *)
Theorem swizzle_error_order (opts : swizzle_t) (file : list Byte.byte) :
  bytesPerWord opts = 1 \/ bytesPerWord opts = 2 \/ bytesPerWord opts = 4 ->
  Z.of_nat (length file) <= 2 ^ 32 ->
  let W := size_of_run opts (Z.of_nat (length file)) in
  let na := Z.log2 (W / bytesPerWord opts) in
  let address := result (parse_table (addrBits opts) na "address") in
  let data := result (parse_table (dataBits opts) (8 * bytesPerWord opts) "data") in
  (W < 2 * bytesPerWord opts /\ result (swizzle opts file) = Exit AddrWidth) \/
  (2 * bytesPerWord opts <= W /\
   ((exists e, address = Exit e /\ result (swizzle opts file) = Exit e) \/
    (exists addrTab e, address = Ret addrTab /\ data = Exit e /\
       result (swizzle opts file) = Exit e) \/
    (exists addrTab dataTab out, address = Ret addrTab /\ data = Ret dataTab /\
       result (swizzle opts file) = Ret out /\ Z.of_nat (length out) = W))).
Proof.
  intros Hb Hn W na address data.
  pose proof (swizzle_outcome opts file Hb Hn) as H. cbv zeta in H.
  destruct (size_of_run_bounds opts (Z.of_nat (length file)) Hb ltac:(lia))
    as [HW Hmod]. fold W in HW, Hmod, H.
  assert (0 < bytesPerWord opts) as Hpos by (destruct Hb as [-> | [-> | ->]]; lia).
  rewrite Z.quot_div_nonneg in H by lia. fold na address data in H.
  pose proof (Z.div_mod W (bytesPerWord opts) ltac:(lia)) as Hdm.
  destruct (Z.ltb_spec (W / bytesPerWord opts) 2) as [Hsmall|Hbig].
  { left. split; [nia | done]. }
  right. split; [nia|].
  destruct address as [addrTab|e|]; [|left; by exists e|done].
  destruct data as [dataTab|e|]; [|right; left; by exists addrTab, e|done].
  destruct H as (out & Hrun & Hlen & _).
  right; right. by exists addrTab, dataTab, out.
Qed.

Lemma swizzle_error_order_witness :
  result (swizzle {| addrBits := Some "5,0"%string; dataBits := Some "9"%string;
                     bytesPerWord := 1; bigEndian := false |}
                  [Byte.x01; Byte.x02; Byte.x03; Byte.x04])
  = Exit (InvalidIndex "address" 5 1).
Proof.
  destruct (swizzle_error_order
              {| addrBits := Some "5,0"%string; dataBits := Some "9"%string;
                 bytesPerWord := 1; bigEndian := false |}
              [Byte.x01; Byte.x02; Byte.x03; Byte.x04]
              ltac:(left; reflexivity) ltac:(cbn; lia))
    as [[H _] | [_ [(e & He & Hr) | [(t & e & Ht & _) | (t & t' & o & Ht & _)]]]].
  - vm_compute in H. discriminate H.
  - vm_compute in He. injection He as <-. exact Hr.
  - vm_compute in Ht. discriminate Ht.
  - vm_compute in Ht. discriminate Ht.
Defined.

(** X11.  The output of a run that returns, for words of 1, 2 or 4 bytes
    and a file of at most 2^32 bytes: its size is the working size, it is
    never shorter than the input, it holds at least two words and a whole
    number of words, it is a power of two when an address spec is given,
    and without one it exceeds the input by less than a word. *)
Theorem swizzle_output_size (opts : swizzle_t) (file : list Byte.byte)
    (out : list Z) :
  bytesPerWord opts = 1 \/ bytesPerWord opts = 2 \/ bytesPerWord opts = 4 ->
  Z.of_nat (length file) <= 2 ^ 32 ->
  result (swizzle opts file) = Ret out ->
  Z.of_nat (length out) = size_of_run opts (Z.of_nat (length file)) /\
  Z.of_nat (length file) <= Z.of_nat (length out) /\
  2 * bytesPerWord opts <= Z.of_nat (length out) /\
  Z.of_nat (length out) mod bytesPerWord opts = 0 /\
  (is_Some (addrBits opts) -> is_pow2 (Z.of_nat (length out)) = true) /\
  (addrBits opts = None ->
     Z.of_nat (length out) < Z.of_nat (length file) + bytesPerWord opts).
Proof.
  intros Hb Hn Hout.
  assert (0 < bytesPerWord opts) as Hpos by (destruct Hb as [-> | [-> | ->]]; lia).
  destruct (size_of_run_bounds opts (Z.of_nat (length file)) Hb ltac:(lia))
    as [HW Hmod].
  pose proof (swizzle_outcome opts file Hb Hn) as H. cbv zeta in H.
  rewrite Z.quot_div_nonneg in H by lia.
  pose proof (Z.div_mod (size_of_run opts (Z.of_nat (length file)))
                (bytesPerWord opts) ltac:(lia)) as Hdm.
  destruct (Z.ltb_spec (size_of_run opts (Z.of_nat (length file)) / bytesPerWord opts) 2)
    as [Hsmall|Hbig]; [by rewrite H in Hout|].
  assert (2 * bytesPerWord opts <= size_of_run opts (Z.of_nat (length file)))
    as Hmin by nia.
  destruct (result (parse_table (addrBits opts) _ _)) as [addrTab|e|];
    [|by rewrite H in Hout|done].
  destruct (result (parse_table (dataBits opts) _ _)) as [dataTab|e|];
    [|by rewrite H in Hout|done].
  destruct H as (out' & H & Hlen & _). rewrite H in Hout.
  injection Hout as ->. rewrite Hlen.
  split_and!; [done | lia | done | done | |].
  - intros Ha.
    destruct (size_of_run_words_pow2 opts (Z.of_nat (length file)) Hb ltac:(lia) Ha Hmin)
      as [-> _].
    apply pow2_ceil_pow2.
    destruct (Z.eq_dec (Z.of_nat (length file)) 0) as [H0|]; [|lia].
    exfalso. unfold size_of_run in Hmin. rewrite H0 in Hmin.
    rewrite bool_decide_eq_true_2 in Hmin by done.
    change (pow2_ceil 0) with 0 in Hmin.
    pose proof (padded_bounds 0 (bytesPerWord opts) Hpos ltac:(lia)). lia.
  - intros Ha. unfold size_of_run. rewrite Ha.
    rewrite bool_decide_eq_false_2 by (by intros [? ?]).
    pose proof (padded_bounds (Z.of_nat (length file)) (bytesPerWord opts) Hpos ltac:(lia)).
    lia.
Qed.

Lemma swizzle_output_size_witness :
  result (swizzle {| addrBits := None; dataBits := None;
                     bytesPerWord := 2; bigEndian := false |}
                  [Byte.x01; Byte.x02; Byte.x03; Byte.x04; Byte.x05])
  = Ret [1; 2; 3; 4; 5; 0] /\
  Z.of_nat (length [Byte.x01; Byte.x02; Byte.x03; Byte.x04; Byte.x05])
  <= Z.of_nat (length [1; 2; 3; 4; 5; 0]).
Proof.
  assert (result (swizzle {| addrBits := None; dataBits := None;
                             bytesPerWord := 2; bigEndian := false |}
                          [Byte.x01; Byte.x02; Byte.x03; Byte.x04; Byte.x05])
          = Ret [1; 2; 3; 4; 5; 0]) as Hrun by (vm_compute; reflexivity).
  split; [exact Hrun|].
  exact (proj1 (proj2 (swizzle_output_size
                         {| addrBits := None; dataBits := None;
                            bytesPerWord := 2; bigEndian := false |}
                         [Byte.x01; Byte.x02; Byte.x03; Byte.x04; Byte.x05]
                         [1; 2; 3; 4; 5; 0]
                         ltac:(right; left; reflexivity) ltac:(cbn; lia) Hrun))).
Defined.

(** ** Runs with an address spec *)

Lemma gather_range word table count :
  0 <= count -> 0 <= word ->
  0 <= gather word table count < 2 ^ count.
Proof.
  intros Hc Hw.
  assert (0 <= gather word table count) as H0.
  { apply Z.bits_iff_nonneg_ex. exists count. intros k Hk.
    rewrite gather_bits by lia. by rewrite (proj2 (Z.ltb_ge _ _)) by lia. }
  split; [done|]. apply below_pow2_of_bits; [done | done |].
  intros k Hk. rewrite gather_bits by lia.
  by rewrite (proj2 (Z.ltb_ge _ _)) by lia.
Qed.

Lemma gather_injective table count k k' :
  is_permutation table count = true ->
  0 <= count ->
  0 <= k < 2 ^ count -> 0 <= k' < 2 ^ count ->
  gather k table count = gather k' table count -> k = k'.
Proof.
  intros Hp Hc Hk Hk' Heq. apply is_permutation_spec in Hp as [_ Hs].
  apply Z.bits_inj'. intros j Hj.
  destruct (Z.lt_ge_cases j count) as [Hlt|Hge].
  - destruct (Hs j ltac:(lia)) as (i & Hi & <-).
    pose proof (gather_bits k table count i ltac:(lia)) as H1.
    pose proof (gather_bits k' table count i ltac:(lia)) as H2.
    rewrite (proj2 (Z.ltb_lt _ _)) in H1, H2 by lia. cbn [andb] in H1, H2.
    congruence.
  - by rewrite !(testbit_high count) by lia.
Qed.

(** With an address spec the working size is the size rounded up to a
    power of two, as soon as that is two words or more. *)
Lemma size_of_run_address opts n :
  word_size_pow2 opts ->
  0 <= n <= 2 ^ 32 ->
  is_Some (addrBits opts) ->
  2 * bytesPerWord opts <= pow2_ceil n ->
  size_of_run opts n = pow2_ceil n /\
  size_of_run opts n `quot` bytesPerWord opts
  = 2 ^ Z.log2 (size_of_run opts n `quot` bytesPerWord opts).
Proof.
  intros Hb Hn Ha Hmin.
  apply size_of_run_words_pow2; [done | done | done |].
  unfold size_of_run. rewrite bool_decide_eq_true_2 by done.
  pose proof (pow2_ceil_bounds n Hn).
  pose proof (padded_bounds (pow2_ceil n) (bytesPerWord opts)
                ltac:(destruct Hb as [-> | [-> | ->]]; lia) ltac:(lia)).
  lia.
Qed.

(** A run with an address spec and no data spec, byte by byte: an
    output word holds the last input word sent to it, and zeros when none
    is. *)
Lemma address_run opts (file : list Byte.byte) bits addrTab :
  word_size_pow2 opts ->
  Z.of_nat (length file) <= 2 ^ 32 ->
  addrBits opts = Some bits ->
  dataBits opts = None ->
  let bpw := bytesPerWord opts in
  let W := pow2_ceil (Z.of_nat (length file)) in
  let na := Z.log2 (W / bpw) in
  2 * bpw <= W ->
  result (parseBits bits (replicate 32 0) na "address") = Ret addrTab ->
  exists out,
    result (swizzle opts file) = Ret out /\
    Z.of_nat (length out) = W /\
    W = bpw * 2 ^ na /\
    0 <= na /\
    (forall k j, 0 <= k < 2 ^ na -> 0 <= j < bpw ->
       (forall k', k < k' < 2 ^ na -> gather k' addrTab na <> gather k addrTab na) ->
       out !!! Z.to_nat (bpw * gather k addrTab na + j)
       = input_buffer file W !!! Z.to_nat (bpw * k + j)) /\
    (forall a j, 0 <= a < 2 ^ na -> 0 <= j < bpw ->
       (forall k, 0 <= k < 2 ^ na -> gather k addrTab na <> a) ->
       out !!! Z.to_nat (bpw * a + j) = 0).
Proof.
  intros Hb Hn Ha Hd bpw W na Hmin Hparse.
  assert (0 < bpw <= 4) as Hpos by (unfold bpw; destruct Hb as [-> | [-> | ->]]; lia).
  pose proof (swizzle_outcome opts file Hb ltac:(lia)) as H. cbv zeta in H.
  destruct (size_of_run_bounds opts (Z.of_nat (length file)) Hb ltac:(lia))
    as [HW Hmod].
  destruct (size_of_run_address opts (Z.of_nat (length file)) Hb ltac:(lia)
              ltac:(by rewrite Ha) Hmin) as [HWeq Hq].
  rewrite HWeq in *. fold W bpw in H, HW, Hmod, Hq.
  rewrite Z.quot_div_nonneg in H, Hq by lia. fold na in H, Hq.
  pose proof (Z.div_mod W bpw ltac:(lia)) as Hdm.
  pose proof (Z.log2_nonneg (W / bpw)) as Hna. fold na in Hna.
  rewrite (proj2 (Z.ltb_ge _ 2)) in H by nia.
  rewrite Ha, Hd in H. cbn [parse_table] in H. rewrite Hparse in H.
  cbn [ret result snd] in H.
  destruct H as (out & Hrun & Hlen & Hbytes & Hzero).
  unfold dest_word in Hbytes, Hzero. rewrite Ha in Hbytes, Hzero.
  rewrite bool_decide_eq_true_2 in Hbytes, Hzero by (by eexists).
  rewrite Hq in Hbytes, Hzero.
  exists out. split_and!; [done | done | lia | done | |].
  - intros k j Hk Hj Hlast.
    replace (bpw * gather k addrTab na + j) with (gather k addrTab na * bpw + j) by lia.
    rewrite Hbytes by done.
    unfold permute_data. rewrite Hd.
    rewrite bool_decide_eq_false_2 by (by intros [? ?]).
    replace (bpw * k) with (k * bpw) by lia.
    apply byte_out_word_at; [unfold bpw in Hpos; lia | done |].
    intros i _. apply input_buffer_is_byte.
  - intros a j Ha' Hj Hnone.
    replace (bpw * a + j) with (a * bpw + j) by lia. by apply Hzero.
Qed.



(** X13.  With words of 1, 2 or 4 bytes, a file of at most 2^32 bytes
    whose size rounded up to a power of two, [W], is at least two words,
    no data spec, and an address spec that parses for the address width
    [log2 (W / bpw)], be its table a permutation or not, the run
    returns.  Where input words collide, an output word holds the input
    word of highest index sent to it: a word of the input padded with
    zeros to [W] is found at its place when no later word is sent
    there.  An output word that no input word is sent to holds zeros. *)
Theorem swizzle_address_collisions (opts : swizzle_t) (file : list Byte.byte)
    (bits : string) (addrTab : list Z) :
  bytesPerWord opts = 1 \/ bytesPerWord opts = 2 \/ bytesPerWord opts = 4 ->
  Z.of_nat (length file) <= 2 ^ 32 ->
  addrBits opts = Some bits ->
  dataBits opts = None ->
  let bpw := bytesPerWord opts in
  let W := pow2_ceil (Z.of_nat (length file)) in
  let na := Z.log2 (W / bpw) in
  2 * bpw <= W ->
  result (parseBits bits (replicate 32 0) na "address") = Ret addrTab ->
  exists out,
    result (swizzle opts file) = Ret out /\
    (forall k, 0 <= k < 2 ^ na ->
       (forall k', k < k' < 2 ^ na -> gather k' addrTab na <> gather k addrTab na) ->
       word_bytes opts out (bpw * gather k addrTab na)
       = word_bytes opts (input_buffer file W) (bpw * k)) /\
    (forall a, 0 <= a < 2 ^ na ->
       (forall k, 0 <= k < 2 ^ na -> gather k addrTab na <> a) ->
       word_bytes opts out (bpw * a) = replicate (Z.to_nat bpw) 0).
Proof.
  intros Hb Hn Ha Hd bpw W na Hmin Hparse.
  destruct (address_run opts file bits addrTab Hb Hn Ha Hd Hmin Hparse)
    as (out & Hrun & Hlen & HW & Hna & Hbytes & Hzero).
  fold bpw W na in Hrun, Hlen, HW, Hna, Hbytes, Hzero.
  exists out. split_and!; [done | |].
  - intros k Hk Hlast.
    unfold word_bytes. apply list_fmap_ext. intros n j Hj.
    apply list_elem_of_lookup_2, elem_of_seqZ in Hj. fold bpw in Hj.
    apply Hbytes; [done | lia | done].
  - intros a Ha' Hnone. unfold word_bytes. fold bpw.
    apply (list_eq_same_length _ _ (Z.to_nat bpw));
      [by rewrite length_replicate | by rewrite length_fmap, length_seqZ |].
    intros i x y Hi Hx Hy.
    apply lookup_replicate in Hy as [-> _].
    rewrite list_lookup_fmap in Hx.
    destruct (seqZ 0 bpw !! i) as [j|] eqn:Hj; [|done].
    apply lookup_seqZ in Hj as [-> Hj]. cbn in Hx. injection Hx as <-.
    apply Hzero; [done | lia | done].
Qed.

Lemma swizzle_address_collisions_witness :
  exists out,
    result (swizzle {| addrBits := Some "0,0"%string; dataBits := None;
                       bytesPerWord := 1; bigEndian := false |}
                    [Byte.x0a; Byte.x0b; Byte.x0c; Byte.x0d]) = Ret out.
Proof.
  destruct (swizzle_address_collisions
              {| addrBits := Some "0,0"%string; dataBits := None;
                 bytesPerWord := 1; bigEndian := false |}
              [Byte.x0a; Byte.x0b; Byte.x0c; Byte.x0d]
              "0,0" (replicate 32 0)
              ltac:(left; reflexivity) ltac:(cbn; lia) eq_refl eq_refl
              ltac:(vm_compute; discriminate)
              ltac:(vm_compute; reflexivity))
    as (out & Hrun & _).
  exists out. exact Hrun.
Defined.

(** ** Both permutations at once *)

Lemma word_bytes_are_bytes opts (file : list Byte.byte) W pos :
  Forall (fun b => 0 <= b < 2 ^ 8) (word_bytes opts (input_buffer file W) pos).
Proof.
  unfold word_bytes. apply Forall_fmap, Forall_forall. intros i _.
  apply input_buffer_is_byte.
Qed.

Lemma length_word_bytes opts (buf : list Z) pos :
  0 <= bytesPerWord opts ->
  Z.of_nat (length (word_bytes opts buf pos)) = bytesPerWord opts.
Proof. intros Hb. unfold word_bytes. rewrite length_fmap, length_seqZ. lia. Qed.

Lemma assemble_range big (bytes : list Z) :
  Forall (fun b => 0 <= b < 2 ^ 8) bytes ->
  0 <= assemble big bytes < 2 ^ (8 * Z.of_nat (length bytes)).
Proof.
  intros Hall. unfold assemble.
  pose proof (little_endian_to_Z_bound 8 (if big then reverse bytes else bytes)
                ltac:(lia)) as H.
  replace (Z.of_nat (length (if big then reverse bytes else bytes)) * 8)
    with (8 * Z.of_nat (length bytes)) in H
    by (destruct big; rewrite ?length_reverse; lia).
  apply H. destruct big; [by apply Forall_reverse | done].
Qed.

(** A run with words of 1, 2 or 4 bytes and specs that parse, word by
    word. *)
Lemma run_words opts (file : list Byte.byte) addrTab dataTab :
  bytesPerWord opts = 1 \/ bytesPerWord opts = 2 \/ bytesPerWord opts = 4 ->
  Z.of_nat (length file) <= 2 ^ 32 ->
  let bpw := bytesPerWord opts in
  let W := size_of_run opts (Z.of_nat (length file)) in
  let q := W / bpw in
  let na := Z.log2 q in
  2 * bpw <= W ->
  result (parse_table (addrBits opts) na "address") = Ret addrTab ->
  result (parse_table (dataBits opts) (8 * bpw) "data") = Ret dataTab ->
  exists out,
    result (swizzle opts file) = Ret out /\
    Z.of_nat (length out) = W /\
    forall k, 0 <= k < q ->
      (forall k', k < k' < q ->
         dest_word opts addrTab na k' <> dest_word opts addrTab na k) ->
      (dataBits opts = None \/
       (bpw = 4 ->
        input_buffer file W !!! Z.to_nat (bpw * k + (if bigEndian opts then 0 else 3))
        < 2 ^ 7)) ->
      0 <= dest_word opts addrTab na k < q /\
      word_bytes opts out (bpw * dest_word opts addrTab na k)
      = disassemble (bigEndian opts) bpw
          (let v := assemble (bigEndian opts)
                      (word_bytes opts (input_buffer file W) (bpw * k)) in
           if bool_decide (is_Some (dataBits opts))
           then gather v dataTab (8 * bpw) else v).
Proof.
  intros Hb Hn bpw W q na Hmin Haddr Hdata.
  assert (0 < bpw <= 4) as Hpos by (unfold bpw; destruct Hb as [-> | [-> | ->]]; lia).
  pose proof (swizzle_outcome opts file Hb ltac:(lia)) as H. cbv zeta in H.
  destruct (size_of_run_bounds opts (Z.of_nat (length file)) Hb ltac:(lia))
    as [HW Hmod]. fold W bpw in H, HW, Hmod.
  rewrite Z.quot_div_nonneg in H by lia. fold q na in H.
  pose proof (Z.div_mod W bpw ltac:(lia)) as Hdm. fold q in Hdm.
  assert (2 <= q <= 2 ^ 32) as Hq by nia.
  rewrite (proj2 (Z.ltb_ge _ 2)) in H by lia.
  rewrite Haddr, Hdata in H.
  destruct H as (out & Hrun & Hlen & Hbytes & _).
  exists out. split_and!; [done | done |].
  intros k Hk Hlast Hclean. cbv zeta.
  assert (0 <= dest_word opts addrTab na k < q) as Hd.
  { apply (dest_word_inside opts addrTab q k Hb Hq); [|done].
    intros Ha. by apply (parse_table_in_range (addrBits opts) _ "address");
      [pose proof (Z.log2_nonneg q); destruct (Z.eq_dec q (2 ^ 32)) as [->|];
       [by compute | apply Z.lt_le_incl, Z.log2_lt_pow2; lia] | |]. }
  split; [done|].
  replace (bpw * k) with (k * bpw) by lia.
  replace (bpw * dest_word opts addrTab na k)
    with (dest_word opts addrTab na k * bpw) by lia.
  set (inData := input_buffer file W) in *.
  assert (forall i, 0 <= i < bytesPerWord opts ->
            is_byte (inData !!! Z.to_nat (k * bpw + i))) as Hin
    by (intros; apply input_buffer_is_byte).
  transitivity (byte_out opts (permute_data opts dataTab (8 * bpw)
                                 (word_at opts inData (k * bpw)))
                <$> seqZ 0 bpw).
  { unfold word_bytes. apply list_fmap_ext. intros n j Hj.
    apply list_elem_of_lookup_2, elem_of_seqZ in Hj. fold bpw in Hj.
    by apply Hbytes. }
  unfold permute_data.
  destruct (bool_decide_reflect (is_Some (dataBits opts))) as [Hsome|Hnone].
  - destruct Hclean as [Hd0|Htop]; [rewrite Hd0 in Hsome; by destruct Hsome|].
    replace (bpw * k) with (k * bpw) in Htop by lia.
    rewrite word_at_assembled by (done || unfold bpw in Hpos; lia).
    rewrite <- byte_out_disassembled by (unfold bpw in Hpos; lia).
    fold bpw. f_equal. f_equal.
    pose proof (assemble_range (bigEndian opts) (word_bytes opts inData (k * bpw))
                  (word_bytes_are_bytes _ _ _ _)) as Hr.
    rewrite length_word_bytes in Hr by (fold bpw; lia). fold bpw in Hr.
    assert (2 ^ (8 * bpw) <= 2 ^ 32) by (apply Z.pow_le_mono_r; lia).
    apply swizzleWord_gather; [lia | | lia | left; lia].
    by apply (parse_table_in_range (dataBits opts) _ "data"); [lia | |].
  - transitivity (word_bytes opts inData (k * bpw)).
    + unfold word_bytes. apply list_fmap_ext. intros n j Hj.
      apply list_elem_of_lookup_2, elem_of_seqZ in Hj.
      apply byte_out_word_at; [unfold bpw in Hpos; lia | lia | done].
    + unfold disassemble, assemble.
      pose proof (word_bytes_are_bytes opts file W (k * bpw)) as Hall.
      fold inData in Hall.
      pose proof (length_word_bytes opts inData (k * bpw) ltac:(fold bpw; lia)) as Hl.
      fold bpw in Hl.
      destruct (bigEndian opts).
      * rewrite Z_to_little_endian_to_Z, reverse_involutive;
          [done | by rewrite length_reverse | lia | by apply Forall_reverse].
      * by rewrite Z_to_little_endian_to_Z.
Qed.

(** X14.  The transform for words of 1, 2 or 4 bytes, on a file of at
    most 2^32 bytes whose working size [W] is at least two words, when
    the address spec parses for the address width [log2 (W / bpw)] and
    the data spec for [8 * bpw] bits (an absent spec leaves the zeroed
    table).  The run returns an output of [W] bytes.  Every word [k] of
    the input padded with zeros to [W], such that no later word is sent
    to the same place by the address table, and such that there is no
    data spec or the word is not a four-byte word with its top bit set,
    is found at output word [dest_word k] as the bytes, in the configured
    order, of its value, gathered through the data table when there is a
    data spec. *)
Theorem swizzle_transform (opts : swizzle_t) (file : list Byte.byte)
    (addrTab dataTab : list Z) :
  bytesPerWord opts = 1 \/ bytesPerWord opts = 2 \/ bytesPerWord opts = 4 ->
  Z.of_nat (length file) <= 2 ^ 32 ->
  let bpw := bytesPerWord opts in
  let W := size_of_run opts (Z.of_nat (length file)) in
  let q := W / bpw in
  let na := Z.log2 q in
  2 * bpw <= W ->
  result (parse_table (addrBits opts) na "address") = Ret addrTab ->
  result (parse_table (dataBits opts) (8 * bpw) "data") = Ret dataTab ->
  exists out,
    result (swizzle opts file) = Ret out /\
    Z.of_nat (length out) = W /\
    forall k, 0 <= k < q ->
      (forall k', k < k' < q ->
         dest_word opts addrTab na k' <> dest_word opts addrTab na k) ->
      (dataBits opts = None \/
       (bpw = 4 ->
        input_buffer file W !!! Z.to_nat (bpw * k + (if bigEndian opts then 0 else 3))
        < 2 ^ 7)) ->
      0 <= dest_word opts addrTab na k < q /\
      word_bytes opts out (bpw * dest_word opts addrTab na k)
      = disassemble (bigEndian opts) bpw
          (let v := assemble (bigEndian opts)
                      (word_bytes opts (input_buffer file W) (bpw * k)) in
           if bool_decide (is_Some (dataBits opts))
           then gather v dataTab (8 * bpw) else v).
Proof. exact (run_words opts file addrTab dataTab). Qed.

Lemma swizzle_transform_witness :
  exists out,
    result (swizzle {| addrBits := Some "0,1"%string;
                       dataBits := Some "0,1,2,3,4,5,6,7"%string;
                       bytesPerWord := 1; bigEndian := false |}
                    [Byte.x01; Byte.x02; Byte.x03; Byte.xf0]) = Ret out /\
    Z.of_nat (length out) = 4.
Proof.
  destruct (swizzle_transform
              {| addrBits := Some "0,1"%string;
                 dataBits := Some "0,1,2,3,4,5,6,7"%string;
                 bytesPerWord := 1; bigEndian := false |}
              [Byte.x01; Byte.x02; Byte.x03; Byte.xf0]
              ([1; 0] ++ replicate 30 0) reversal_table
              ltac:(left; reflexivity) ltac:(cbn; lia)
              ltac:(vm_compute; discriminate)
              ltac:(vm_compute; reflexivity) ltac:(vm_compute; reflexivity))
    as (out & Hrun & Hlen & _).
  exists out. split; [exact Hrun | exact Hlen].
Defined.

(** ** Undoing an address permutation *)

Lemma byte_val_output c :
  is_byte c -> byte_val (default Byte.x00 (Byte.of_N (Z.to_N c))) = c.
Proof.
  intros [Hc0 Hc1]. change (2 ^ 8) with 256 in Hc1. unfold byte_val.
  destruct (Byte.of_N (Z.to_N c)) as [y|] eqn:Hy.
  - apply Byte.to_of_N in Hy. cbn [from_option id]. rewrite Hy. lia.
  - apply Byte.of_N_None_iff in Hy. lia.
Qed.

Lemma input_buffer_output (out : list Z) W :
  Z.of_nat (length out) = W ->
  Forall is_byte out ->
  input_buffer (output_file out) W = out.
Proof.
  intros Hlen Hall. unfold input_buffer, output_file.
  rewrite length_fmap.
  replace (Z.to_nat W - length out)%nat with 0%nat by lia.
  cbn [replicate]. rewrite app_nil_r, <- list_fmap_compose.
  rewrite <- (list_fmap_id out) at 2.
  apply Forall_fmap_ext_1. eapply Forall_impl; [done|].
  intros c Hc. by apply byte_val_output.
Qed.

Lemma is_inverse_intro table inv count :
  (forall i, 0 <= i < count -> inv !!! Z.to_nat (table !!! Z.to_nat i) = i) ->
  is_inverse table inv count = true.
Proof.
  intros H. unfold is_inverse. rewrite forallb_forall. intros i Hi.
  apply list_elem_of_In, elem_of_seqZ in Hi. apply Z.eqb_eq, H. lia.
Qed.

(** The inverse of a permutation is a permutation, with the permutation
    as its inverse. *)
Lemma inverse_table_symmetric T T' count :
  is_permutation T count = true ->
  is_inverse T T' count = true ->
  is_permutation T' count = true /\ is_inverse T' T count = true.
Proof.
  intros HT HT'. apply is_permutation_spec in HT as [HTr HTs].
  pose proof (is_inverse_spec _ _ _ HT') as Hinv.
  split.
  - apply is_permutation_intro.
    + intros j Hj. destruct (HTs j Hj) as (i & Hi & <-). by rewrite Hinv.
    + intros i Hi. exists (T !!! Z.to_nat i). split; [by apply HTr | by apply Hinv].
  - apply is_inverse_intro. intros j Hj.
    destruct (HTs j Hj) as (i & Hi & <-). by rewrite Hinv.
Qed.

Lemma gather_inverse T T' count v :
  is_permutation T count = true ->
  is_inverse T T' count = true ->
  0 <= count ->
  0 <= v < 2 ^ count ->
  gather (gather v T count) T' count = v.
Proof.
  intros HT HT' Hc Hv.
  destruct (inverse_table_symmetric T T' count HT HT') as [HP' HI'].
  apply is_permutation_spec in HP' as [HTr' _].
  pose proof (is_inverse_spec _ _ _ HI') as Hinv'.
  apply Z.bits_inj'. intros k Hk.
  rewrite gather_bits by done.
  destruct (Z.ltb_spec k count) as [Hlt|Hge]; cbn [andb].
  - pose proof (HTr' k ltac:(lia)).
    rewrite gather_bits by lia.
    rewrite (proj2 (Z.ltb_lt _ _)) by lia. cbn [andb].
    by rewrite Hinv' by lia.
  - symmetry. by apply (testbit_high count).
Qed.

(** X15.  Two runs with the same word size of 1, 2 or 4 bytes and no
    data spec, the first on a file of at most 2^32 bytes whose size
    rounded up to a power of two, [W], is at least two words, with
    address specs that parse for the address width [log2 (W / bpw)] to a
    permutation and to its inverse: the first run returns, and the
    second run on the output of the first returns the input padded with
    zeros to [W].  The byte orders of the two runs are free. *)
Theorem swizzle_address_round_trip (opts opts' : swizzle_t)
    (file : list Byte.byte) (bits bits' : string) (T T' : list Z) :
  bytesPerWord opts = 1 \/ bytesPerWord opts = 2 \/ bytesPerWord opts = 4 ->
  Z.of_nat (length file) <= 2 ^ 32 ->
  addrBits opts = Some bits -> dataBits opts = None ->
  addrBits opts' = Some bits' -> dataBits opts' = None ->
  bytesPerWord opts' = bytesPerWord opts ->
  let W := pow2_ceil (Z.of_nat (length file)) in
  let na := Z.log2 (W / bytesPerWord opts) in
  2 * bytesPerWord opts <= W ->
  result (parseBits bits (replicate 32 0) na "address") = Ret T ->
  result (parseBits bits' (replicate 32 0) na "address") = Ret T' ->
  is_permutation T na = true ->
  is_inverse T T' na = true ->
  exists out,
    result (swizzle opts file) = Ret out /\
    result (swizzle opts' (output_file out)) = Ret (input_buffer file W).
Proof.
  intros Hb Hn Ha Hd Ha' Hd' Hbw W na Hmin HT HT' Hperm Hinv.
  assert (0 < bytesPerWord opts <= 4) as Hpos by (destruct Hb as [-> | [-> | ->]]; lia).
  set (bpw := bytesPerWord opts) in *.
  destruct (inverse_table_symmetric T T' na Hperm Hinv) as [Hperm' Hinv'].
  destruct (address_run opts file bits T Hb Hn Ha Hd Hmin HT)
    as (out & Hrun & Hlen & HW & Hna & Hbytes & _).
  fold bpw W na in Hrun, Hlen, HW, Hna, Hbytes.
  assert (forall k j, 0 <= k < 2 ^ na -> 0 <= j < bpw ->
            out !!! Z.to_nat (bpw * gather k T na + j)
            = input_buffer file W !!! Z.to_nat (bpw * k + j)) as Hout.
  { intros k j Hk Hj. apply Hbytes; [done | done |]. intros k' Hk' Heq.
    apply (gather_injective T na) in Heq; [lia | done | done | lia | lia]. }
  assert (0 < Z.of_nat (length file)) as Hfile.
  { destruct (Z.eq_dec (Z.of_nat (length file)) 0) as [H0|]; [|lia].
    exfalso. unfold W in Hmin. rewrite H0 in Hmin.
    change (pow2_ceil 0) with 0 in Hmin. lia. }
  assert (2 * bpw <= W <= 2 ^ 32 /\ Z.of_nat (length file) <= W) as [HWb HnW].
  { pose proof (pow2_ceil_bounds (Z.of_nat (length file)) ltac:(lia)) as Hpb.
    fold W in Hpb. lia. }
  assert (pow2_ceil W = W) as Hfix.
  { pose proof (pow2_ceil_pow2 (Z.of_nat (length file)) ltac:(lia)) as Hp. fold W in Hp.
    unfold pow2_ceil. rewrite Hp. by rewrite andb_false_r. }
  assert (Forall is_byte out) as Hall.
  { apply Forall_lookup. intros p c Hp.
    pose proof (lookup_lt_Some _ _ _ Hp) as Hlt.
    apply list_lookup_total_correct in Hp as <-.
    pose proof (Z.div_mod (Z.of_nat p) bpw ltac:(lia)) as Hdm.
    pose proof (Z.mod_pos_bound (Z.of_nat p) bpw ltac:(lia)) as Hm.
    set (a := Z.of_nat p / bpw) in *. set (j := Z.of_nat p mod bpw) in *.
    assert (0 <= a < 2 ^ na) as Hra by nia.
    pose proof (gather_range a T' na Hna ltac:(lia)) as Hg.
    pose proof (Hout (gather a T' na) j Hg Hm) as Hb1.
    rewrite (gather_inverse T' T na a) in Hb1 by done.
    replace (bpw * a + j) with (Z.of_nat p) in Hb1 by lia.
    rewrite Nat2Z.id in Hb1. rewrite Hb1. apply input_buffer_is_byte. }
  assert (word_size_pow2 opts') as Hb' by (unfold word_size_pow2; by rewrite Hbw).
  assert (Z.of_nat (length (output_file out)) = W) as Hlf
    by (unfold output_file; by rewrite length_fmap).
  destruct (address_run opts' (output_file out) bits' T' Hb')
    as (out' & Hrun' & Hlen' & _ & _ & Hbytes' & _);
    [rewrite Hlf; lia | done | done | by rewrite Hlf, Hfix, Hbw
    | by rewrite Hlf, Hfix, Hbw |].
  rewrite Hlf, Hfix in Hlen'. rewrite Hlf, Hfix, Hbw in Hbytes'. fold na in Hbytes'.
  rewrite input_buffer_output in Hbytes' by done.
  exists out. split; [done|]. rewrite Hrun'.
  f_equal. rewrite <- (list_fmap_id (input_buffer file W)).
  apply (words_pointwise id _ _ bpw (2 ^ na)); [lia | lia | |].
  { rewrite length_input_buffer by lia. lia. }
  intros b j Hrb Hj. cbn [id].
  pose proof (gather_range b T na Hna ltac:(lia)) as Hg.
  assert (out' !!! Z.to_nat (bpw * gather (gather b T na) T' na + j)
          = out !!! Z.to_nat (bpw * gather b T na + j)) as Hb2.
  { apply Hbytes'; [done | done |]. intros k' Hk' Heq.
    apply (gather_injective T' na) in Heq; [lia | done | done | lia | lia]. }
  rewrite (gather_inverse T T' na b) in Hb2 by done.
  replace (b * bpw + j) with (bpw * b + j) by lia.
  rewrite Hb2. by apply Hout.
Qed.

Lemma swizzle_address_round_trip_witness :
  exists out,
    result (swizzle {| addrBits := Some "0,2,1"%string; dataBits := None;
                       bytesPerWord := 1; bigEndian := false |}
                    [Byte.x0a; Byte.x0b; Byte.x0c; Byte.x0d; Byte.x0e]) = Ret out /\
    result (swizzle {| addrBits := Some "1,0,2"%string; dataBits := None;
                       bytesPerWord := 1; bigEndian := true |}
                    (output_file out)) = Ret [10; 11; 12; 13; 14; 0; 0; 0].
Proof.
  apply (swizzle_address_round_trip
           {| addrBits := Some "0,2,1"%string; dataBits := None;
              bytesPerWord := 1; bigEndian := false |}
           {| addrBits := Some "1,0,2"%string; dataBits := None;
              bytesPerWord := 1; bigEndian := true |}
           [Byte.x0a; Byte.x0b; Byte.x0c; Byte.x0d; Byte.x0e]
           "0,2,1" "1,0,2" ([1; 2; 0] ++ replicate 29 0) ([2; 0; 1] ++ replicate 29 0));
    [left; reflexivity | cbn; lia | reflexivity | reflexivity | reflexivity
    | reflexivity | reflexivity | vm_compute; discriminate
    | vm_compute; reflexivity | vm_compute; reflexivity
    | vm_compute; reflexivity | vm_compute; reflexivity].
Defined.


(** ** Undoing both permutations *)

Lemma assemble_disassemble big bpw v :
  0 <= bpw -> 0 <= v < 2 ^ (8 * bpw) ->
  assemble big (disassemble big bpw v) = v.
Proof.
  intros Hb Hv. unfold assemble, disassemble.
  destruct big; rewrite ?reverse_involutive;
    rewrite little_endian_to_Z_to_little_endian by lia;
    rewrite Z.mul_comm; by apply Z.mod_small.
Qed.

Lemma disassemble_assemble big bpw (bytes : list Z) :
  Z.of_nat (length bytes) = bpw ->
  Forall (fun b => 0 <= b < 2 ^ 8) bytes ->
  disassemble big bpw (assemble big bytes) = bytes.
Proof.
  intros Hl Hall. unfold disassemble, assemble. destruct big.
  - rewrite Z_to_little_endian_to_Z, reverse_involutive;
      [done | by rewrite length_reverse | lia | by apply Forall_reverse].
  - by rewrite Z_to_little_endian_to_Z.
Qed.

Lemma disassemble_is_byte big bpw v :
  0 <= bpw -> Forall is_byte (disassemble big bpw v).
Proof.
  intros Hb. unfold disassemble, is_byte.
  destruct big; [apply Forall_reverse|]; apply Z_to_little_endian_bound; lia.
Qed.

Lemma length_disassemble big bpw v :
  0 <= bpw -> Z.of_nat (length (disassemble big bpw v)) = bpw.
Proof.
  intros Hb. unfold disassemble.
  pose proof (Z_to_little_endian_bytes (Z.to_nat bpw) v) as H.
  rewrite Z2Nat.id in H by done.
  destruct big; rewrite ?length_reverse, H, length_fmap, length_seqZ; lia.
Qed.

Lemma word_bytes_lookup opts (buf : list Z) pos j :
  0 <= j < bytesPerWord opts ->
  word_bytes opts buf pos !!! Z.to_nat j = buf !!! Z.to_nat (pos + j).
Proof. intros Hj. unfold word_bytes. by rewrite lookup_total_seqZ_fmap. Qed.

(** Two buffers of [q] words that hold the same words are equal. *)
Lemma words_equal opts (out inData : list Z) q :
  0 < bytesPerWord opts ->
  Z.of_nat (length out) = q * bytesPerWord opts ->
  Z.of_nat (length inData) = q * bytesPerWord opts ->
  (forall b, 0 <= b < q ->
     word_bytes opts out (bytesPerWord opts * b)
     = word_bytes opts inData (bytesPerWord opts * b)) ->
  out = inData.
Proof.
  intros Hb Hlo Hli Hw. rewrite <- (list_fmap_id inData).
  apply (words_pointwise id _ _ (bytesPerWord opts) q); [done..|].
  intros k j Hk Hj. cbn [id].
  replace (k * bytesPerWord opts + j) with (bytesPerWord opts * k + j) by lia.
  rewrite <- (word_bytes_lookup opts out), <- (word_bytes_lookup opts inData) by done.
  by rewrite Hw.
Qed.

Lemma size_of_run_again opts opts' n :
  word_size_pow2 opts ->
  bytesPerWord opts' = bytesPerWord opts ->
  (is_Some (addrBits opts') <-> is_Some (addrBits opts)) ->
  0 <= n <= 2 ^ 32 ->
  2 * bytesPerWord opts <= size_of_run opts n ->
  size_of_run opts' (size_of_run opts n) = size_of_run opts n.
Proof.
  intros Hb Hbw Ha Hn Hmin.
  destruct (size_of_run_bounds opts n Hb Hn) as [HW Hmod].
  assert (0 < bytesPerWord opts) by (destruct Hb as [-> | [-> | ->]]; lia).
  unfold size_of_run at 1. rewrite Hbw.
  destruct (bool_decide_reflect (is_Some (addrBits opts'))) as [Ha'|Ha'].
  - apply Ha in Ha'.
    destruct (size_of_run_words_pow2 opts n Hb Hn Ha' Hmin) as [HWeq _].
    assert (0 < n) as Hpos.
    { destruct (Z.eq_dec n 0) as [->|]; [|lia]. exfalso.
      rewrite HWeq in Hmin. change (pow2_ceil 0) with 0 in Hmin. lia. }
    pose proof (pow2_ceil_pow2 n Hpos) as Hp. rewrite <- HWeq in Hp.
    unfold pow2_ceil at 1. rewrite Hp, andb_false_r.
    by apply padded_exact.
  - by apply padded_exact.
Qed.

(** X16.  Two runs with the same word size of 1 or 2 bytes and the same
    byte order, each spec given in both runs or in neither, the first on
    a file of at most 2^32 bytes whose working size [W] is at least two
    words.  When the four specs parse, the address specs for the width
    [log2 (W / bpw)] to a permutation and to its inverse, the data specs
    for [8 * bpw] bits to a permutation and to its inverse, the first run
    returns, and the second run on the output of the first returns the
    input padded with zeros to [W]. *)
Theorem swizzle_round_trip (opts opts' : swizzle_t) (file : list Byte.byte)
    (A A' D D' : list Z) :
  bytesPerWord opts = 1 \/ bytesPerWord opts = 2 ->
  bytesPerWord opts' = bytesPerWord opts ->
  bigEndian opts' = bigEndian opts ->
  (is_Some (addrBits opts') <-> is_Some (addrBits opts)) ->
  (is_Some (dataBits opts') <-> is_Some (dataBits opts)) ->
  Z.of_nat (length file) <= 2 ^ 32 ->
  let bpw := bytesPerWord opts in
  let W := size_of_run opts (Z.of_nat (length file)) in
  let na := Z.log2 (W / bpw) in
  2 * bpw <= W ->
  result (parse_table (addrBits opts) na "address") = Ret A ->
  result (parse_table (addrBits opts') na "address") = Ret A' ->
  result (parse_table (dataBits opts) (8 * bpw) "data") = Ret D ->
  result (parse_table (dataBits opts') (8 * bpw) "data") = Ret D' ->
  (is_Some (addrBits opts) ->
   is_permutation A na = true /\ is_inverse A A' na = true) ->
  (is_Some (dataBits opts) ->
   is_permutation D (8 * bpw) = true /\ is_inverse D D' (8 * bpw) = true) ->
  exists out,
    result (swizzle opts file) = Ret out /\
    result (swizzle opts' (output_file out)) = Ret (input_buffer file W).
Proof.
  intros Hb12 Hbw Hbe Ha Hd Hn bpw W na Hmin HA HA' HD HD' HpA HpD.
  assert (word_size_pow2 opts) as Hb by (unfold word_size_pow2; tauto).
  assert (word_size_pow2 opts') as Hb' by (unfold word_size_pow2; rewrite Hbw; tauto).
  assert (0 < bpw <= 2) as Hpos by (unfold bpw; destruct Hb12 as [-> | ->]; lia).
  destruct (size_of_run_bounds opts (Z.of_nat (length file)) Hb ltac:(lia))
    as [HW Hmod]. fold W bpw in HW, Hmod.
  pose proof (Z.div_mod W bpw ltac:(lia)) as Hdm.
  set (q := W / bpw) in *.
  assert (2 <= q <= 2 ^ 32) as Hq by nia.
  assert (W = q * bpw) as HWq by lia.
  pose proof (Z.log2_nonneg q) as Hna. fold na in Hna.
  assert (is_Some (addrBits opts) -> q = 2 ^ na) as Hqpow.
  { intros Hs.
    destruct (size_of_run_words_pow2 opts (Z.of_nat (length file)) Hb ltac:(lia) Hs
                ltac:(fold W bpw; lia)) as [_ Hp].
    fold W bpw in Hp. rewrite Z.quot_div_nonneg in Hp by lia. done. }
  (* the two destinations are inverse to each other *)
  set (dest := dest_word opts A na). set (dest' := dest_word opts' A' na).
  assert (forall k, 0 <= k < q -> 0 <= dest k < q /\ dest' (dest k) = k) as Hdd'.
  { intros k Hk. unfold dest, dest', dest_word.
    destruct (bool_decide_reflect (is_Some (addrBits opts))) as [Hs|Hs].
    - rewrite bool_decide_eq_true_2 by (by apply Ha).
      destruct (HpA Hs) as [Hp Hi]. rewrite (Hqpow Hs) in *.
      split; [apply gather_range; lia | by apply gather_inverse; [| | | lia]]. 
    - rewrite bool_decide_eq_false_2 by (by rewrite Ha). done. }
  assert (forall a, 0 <= a < q -> 0 <= dest' a < q /\ dest (dest' a) = a) as Hd'd.
  { intros a Hra. unfold dest, dest', dest_word.
    destruct (bool_decide_reflect (is_Some (addrBits opts))) as [Hs|Hs].
    - rewrite bool_decide_eq_true_2 by (by apply Ha).
      destruct (HpA Hs) as [Hp Hi].
      destruct (inverse_table_symmetric A A' na Hp Hi) as [Hp' Hi'].
      rewrite (Hqpow Hs) in *.
      split; [apply gather_range; lia | by apply gather_inverse; [| | | lia]].
    - rewrite bool_decide_eq_false_2 by (by rewrite Ha). done. }
  assert (forall k k', 0 <= k < q -> 0 <= k' < q -> dest k = dest k' -> k = k') as Hinj.
  { intros k k' Hk Hk' Heq.
    rewrite <- (proj2 (Hdd' k Hk)), <- (proj2 (Hdd' k' Hk')). by rewrite Heq. }
  assert (forall a a', 0 <= a < q -> 0 <= a' < q -> dest' a = dest' a' -> a = a') as Hinj'.
  { intros a a' Hra Hra' Heq.
    rewrite <- (proj2 (Hd'd a Hra)), <- (proj2 (Hd'd a' Hra')). by rewrite Heq. }
  (* the first run *)
  destruct (run_words opts file A D Hb Hn Hmin HA HD) as (out & Hrun & Hlen & Hw).
  fold bpw W q na dest in Hlen, Hw.
  set (inData := input_buffer file W) in *.
  set (value := fun (tab : list Z) (buf : list Z) k =>
         let v := assemble (bigEndian opts) (word_bytes opts buf (bpw * k)) in
         if bool_decide (is_Some (dataBits opts)) then gather v tab (8 * bpw) else v).
  assert (forall k, 0 <= k < q ->
            word_bytes opts out (bpw * dest k)
            = disassemble (bigEndian opts) bpw (value D inData k)) as Hout.
  { intros k Hk. apply Hw; [done | | right; lia].
    intros k' Hk' Heq. apply Hinj in Heq; lia. }
  assert (Forall is_byte out) as Hall.
  { apply Forall_lookup. intros p c Hp.
    pose proof (lookup_lt_Some _ _ _ Hp) as Hlt.
    apply list_lookup_total_correct in Hp as <-.
    pose proof (Z.div_mod (Z.of_nat p) bpw ltac:(lia)) as Hdmp.
    pose proof (Z.mod_pos_bound (Z.of_nat p) bpw ltac:(lia)) as Hm.
    set (a := Z.of_nat p / bpw) in *. set (j := Z.of_nat p mod bpw) in *.
    assert (0 <= a < q) as Hra by nia.
    destruct (Hd'd a Hra) as [Hr' Hback].
    pose proof (Hout (dest' a) Hr') as Hword. rewrite Hback in Hword.
    replace p with (Z.to_nat (bpw * a + j)) by lia.
    rewrite <- (word_bytes_lookup opts out) by done. rewrite Hword.
    pose proof (disassemble_is_byte (bigEndian opts) bpw
                  (value D inData (dest' a)) ltac:(lia)) as Hbytes.
    rewrite Forall_lookup in Hbytes.
    apply (Hbytes (Z.to_nat j)).
    apply list_lookup_lookup_total_lt.
    pose proof (length_disassemble (bigEndian opts) bpw
                  (value D inData (dest' a)) ltac:(lia)). lia. }
  (* the second run reads the output of the first *)
  assert (Z.of_nat (length (output_file out)) = W) as Hlf
    by (unfold output_file; by rewrite length_fmap).
  assert (size_of_run opts' W = W) as Hfix
    by (apply size_of_run_again; (done || lia || fold bpw; lia)).
  destruct (run_words opts' (output_file out) A' D' Hb')
    as (out' & Hrun' & Hlen' & Hw');
    [rewrite Hlf; lia | by rewrite Hlf, Hfix, Hbw
    | by rewrite Hlf, Hfix, Hbw | by rewrite Hbw |].
  rewrite Hlf, Hfix in Hlen'. rewrite Hlf, Hfix, Hbw, Hbe in Hw'.
  fold bpw q na dest' in Hw'.
  rewrite input_buffer_output in Hw' by done.
  exists out. split; [done|]. rewrite Hrun'. f_equal.
  apply (words_equal opts _ _ q); [lia | fold bpw; lia | |].
  { fold bpw. unfold inData. rewrite length_input_buffer by lia. lia. }
  fold bpw. intros b Hrb.
  destruct (Hdd' b Hrb) as [Hr Hback].
  destruct (Hw' (dest b) Hr) as [_ Hword'].
  { intros k' Hk' Heq. apply Hinj' in Heq; lia. }
  { right. lia. }
  rewrite Hback in Hword'.
  assert (word_bytes opts' out' (bpw * b) = word_bytes opts out' (bpw * b)) as Hsame
    by (unfold word_bytes; by rewrite Hbw).
  rewrite <- Hsame, Hword'. cbv zeta.
  assert (word_bytes opts' out (bpw * dest b) = word_bytes opts out (bpw * dest b)) as ->
    by (unfold word_bytes; by rewrite Hbw).
  rewrite (Hout b Hrb).
  pose proof (word_bytes_are_bytes opts file W (bpw * b)) as Hin. fold inData in Hin.
  pose proof (length_word_bytes opts inData (bpw * b) ltac:(fold bpw; lia)) as Hl.
  fold bpw in Hl.
  pose proof (assemble_range (bigEndian opts) _ Hin) as Hv. rewrite Hl in Hv.
  set (v := assemble (bigEndian opts) (word_bytes opts inData (bpw * b))) in *.
  assert (value D inData b = if bool_decide (is_Some (dataBits opts))
                             then gather v D (8 * bpw) else v) as -> by done.
  rewrite <- (disassemble_assemble (bigEndian opts) bpw (word_bytes opts inData (bpw * b)))
    by done.
  fold v. f_equal.
  destruct (bool_decide_reflect (is_Some (dataBits opts))) as [Hs|Hs].
  - rewrite bool_decide_eq_true_2 by (by apply Hd).
    destruct (HpD Hs) as [Hp Hi].
    rewrite assemble_disassemble by (lia || apply gather_range; lia).
    apply gather_inverse; [done | done | lia | done].
  - rewrite bool_decide_eq_false_2 by (by rewrite Hd).
    by rewrite assemble_disassemble by lia.
Qed.

Lemma swizzle_round_trip_witness :
  exists out,
    result (swizzle {| addrBits := Some "0,2,1"%string;
                       dataBits := Some "0,1,2,3,4,5,6,7"%string;
                       bytesPerWord := 1; bigEndian := false |}
                    [Byte.x0a; Byte.x0b; Byte.x0c; Byte.x0d; Byte.x0e]) = Ret out /\
    result (swizzle {| addrBits := Some "1,0,2"%string;
                       dataBits := Some "0,1,2,3,4,5,6,7"%string;
                       bytesPerWord := 1; bigEndian := false |}
                    (output_file out)) = Ret [10; 11; 12; 13; 14; 0; 0; 0].
Proof.
  apply (swizzle_round_trip
           {| addrBits := Some "0,2,1"%string;
              dataBits := Some "0,1,2,3,4,5,6,7"%string;
              bytesPerWord := 1; bigEndian := false |}
           {| addrBits := Some "1,0,2"%string;
              dataBits := Some "0,1,2,3,4,5,6,7"%string;
              bytesPerWord := 1; bigEndian := false |}
           [Byte.x0a; Byte.x0b; Byte.x0c; Byte.x0d; Byte.x0e]
           ([1; 2; 0] ++ replicate 29 0) ([2; 0; 1] ++ replicate 29 0)
           reversal_table reversal_table);
    [left; reflexivity | reflexivity | reflexivity
    | split; intros _; by eexists | split; intros _; by eexists
    | cbn; lia
    | vm_compute; discriminate
    | vm_compute; reflexivity | vm_compute; reflexivity
    | vm_compute; reflexivity | vm_compute; reflexivity
    | intros _; split; vm_compute; reflexivity
    | intros _; split; vm_compute; reflexivity].
Defined.


(** ** Loops that return *)

Lemma for_each_ret_inv {St} (l : list Z) (body : Z -> St -> run St) : forall s s',
  result (for_each l body s) = Ret s' ->
  forall x, x ∈ l -> exists s0 s1, result (body x s0) = Ret s1.
Proof.
  induction l as [|i l IH]; intros s s' Hrun x Hx; [by apply elem_of_nil in Hx|].
  cbn [for_each] in Hrun. rewrite result_bind in Hrun.
  destruct (result (body i s)) as [s1| |] eqn:Hbody; [|done..].
  apply elem_of_cons in Hx as [-> | Hx].
  - by exists s, s1.
  - by apply (IH s1 s').
Qed.

Lemma for_each_no_exit {St} (l : list Z) (body : Z -> St -> run St) :
  (forall x s e, result (body x s) <> Exit e) ->
  forall s e, result (for_each l body s) <> Exit e.
Proof.
  intros Hbody. induction l as [|i l IH]; intros s e; [done|].
  cbn [for_each]. rewrite result_bind.
  destruct (result (body i s)) as [s1|e'|] eqn:Hb; [apply IH | | done].
  by apply Hbody in Hb.
Qed.

Lemma load_ret_inside (a : list Z) i v :
  result (load a i) = Ret v -> 0 <= i < Z.of_nat (length a).
Proof.
  unfold load.
  destruct (Z.leb_spec 0 i), (Z.ltb_spec i (Z.of_nat (length a))); cbn; (done || lia).
Qed.

(** A word that is read lies inside the buffer it is read from. *)
Lemma read_word_ret_inside opts (inData : list Z) pos v :
  0 < bytesPerWord opts ->
  result (read_word opts inData pos) = Ret v ->
  pos + bytesPerWord opts <= Z.of_nat (length inData).
Proof.
  intros Hb Hrun. unfold read_word in Hrun.
  assert (bytesPerWord opts - 1 ∈ seqZ 0 (bytesPerWord opts)) as Hlast
    by (apply elem_of_seqZ; lia).
  destruct (bigEndian opts);
    destruct (for_each_ret_inv _ _ _ _ Hrun _ Hlast) as (s0 & s1 & Hbody);
    rewrite result_bind in Hbody;
    destruct (result (load inData (pos + (bytesPerWord opts - 1)))) as [c| |] eqn:Hl;
    try done; apply load_ret_inside in Hl; lia.
Qed.

Lemma move_word_ret_inside opts addrTab dataTab na nd (inData : list Z) pos out out' :
  0 < bytesPerWord opts ->
  result (move_word opts addrTab dataTab na nd inData pos out) = Ret out' ->
  pos + bytesPerWord opts <= Z.of_nat (length inData).
Proof.
  intros Hb Hrun. unfold move_word in Hrun. cbv zeta in Hrun.
  rewrite result_bind in Hrun.
  destruct (result (read_word opts inData pos)) as [v| |] eqn:Hr; [|done..].
  by apply read_word_ret_inside in Hr.
Qed.

Lemma move_word_no_exit opts addrTab dataTab na nd (inData : list Z) pos out e :
  result (move_word opts addrTab dataTab na nd inData pos out) <> Exit e.
Proof.
  unfold move_word. cbv zeta. rewrite result_bind.
  destruct (result (read_word opts inData pos)) as [v|e'|] eqn:Hr; [| |done].
  - unfold write_word. destruct (bigEndian opts); apply for_each_no_exit;
      intros x s e0; unfold store; by destruct (_ && _).
  - exfalso. revert Hr. unfold read_word.
    destruct (bigEndian opts); apply for_each_no_exit; intros x s e0;
      rewrite result_bind; unfold load; by destruct (_ && _).
Qed.

Lemma fread_length (buf : list Z) (file : list Byte.byte) inData :
  result (fread buf file) = Ret inData -> length inData = length buf.
Proof.
  unfold fread. destruct (Nat.leb_spec (length file) (length buf)); [|done].
  intros [= <-]. rewrite length_app, length_fmap, length_drop. lia.
Qed.

(** A run that returns had a working size of a whole number of words:
    otherwise the last turn of the main loop reads past the end of the
    input buffer. *)
Lemma swizzle_ret_whole_words opts (file : list Byte.byte) W out :
  0 < bytesPerWord opts ->
  Z.of_nat (length file) < 2 ^ 63 ->
  result (working_size opts (Z.of_nat (length file))) = Ret W ->
  result (swizzle opts file) = Ret out ->
  0 < W /\ W mod bytesPerWord opts = 0.
Proof.
  intros Hb Hn HW Hrun.
  rewrite swizzle_stages in Hrun by done.
  rewrite result_bind, HW in Hrun.
  set (bpw := bytesPerWord opts) in *.
  rewrite result_bind, result_when in Hrun.
  destruct (Z.ltb_spec (log2_int (W `quot` bpw)) 1) as [|Hlog]; [done|].
  cbn [orb] in Hrun. destruct (32 <? _); [done|].
  assert (0 < W `quot` bpw) as Hq.
  { unfold log2_int in Hlog. destruct (Z.ltb_spec 0 (W `quot` bpw)); [done|].
    by compute in Hlog. }
  assert (0 < W) as HWpos.
  { destruct (Z.le_gt_cases W 0) as [Hle|]; [|done].
    pose proof (Z.quot_opp_l W bpw ltac:(lia)).
    pose proof (Z.quot_pos (- W) bpw ltac:(lia) ltac:(lia)). lia. }
  split; [done|].
  destruct (Z.eq_dec (W mod bpw) 0) as [|Hmod]; [done|]. exfalso.
  rewrite result_bind in Hrun.
  destruct (result (parse_table (addrBits opts) _ _))
    as [addrTab| |]; [|done..].
  rewrite result_bind in Hrun.
  destruct (result (parse_table (dataBits opts) _ _))
    as [dataTab| |]; [|done..].
  rewrite result_bind in Hrun.
  destruct (result (fread (calloc W) file)) as [inData| |] eqn:Hread; [|done..].
  apply fread_length in Hread.
  pose proof (calloc_length W ltac:(lia)) as Hcl.
  set (last := ((W + bpw - 1) `quot` bpw - 1) * bpw).
  pose proof (Z.div_mod (W + bpw - 1) bpw ltac:(lia)) as Hdm.
  pose proof (Z.mod_pos_bound (W + bpw - 1) bpw ltac:(lia)) as Hmb.
  pose proof (Z.div_mod W bpw ltac:(lia)) as Hdm'.
  pose proof (Z.mod_pos_bound W bpw ltac:(lia)) as Hmb'.
  assert ((W + bpw - 1) `quot` bpw = W / bpw + 1) as Hceil.
  { rewrite Z.quot_div_nonneg by lia.
    symmetry. apply (Z.div_unique _ _ _ (W mod bpw - 1)); lia. }
  assert (last ∈ positions W bpw) as Hin.
  { unfold positions. apply list_elem_of_fmap.
    exists ((W + bpw - 1) `quot` bpw - 1). split; [done|].
    apply elem_of_seqZ. rewrite Hceil.
    pose proof (Z.div_pos W bpw ltac:(lia) ltac:(lia)). lia. }
  destruct (for_each_ret_inv _ _ _ _ Hrun _ Hin) as (s0 & s1 & Hbody).
  apply move_word_ret_inside in Hbody; [|done].
  unfold last in Hbody. rewrite Hceil in Hbody. fold bpw in Hbody. nia.
Qed.

(** ** Three-byte words *)

(** The working size for three-byte words: the size itself when it is a
    multiple of 3, and otherwise the size plus 2 with bit 1 cleared. *)
Lemma aligned_size_three opts n :
  bytesPerWord opts = 3 ->
  0 <= n < 2 ^ 62 ->
  result (aligned_size opts n)
  = Ret (if n mod 3 =? 0 then n else n + 2 - 2 * (((n + 2) / 2) mod 2)).
Proof.
  intros Hb Hn. unfold aligned_size. rewrite Hb. cbv zeta.
  rewrite Z.rem_mod_nonneg by lia.
  destruct (Z.eqb_spec (n mod 3) 0); cbn [negb]; [done|].
  rewrite result_bind. cbn [emit result snd ret]. f_equal.
  rewrite to_long_small by lia.
  change (3 - 1) with 2. by rewrite land_lnot_two.
Qed.

Lemma pow2_mod3 t : 0 <= t -> 2 ^ t mod 3 <> 0.
Proof.
  intros Ht.
  assert (2 ^ t mod 3 = 1 \/ 2 ^ t mod 3 = 2) as H; [|lia].
  revert t Ht. apply natlike_ind; [by left|].
  intros t Ht IH. rewrite Z.pow_succ_r by done.
  rewrite Z.mul_mod by lia. destruct IH as [-> | ->]; [by right | by left].
Qed.

Lemma working_size_three opts n :
  bytesPerWord opts = 3 ->
  0 <= n <= 2 ^ 32 ->
  result (working_size opts n)
  = Ret (let P := if bool_decide (is_Some (addrBits opts)) then pow2_ceil n else n in
         if P mod 3 =? 0 then P else P + 2 - 2 * (((P + 2) / 2) mod 2)).
Proof.
  intros Hb Hn. unfold working_size.
  rewrite result_bind, pow2_size_exact by lia.
  pose proof (pow2_ceil_bounds n Hn).
  apply aligned_size_three; [done|].
  destruct (bool_decide _); lia.
Qed.

(** With three bytes per word the working size of a run with an address
    spec is never a positive multiple of 3. *)
Lemma three_byte_words_no_output opts (file : list Byte.byte) out :
  bytesPerWord opts = 3 ->
  is_Some (addrBits opts) ->
  Z.of_nat (length file) <= 2 ^ 32 ->
  result (swizzle opts file) <> Ret out.
Proof.
  intros Hb Ha Hn Hrun.
  pose proof (working_size_three opts (Z.of_nat (length file)) Hb ltac:(lia)) as HW.
  rewrite bool_decide_eq_true_2 in HW by done. cbv zeta in HW.
  destruct (swizzle_ret_whole_words opts file _ out ltac:(lia) ltac:(lia) HW Hrun)
    as [Hpos Hmod].
  rewrite Hb in Hmod.
  destruct (Z.eq_dec (Z.of_nat (length file)) 0) as [H0|H0].
  { rewrite H0 in Hpos. by vm_compute in Hpos. }
  pose proof (pow2_ceil_pow2 (Z.of_nat (length file)) ltac:(lia)) as Hp.
  apply is_pow2_spec in Hp as (t & Ht & HP). rewrite HP in *.
  pose proof (pow2_mod3 t Ht) as H3.
  rewrite (proj2 (Z.eqb_neq _ _) H3) in Hmod, Hpos.
  destruct (Z.eq_dec t 0) as [->|]; [by vm_compute in Hmod|].
  destruct (Z.eq_dec t 1) as [->|]; [by vm_compute in Hmod|].
  assert (2 ^ t = 4 * 2 ^ (t - 2)) as Hsplit.
  { change 4 with (2 ^ 2). rewrite <- Z.pow_add_r by lia. f_equal. lia. }
  assert (0 < 2 ^ (t - 2)) by (apply Z.pow_pos_nonneg; lia).
  set (m := 2 ^ (t - 2)) in *. rewrite Hsplit in *.
  assert (((4 * m + 2) / 2) mod 2 = 1) as Hbit.
  { replace (4 * m + 2) with ((2 * m + 1) * 2) by lia.
    rewrite Z.div_mul by lia.
    replace (2 * m + 1) with (1 + m * 2) by lia. by rewrite Z.mod_add. }
  rewrite Hbit in Hmod. replace (4 * m + 2 - 2 * 1) with (4 * m) in Hmod by lia.
  done.
Qed.

(** X17.  With three bytes per word and an address spec, every run on a
    file of at most 2^32 bytes either ends with a fatal error or
    performs an access outside its buffers, which C leaves undefined:
    the size is rounded to a power of two, which the alignment by mask
    never turns into a positive multiple of 3. *)
Theorem three_byte_words_address_spec (opts : swizzle_t) (file : list Byte.byte) :
  bytesPerWord opts = 3 ->
  is_Some (addrBits opts) ->
  Z.of_nat (length file) <= 2 ^ 32 ->
  (exists e, result (swizzle opts file) = Exit e) \/
  result (swizzle opts file) = Fault.
Proof.
  intros Hb Ha Hn.
  destruct (result (swizzle opts file)) as [out|e|] eqn:Hrun.
  - by destruct (three_byte_words_no_output opts file out Hb Ha Hn).
  - left. by exists e.
  - by right.
Qed.

Lemma three_byte_words_address_spec_witness :
  (exists e,
     result (swizzle {| addrBits := Some "0"%string; dataBits := None;
                        bytesPerWord := 3; bigEndian := false |}
                     [Byte.x01; Byte.x02; Byte.x03; Byte.x04;
                      Byte.x05; Byte.x06; Byte.x07; Byte.x08]) = Exit e) \/
  result (swizzle {| addrBits := Some "0"%string; dataBits := None;
                     bytesPerWord := 3; bigEndian := false |}
                  [Byte.x01; Byte.x02; Byte.x03; Byte.x04;
                   Byte.x05; Byte.x06; Byte.x07; Byte.x08]) = Fault.
Proof.
  apply three_byte_words_address_spec; [reflexivity | by eexists | cbn; lia].
Defined.

(** X18.  With three bytes per word and no spec, on a file of 6 to 2^32
    bytes whose size is not a multiple of 3 and not 7 or 10 modulo 12,
    the run ends in an access outside its buffers: the alignment by mask
    leaves a working size that is not a whole number of words, and the
    last turn of the main loop runs over the end. *)
Theorem three_byte_words_overrun (opts : swizzle_t) (file : list Byte.byte) :
  bytesPerWord opts = 3 ->
  addrBits opts = None ->
  dataBits opts = None ->
  6 <= Z.of_nat (length file) <= 2 ^ 32 ->
  Z.of_nat (length file) mod 3 <> 0 ->
  Z.of_nat (length file) mod 12 <> 7 ->
  Z.of_nat (length file) mod 12 <> 10 ->
  result (swizzle opts file) = Fault.
Proof.
  intros Hb Ha Hd Hn H3 H7 H10. set (n := Z.of_nat (length file)) in *.
  pose proof (working_size_three opts n Hb ltac:(lia)) as HW.
  rewrite Ha in HW. rewrite bool_decide_eq_false_2 in HW by (by intros [? ?]).
  cbv zeta in HW. rewrite (proj2 (Z.eqb_neq _ _) H3) in HW.
  set (W := n + 2 - 2 * (((n + 2) / 2) mod 2)) in *.
  assert (n <= W <= n + 2 /\ W mod 3 <> 0) as [HWn HW3].
  { unfold W. clearbody n. clear -Hn H3 H7 H10.
    Z.div_mod_to_equations. lia. }
  destruct (result (swizzle opts file)) as [out|e|] eqn:Hrun; [| |done]; exfalso.
  - destruct (swizzle_ret_whole_words opts file W out ltac:(lia) ltac:(fold n; lia)
                HW Hrun) as [_ Hmod].
    by rewrite Hb in Hmod.
  - revert Hrun. rewrite swizzle_stages by (fold n; lia). fold n.
    rewrite result_bind, HW, Hb.
    assert (2 <= W `quot` 3 < 2 ^ 33) as Hq.
    { rewrite Z.quot_div_nonneg by lia. clearbody W. clear -Hn HWn.
      Z.div_mod_to_equations. lia. }
    pose proof (log2_int_words _ Hq) as Hlog.
    rewrite result_bind, result_when.
    rewrite (proj2 (Z.ltb_ge _ 1)), (proj2 (Z.ltb_ge 32 _)) by lia. cbn [orb].
    rewrite Ha, Hd. cbn [parse_table]. rewrite !bind_ret.
    rewrite fread_calloc, bind_ret by (fold n; lia).
    apply for_each_no_exit. intros x s e0. apply move_word_no_exit.
Qed.

Lemma three_byte_words_overrun_witness :
  result (swizzle {| addrBits := None; dataBits := None;
                     bytesPerWord := 3; bigEndian := false |}
                  [Byte.x01; Byte.x02; Byte.x03; Byte.x04;
                   Byte.x05; Byte.x06; Byte.x07; Byte.x08])
  = Fault.
Proof.
  apply three_byte_words_overrun;
    [reflexivity | reflexivity | reflexivity | cbn; lia
    | vm_compute; discriminate | vm_compute; discriminate | vm_compute; discriminate].
Defined.

(** ** main *)

Lemma read_options_word_size calls : forall opts0 opts,
  1 <= bytesPerWord opts0 <= 4 ->
  read_options calls opts0 = inr opts ->
  1 <= bytesPerWord opts <= 4.
Proof.
  induction calls as [|[opt optarg] calls IH]; intros opts0 opts H0 Hrun.
  - cbn in Hrun. by injection Hrun as <-.
  - cbn [read_options] in Hrun.
    destruct (_ || _); [done|].
    destruct (Ascii.eqb opt "a"); [by apply IH in Hrun|].
    destruct (Ascii.eqb opt "d"); [by apply IH in Hrun|].
    destruct (Ascii.eqb opt "w").
    { cbv zeta in Hrun.
      destruct (Z.ltb_spec (atoi optarg) 1); [done|].
      destruct (Z.ltb_spec 4 (atoi optarg)); [done|].
      cbn [orb] in Hrun. apply IH in Hrun; [done | cbn; lia]. }
    destruct (Ascii.eqb opt "b"); by apply IH in Hrun.
Qed.

Lemma read_options_exit calls : forall opts0 opts inPath outPath,
  read_options calls opts0 <> inl (Call opts inPath outPath).
Proof.
  induction calls as [|[opt optarg] calls IH]; intros opts0 opts i o; [done|].
  cbn [read_options].
  destruct (_ || _); [done|].
  destruct (Ascii.eqb opt "a"); [apply IH|].
  destruct (Ascii.eqb opt "d"); [apply IH|].
  destruct (Ascii.eqb opt "w").
  { cbv zeta. destruct (_ || _); [done | apply IH]. }
  destruct (Ascii.eqb opt "b"); apply IH.
Qed.

(** X19.  Whenever main calls [swizzle], the number of bytes per word is
    between 1 and 4. *)
Theorem main_word_size (calls : list (ascii * string)) (paths : list string)
    (opts : swizzle_t) (inPath outPath : string) :
  main calls paths = Call opts inPath outPath ->
  1 <= bytesPerWord opts <= 4.
Proof.
  unfold main. intros Hmain.
  destruct (read_options calls default_opts) as [e|opts'] eqn:Hrun.
  - subst e. by apply read_options_exit in Hrun.
  - destruct paths as [|i [|o rest]]; [done | done |].
    injection Hmain as <- _ _.
    apply (read_options_word_size calls default_opts); [by compute | done].
Qed.

Lemma main_word_size_witness :
  1 <= bytesPerWord (options_of [("w"%char, "2"%string); ("b"%char, ""%string)]) <= 4.
Proof.
  apply (main_word_size [("w"%char, "2"%string); ("b"%char, ""%string)]
           ["in.bin"; "out.bin"]%string _ "in.bin" "out.bin").
  vm_compute. reflexivity.
Defined.

Lemma last_arg_cons_eq opt optarg calls :
  last_arg opt ((opt, optarg) :: calls)
  = Some (default optarg (last_arg opt calls)).
Proof.
  unfold last_arg. rewrite filter_cons_True by apply Ascii.eqb_refl.
  rewrite fmap_cons, last_cons. cbn [snd]. by destruct (last _).
Qed.

Lemma last_arg_cons_ne opt opt' optarg calls :
  Ascii.eqb opt' opt = false ->
  last_arg opt ((opt', optarg) :: calls) = last_arg opt calls.
Proof.
  intros Hne. unfold last_arg. rewrite filter_cons_False; [done|].
  cbn [fst]. by rewrite Hne.
Qed.

Lemma swizzle_t_eq (a b : swizzle_t) :
  addrBits a = addrBits b -> dataBits a = dataBits b ->
  bytesPerWord a = bytesPerWord b -> bigEndian a = bigEndian b -> a = b.
Proof. destruct a, b. cbn. by intros -> -> -> ->. Qed.

Lemma ascii_eqb_true a b : Ascii.eqb a b = true -> a = b.
Proof. apply Ascii.eqb_eq. Qed.

Lemma read_options_accepted calls : forall opts0,
  Forall accepted calls ->
  read_options calls opts0 = inr (options_from opts0 calls).
Proof.
  induction calls as [|[opt optarg] calls IH]; intros opts0 Hall.
  - cbn. f_equal. apply swizzle_t_eq; cbn; [done | done | done |].
    by rewrite orb_false_r.
  - inversion_clear Hall as [|? ? [Hu Hw] Hrest].
    unfold asks_usage, bad_word_size in Hu, Hw. cbn [fst snd] in Hu, Hw.
    cbn [read_options].
    destruct (Ascii.eqb opt ":") eqn:E0;
      [apply ascii_eqb_true in E0; tauto|].
    destruct (Ascii.eqb opt "h") eqn:E1;
      [apply ascii_eqb_true in E1; tauto|].
    cbn [orb].
    destruct (Ascii.eqb opt "a") eqn:Ea.
    { apply ascii_eqb_true in Ea as ->. rewrite IH by done. f_equal.
      apply swizzle_t_eq; unfold options_from; cbn [addrBits dataBits bytesPerWord bigEndian];
        rewrite ?last_arg_cons_eq, ?last_arg_cons_ne by done; cbn [existsb fst Ascii.eqb Bool.eqb orb andb];
        try done.
      by destruct (last_arg "a" calls). }
    destruct (Ascii.eqb opt "d") eqn:Ed.
    { apply ascii_eqb_true in Ed as ->. rewrite IH by done. f_equal.
      apply swizzle_t_eq; unfold options_from; cbn [addrBits dataBits bytesPerWord bigEndian];
        rewrite ?last_arg_cons_eq, ?last_arg_cons_ne by done; cbn [existsb fst Ascii.eqb Bool.eqb orb andb];
        try done.
      by destruct (last_arg "d" calls). }
    destruct (Ascii.eqb opt "w") eqn:Ew.
    { apply ascii_eqb_true in Ew as ->. cbv zeta.
      assert (1 <= atoi optarg <= 4) as Hr.
      { destruct (Z_le_dec 1 (atoi optarg)), (Z_le_dec (atoi optarg) 4);
          [done | | |]; exfalso; apply Hw; split; (done || lia). }
      rewrite (proj2 (Z.ltb_ge _ 1)), (proj2 (Z.ltb_ge 4 _)) by lia. cbn [orb].
      rewrite IH by done. f_equal.
      apply swizzle_t_eq; unfold options_from; cbn [addrBits dataBits bytesPerWord bigEndian];
        rewrite ?last_arg_cons_eq, ?last_arg_cons_ne by done; cbn [existsb fst Ascii.eqb Bool.eqb orb andb];
        try done.
      by destruct (last_arg "w" calls). }
    destruct (Ascii.eqb opt "b") eqn:Eb.
    { apply ascii_eqb_true in Eb as ->. rewrite IH by done. f_equal.
      apply swizzle_t_eq; unfold options_from; cbn [addrBits dataBits bytesPerWord bigEndian];
        rewrite ?last_arg_cons_eq, ?last_arg_cons_ne by done; cbn [existsb fst Ascii.eqb Bool.eqb orb andb];
        try done.
      by rewrite orb_true_r. }
    rewrite IH by done. f_equal.
    apply swizzle_t_eq; unfold options_from; cbn [addrBits dataBits bytesPerWord bigEndian];
      rewrite ?last_arg_cons_ne by done; cbn [existsb fst]; rewrite ?Eb; done.
Qed.

Lemma read_options_app pre post : forall opts0,
  read_options (pre ++ post) opts0
  = match read_options pre opts0 with
    | inl e => inl e
    | inr opts => read_options post opts
    end.
Proof.
  induction pre as [|[opt optarg] pre IH]; intros opts0; [done|].
  cbn [app read_options].
  destruct (_ || _); [done|].
  destruct (Ascii.eqb opt "a"); [apply IH|].
  destruct (Ascii.eqb opt "d"); [apply IH|].
  destruct (Ascii.eqb opt "w").
  { cbv zeta. destruct (_ || _); [done | apply IH]. }
  destruct (Ascii.eqb opt "b"); apply IH.
Qed.

Lemma read_options_rejected pre c post opts0 :
  Forall accepted pre ->
  (asks_usage c -> read_options (pre ++ c :: post) opts0 = inl Usage) /\
  (bad_word_size c -> read_options (pre ++ c :: post) opts0 = inl WordSizeError).
Proof.
  intros Hpre. rewrite read_options_app, read_options_accepted by done.
  destruct c as [opt optarg]. unfold asks_usage, bad_word_size. cbn [fst snd read_options].
  split.
  - intros [-> | ->]; reflexivity.
  - intros [-> Hw]. cbn [Ascii.eqb Bool.eqb orb andb]. cbv zeta.
    destruct (Z.ltb_spec (atoi optarg) 1); [done|].
    destruct (Z.ltb_spec 4 (atoi optarg)); [done|]. lia.
Qed.

Lemma accepted_dec c : {accepted c} + {~ accepted c}.
Proof.
  unfold accepted, asks_usage, bad_word_size.
  destruct (ascii_dec c.1 ":"), (ascii_dec c.1 "h"), (ascii_dec c.1 "w"),
    (Z_le_dec 1 (atoi c.2)), (Z_le_dec (atoi c.2) 4);
    (left; tauto) || (right; tauto) || (left; lia) || (right; lia) || idtac.
  all: try (left; split; [tauto|]; intros [_ H]; apply H; lia).
  all: try (right; intros [_ H]; apply H; split; [done|]; lia).
Qed.

Lemma first_rejected_split (calls : list (ascii * string)) :
  Forall accepted calls \/
  exists pre c post,
    calls = pre ++ c :: post /\ Forall accepted pre /\ ~ accepted c.
Proof.
  induction calls as [|c calls [IH | (pre & bad & post & -> & Hpre & Hbad)]].
  - left. constructor.
  - destruct (accepted_dec c) as [Hc|Hc].
    + left. by constructor.
    + right. exists [], c, calls. split_and!; [done | constructor | done].
  - destruct (accepted_dec c) as [Hc|Hc].
    + right. exists (c :: pre), bad, post. split_and!; [done | by constructor | done].
    + right. exists [], c, (pre ++ bad :: post). split_and!; [done | constructor | done].
Qed.

Lemma options_from_default calls : options_from default_opts calls = options_of calls.
Proof.
  apply swizzle_t_eq; unfold options_from, options_of;
    cbn [addrBits dataBits bytesPerWord bigEndian default_opts orb]; try done.
  - by destruct (last_arg "a" calls).
  - by destruct (last_arg "d" calls).
Qed.

(** X20.  main calls [swizzle] exactly when no option asks for the usage
    text or lacks its argument, every -w is between 1 and 4 and two paths
    are left; the options are then those of the last -a, -d and -w, with
    -b wherever it stands, unknown options are passed over, and paths
    after the second are ignored. *)
Theorem main_calls_swizzle (calls : list (ascii * string)) (paths : list string)
    (opts : swizzle_t) (inPath outPath : string) :
  main calls paths = Call opts inPath outPath <->
  Forall accepted calls /\
  opts = options_of calls /\
  exists rest, paths = inPath :: outPath :: rest.
Proof.
  unfold main. split.
  - intros Hmain.
    destruct (first_rejected_split calls)
      as [Hall | (pre & c & post & -> & Hpre & Hbad)].
    + rewrite read_options_accepted, options_from_default in Hmain by done.
      destruct paths as [|i [|o rest]]; [done | done |].
      injection Hmain as <- <- <-. split_and!; [done | done | by exists rest].
    + exfalso.
      destruct (read_options_rejected pre c post default_opts Hpre) as [Hu Hw].
      unfold accepted in Hbad.
      destruct (ascii_dec c.1 ":") as [E|E0]; [rewrite Hu in Hmain; [done | by left]|].
      destruct (ascii_dec c.1 "h") as [E|E1]; [rewrite Hu in Hmain; [done | by right]|].
      assert (~ asks_usage c) as Hnu by (unfold asks_usage; tauto).
      destruct (ascii_dec c.1 "w") as [E|E2].
      * destruct (Z_le_dec 1 (atoi c.2)), (Z_le_dec (atoi c.2) 4);
          try (rewrite Hw in Hmain; [done | split; [done | lia]]).
        apply Hbad. split; [done|]. intros [_ H]. apply H. lia.
      * apply Hbad. split; [done|]. by intros [? _].
  - intros (Hall & -> & rest & ->).
    by rewrite read_options_accepted, options_from_default.
Qed.

(** X21.  The first option that asks for the usage text or lacks its
    argument, or carries a word size outside 1..4, ends main on the spot,
    with the usage text or with the message on the word size; what
    follows it and the paths are not looked at.  With options that are
    all accepted and fewer than two paths main ends with the usage
    text. *)
Theorem main_exits_early (calls : list (ascii * string)) (paths : list string) :
  (forall pre c post,
     calls = pre ++ c :: post ->
     Forall accepted pre ->
     (asks_usage c -> main calls paths = Usage) /\
     (bad_word_size c -> main calls paths = WordSizeError)) /\
  (Forall accepted calls -> (length paths < 2)%nat -> main calls paths = Usage).
Proof.
  unfold main. split.
  - intros pre c post -> Hpre.
    destruct (read_options_rejected pre c post default_opts Hpre) as [Hu Hw].
    split; intros H; [by rewrite Hu | by rewrite Hw].
  - intros Hall Hlen. rewrite read_options_accepted by done.
    destruct paths as [|i [|o rest]]; [done | done |]. cbn in Hlen. lia.
Qed.

Lemma main_exits_early_witness :
  main [("a"%char, "1,0"%string); ("h"%char, ""%string); ("w"%char, "9"%string)] []
  = Usage.
Proof.
  apply (proj1 (main_exits_early
                  [("a"%char, "1,0"%string); ("h"%char, ""%string); ("w"%char, "9"%string)]
                  [])
           [("a"%char, "1,0"%string)] ("h"%char, ""%string) [("w"%char, "9"%string)]
           eq_refl).
  - constructor; [|constructor].
    split; [intros [H|H]; discriminate H | intros [H _]; discriminate H].
  - right. reflexivity.
Defined.
